(** * May I -- rules engine (MayI.js)

    A shallow embedding of the card, deck, meld, player and game classes of
    [MayI.js], followed by the properties of the rules engine.

    Conventions of the embedding.
    - JavaScript numbers that the engine only ever uses as integers (card
      ids, order values, buys, turn indices) are [Z] or [nat].
    - An array is a [list]; an array slot that holds [undefined] (the result
      of [shift] or [pop] on an empty array) is [None] in a list of options.
    - The [players] object is an association list in insertion order, which
      is the order [for ... in] and [Object.keys] enumerate string keys.
    - A method that mutates [this] is a function from the state before the
      call to an outcome carrying the state after it; a thrown [TypeError]
      or [Error] is the outcome [Throw], which still carries the state
      reached when the exception left the method. *)

From Equations Require Import Equations.
From Equations.Prop Require Import Logic.
From stdpp Require Import base list strings sorting.
From Stdlib Require Import ZArith Lia.

Open Scope Z_scope.

(** ** Cards *)

Inductive Suit := Clubs | Diamonds | Hearts | Spades.

Inductive Rank := RA | R2 | R3 | R4 | R5 | R6 | R7 | R8 | R9 | R10 | RJ | RQ | RK.

#[global] Instance Suit_eq_dec : EqDecision Suit.
Proof. solve_decision. Defined.

#[global] Instance Rank_eq_dec : EqDecision Rank.
Proof. solve_decision. Defined.

Definition suits : list Suit := [Clubs; Diamonds; Hearts; Spades].

Definition ranks : list Rank :=
  [RA; R2; R3; R4; R5; R6; R7; R8; R9; R10; RJ; RQ; RK].

(** [values.get(r)] *)
Definition values (r : Rank) : Z :=
  match r with
  | RA => 1 | R2 => 20 | R3 => 3 | R4 => 4 | R5 => 5 | R6 => 6 | R7 => 7
  | R8 => 8 | R9 => 9 | R10 => 10 | RJ => 10 | RQ => 10 | RK => 10
  end.

(** [order.get(r)] *)
Definition order (r : Rank) : Z :=
  match r with
  | RA => 1 | R2 => 2 | R3 => 3 | R4 => 4 | R5 => 5 | R6 => 6 | R7 => 7
  | R8 => 8 | R9 => 9 | R10 => 10 | RJ => 11 | RQ => 12 | RK => 13
  end.

Record Card := mkCard {
  card_id : Z;
  card_rank : Rank;
  card_suit : Suit;
  card_value : Z;
  card_order : Z
}.

#[global] Instance Card_eq_dec : EqDecision Card.
Proof. solve_decision. Defined.

(** [card.order === 2] *)
Definition is_wild (c : Card) : bool := card_order c =? 2.

(** ** Array primitives used by the engine *)

(** [cards.sort((a, b) => a.order - b.order)]: the sort of an array is
    stable, so the result is the stable arrangement by ascending order. *)
Fixpoint insert_by_order (c : Card) (l : list Card) : list Card :=
  match l with
  | [] => [c]
  | d :: t =>
      if card_order c <=? card_order d then c :: d :: t
      else d :: insert_by_order c t
  end.

Definition sort_by_order (l : list Card) : list Card :=
  foldr insert_by_order [] l.

(** [arr.splice(i, 0, x)] *)
Definition splice_in {A} (i : nat) (x : A) (l : list A) : list A :=
  take i l ++ x :: drop i l.

(** [arr.pop()]: the last element and the array without it. *)
Fixpoint pop {A} (l : list A) : option (A * list A) :=
  match l with
  | [] => None
  | x :: t =>
      match pop t with
      | None => Some (x, [])
      | Some (y, t') => Some (y, x :: t')
      end
  end.

(** The outcome of a call that may throw. *)
Inductive Outcome (A : Type) : Type :=
| Return (a : A)
| Throw.
Arguments Return {A} a.
Arguments Throw {A}.

(** ** Meld validation *)

Module Meld.

(** The loop of [isSet]; [val] is the order every later card must match,
    0 while none has been seen. *)
Fixpoint isSet_loop (val : Z) (cards : list Card) : bool :=
  match cards with
  | [] => true
  | card :: rest =>
      if card_order card =? 2 then isSet_loop val rest
      else if val =? 0 then isSet_loop (card_order card) rest
      else if negb (val =? card_order card) then false
      else isSet_loop val rest
  end.

Definition isSet (cards : list Card) : bool := isSet_loop 0 cards.

(** [isSet(cards)] together with the contents of the array [cards] when
    the call returns: the method reads the array and never writes to it. *)
Definition isSet_arr (cards : list Card) : bool * list Card :=
  (isSet cards, cards).

(** First loop of [isRun]: [i] runs from [cards.length - 1] down to 0 and
    every wild card met is spliced out of [cards] and pushed on
    [wildCards]. The argument [n] is [i + 1]. *)
Fixpoint extract_wild (n : nat) (cards wildCards : list Card)
  : list Card * list Card :=
  match n with
  | O => (cards, wildCards)
  | S i =>
      match cards !! i with
      | Some c =>
          if card_order c =? 2
          then extract_wild i (delete i cards) (wildCards ++ [c])
          else extract_wild i cards wildCards
      | None => extract_wild i cards wildCards
      end
  end.

(** Second loop of [isRun]: neighbours must have the same suit. *)
Fixpoint same_suit_loop (cards : list Card) : bool :=
  match cards with
  | a :: (b :: _) as rest =>
      if decide (card_suit a = card_suit b) then same_suit_loop rest
      else false
  | _ => true
  end.

(** The [while] loop of [isRun]. The state is the array [cards], the stack
    [wildCards], the index [i] and the expected order [val]; the result is
    [false] for the early [return false], [true] when the loop ends, with
    both arrays as the loop left them. *)
Equations? run_loop (cards wildCards : list Card) (i : nat) (val : Z)
  : bool * list Card * list Card
  by wf (length wildCards + (length cards - i))%nat lt :=
run_loop cards wildCards i val with inspect (cards !! i) := {
  | exist _ None _ => (true, cards, wildCards)
  | exist _ (Some c) Hc with inspect (card_order c =? val) := {
    | exist _ true _ => run_loop cards wildCards (S i) (val + 1)
    | exist _ false _ with inspect (pop wildCards) := {
      | exist _ None _ => (false, cards, wildCards)
      | exist _ (Some (w, rest)) Hp =>
          run_loop (splice_in i w cards) rest (S i) (val + 1) } } }.
Proof.
  - apply lookup_lt_Some in Hc. lia.
  - apply lookup_lt_Some in Hc.
    assert (length wildCards = S (length rest)) as ->.
    { clear -Hp. revert w rest Hp.
      induction wildCards as [|x t IH]; intros w rest Hp; [done|].
      simpl in Hp. destruct (pop t) as [[y t']|] eqn:E.
      - inversion Hp; subst. simpl. f_equal. eapply IH. reflexivity.
      - inversion Hp; subst. destruct t; [done|].
        simpl in E. destruct (pop t); [destruct p|]; discriminate. }
    unfold splice_in. rewrite length_app, length_take. simpl.
    rewrite length_drop. lia.
Qed.

(** [isRun(cards)] together with the contents of the array [cards] when
    the call returns. *)
Definition isRun_arr (cards0 : list Card) : bool * list Card :=
  let cards1 := sort_by_order cards0 in
  let '(cards2, wildCards) := extract_wild (length cards1) cards1 [] in
  if negb (same_suit_loop cards2) then (false, cards2)
  else
    let val := match cards2 with c :: _ => card_order c + 1 | [] => 0 end in
    match run_loop cards2 wildCards 1 val with
    | (false, cards3, _) => (false, cards3)
    | (true, cards3, wildCards3) => (true, cards3 ++ wildCards3)
    end.

Definition isRun (cards : list Card) : bool := fst (isRun_arr cards).

Inductive MeldType := SET | RUN | EITHER.

#[global] Instance MeldType_eq_dec : EqDecision MeldType.
Proof. solve_decision. Defined.

(** A meld object. [meld_id] is [None] for the [null] id of the probing
    melds built by [addCard] and [swap]; [meld_playerID] is [None] for
    [null]. *)
Record t := mk {
  meld_id : option Z;
  meld_cards : list Card;
  meld_type : MeldType;
  meld_playerID : option string
}.

Definition set_cards (m : t) (cards : list Card) : t :=
  mk (meld_id m) cards (meld_type m) (meld_playerID m).

Definition set_playerID (m : t) (p : option string) : t :=
  mk (meld_id m) (meld_cards m) (meld_type m) p.

(** [new Meld(id, cards, player)]; [player] is the [id] field of the player
    object, [None] when the argument is [null] or [undefined]. The two
    checks run on copies [[...cards]], so whatever [isRun] does to its
    array is lost and [cards] itself is stored. [None] is the thrown
    [Error("Invalid Meld")]. *)
Definition new (id : option Z) (cards : list Card) (player : option string)
  : option t :=
  let run := isRun cards in
  let set := isSet cards in
  if negb run && negb set then None
  else Some (mk id cards
               (if run && set then EITHER else if run then RUN else SET)
               player).

(** [meld.addCard(card)]: the result and the meld after the call. *)
Definition addCard (m : t) (card : Card) : bool * t :=
  let newCards := meld_cards m ++ [card] in
  match new None newCards None with
  | Some _ => (true, set_cards m (sort_by_order (meld_cards m ++ [card])))
  | None => (false, m)
  end.

(** First loop of [swap]: [testMeld] collects the cards whose id differs
    from [meldCard.id]. Reading [meldCard.id] when [meldCard] is
    [undefined] is a [TypeError], here [None]. *)
Fixpoint swap_testMeld (meldCard : option Card) (cards testMeld : list Card)
  : option (list Card) :=
  match cards with
  | [] => Some testMeld
  | card :: rest =>
      match meldCard with
      | None => None
      | Some mc =>
          if negb (card_id card =? card_id mc)
          then swap_testMeld meldCard rest (testMeld ++ [card])
          else swap_testMeld meldCard rest testMeld
      end
  end.

(** Second loop of [swap]: the first card with the id of [meldCard] is
    replaced ([splice(i, 1, playerCard)], then [break]). *)
Fixpoint swap_replace (meldCard : option Card) (playerCard : Card)
    (cards : list Card) : option (list Card) :=
  match cards with
  | [] => Some []
  | card :: rest =>
      match meldCard with
      | None => None
      | Some mc =>
          if card_id card =? card_id mc then Some (playerCard :: rest)
          else option_map (cons card) (swap_replace meldCard playerCard rest)
      end
  end.

(** [meld.swap(meldCard, playerCard)]: the outcome and the meld after the
    call. The first loop is outside the [try], so its [TypeError] leaves
    the method; the meld has not been written to at that point. *)
Definition swap (m : t) (meldCard : option Card) (playerCard : Card)
  : Outcome bool * t :=
  match swap_testMeld meldCard (meld_cards m) [playerCard] with
  | None => (Throw, m)
  | Some testMeld =>
      match new None testMeld None with
      | None => (Return false, m)
      | Some _ =>
          match swap_replace meldCard playerCard (meld_cards m) with
          | None => (Return false, m)
          | Some cards => (Return true, set_cards m (sort_by_order cards))
          end
      end
  end.

End Meld.

(** ** Players *)

Module Player.

Record t := mk {
  id : string;
  socketId : option string;
  name : string;
  buys : Z;
  points : Z;
  hand : list (option Card)
}.

(** [new Player(id, socketId, name)] *)
Definition new (id : string) (socketId : option string) (name : string) : t :=
  mk id socketId name 6 0 [].

Definition set_hand (p : t) (h : list (option Card)) : t :=
  mk (id p) (socketId p) (name p) (buys p) (points p) h.

Definition set_buys (p : t) (b : Z) : t :=
  mk (id p) (socketId p) (name p) b (points p) (hand p).

(** [player.addCard(card)] and the [hand.push(...)] of the game methods *)
Definition addCard (p : t) (card : option Card) : t :=
  set_hand p (hand p ++ [card]).

(** [player.setSocketId(sid = null)] *)
Definition setSocketId (p : t) (sid : option string) : t :=
  mk (id p) sid (name p) (buys p) (points p) (hand p).

(** [player.setPlayerId(pid)] *)
Definition setPlayerId (p : t) (pid : string) : t :=
  mk pid (socketId p) (name p) (buys p) (points p) (hand p).

(** The loop
    [for (i = 0; i < hand.length; i++) if (hand[i].id === id) hand.splice(i, 1)]
    of [removeCard], [MayI.discard] and [MayI.meld], run on the part of the
    hand from index [i] on. After a [splice] the next card has moved into
    slot [i] and [i++] steps over it without looking at it. Reading [.id]
    of an [undefined] slot is a [TypeError]: the second component is
    [false] then, and the first is the hand as the loop left it. *)
Fixpoint remove_loop (cid : Z) (hand : list (option Card))
  : list (option Card) * bool :=
  match hand with
  | [] => ([], true)
  | None :: _ => (hand, false)
  | Some c :: rest =>
      if card_id c =? cid then
        match rest with
        | [] => ([], true)
        | x :: rest' =>
            let '(h, ok) := remove_loop cid rest' in (x :: h, ok)
        end
      else
        let '(h, ok) := remove_loop cid rest in (Some c :: h, ok)
  end.

(** [player.removeCard(card)] *)
Definition removeCard (p : t) (card : Card) : Outcome unit * t :=
  let '(h, ok) := remove_loop (card_id card) (hand p) in
  (if ok then Return tt else Throw, set_hand p h).

Definition set_points (p : t) (pts : Z) : t :=
  mk (id p) (socketId p) (name p) (buys p) pts (hand p).

End Player.

(** ** The deck *)

Module Deck.

Record t := mk {
  deck : list Card;
  discarded : list (option Card)
}.

(** Innermost loop of the constructor: [decks] copies of one rank and suit,
    numbered by the running [counter]. *)
Fixpoint copies_loop (decks : nat) (s : Suit) (r : Rank)
    (counter : Z) (acc : list Card) : Z * list Card :=
  match decks with
  | O => (counter, acc)
  | S n =>
      copies_loop n s r (counter + 1)
        (acc ++ [mkCard counter r s (values r) (order r)])
  end.

Fixpoint ranks_loop (rs : list Rank) (decks : nat) (s : Suit)
    (counter : Z) (acc : list Card) : Z * list Card :=
  match rs with
  | [] => (counter, acc)
  | r :: rs' =>
      let '(counter', acc') := copies_loop decks s r counter acc in
      ranks_loop rs' decks s counter' acc'
  end.

Fixpoint suits_loop (ss : list Suit) (rs : list Rank) (decks : nat)
    (counter : Z) (acc : list Card) : Z * list Card :=
  match ss with
  | [] => (counter, acc)
  | s :: ss' =>
      let '(counter', acc') := ranks_loop rs decks s counter acc in
      suits_loop ss' rs decks counter' acc'
  end.

(** [[a[i], a[j]] = [a[j], a[i]]] *)
Definition swap_slots (i j : nat) (a : list Card) : list Card :=
  match a !! i, a !! j with
  | Some x, Some y => <[j := x]> (<[i := y]> a)
  | _, _ => a
  end.

(** [shuffle()]: slot [card] is exchanged with slot
    [Math.floor(Math.random() * deck.length)]. The random source is the
    function [rnd]; the number drawn at iteration [k] is [rnd k], brought
    into [0 .. length - 1]. The argument [n] counts the iterations left. *)
Fixpoint shuffle_loop (rnd : nat -> nat) (n : nat) (card : nat)
    (a : list Card) : list Card :=
  match n with
  | O => a
  | S n' =>
      let randomCard := (rnd card mod length a)%nat in
      shuffle_loop rnd n' (S card) (swap_slots card randomCard a)
  end.

Definition shuffle (rnd : nat -> nat) (d : t) : t :=
  mk (shuffle_loop rnd (length (deck d)) 0 (deck d)) (discarded d).

(** [new Deck(suits, ranks, values, decks, shuffle)] *)
Definition new (ss : list Suit) (rs : list Rank) (decks : nat)
    (do_shuffle : bool) (rnd : nat -> nat) : t :=
  let d := mk (snd (suits_loop ss rs decks 1 [])) [] in
  if do_shuffle then shuffle rnd d else d.

(** [discardCard(card)] *)
Definition discardCard (d : t) (card : option Card) : t :=
  mk (deck d) (discarded d ++ [card]).

(** [drawCard()], that is [deck.shift()]: [undefined] on an empty pile. *)
Definition drawCard (d : t) : option Card * t :=
  match deck d with
  | [] => (None, d)
  | x :: rest => (Some x, mk rest (discarded d))
  end.

End Deck.

(** ** Round requirements *)

Module Rounds.

Record RoundMeld := mkRoundMeld {
  rm_id : Z;
  rm_name : string;
  rm_sets : nat;
  rm_length : nat
}.

Definition melds : list RoundMeld := [
  mkRoundMeld 1 "Two Threes" 2 3;
  mkRoundMeld 2 "One Four" 1 4;
  mkRoundMeld 3 "Two Fours" 2 4;
  mkRoundMeld 4 "One Five" 1 5;
  mkRoundMeld 5 "One Six" 1 6;
  mkRoundMeld 6 "Two Fives" 2 5
].

End Rounds.

(** [arr[k]] for a number [k]: [undefined] outside [0 .. length - 1]. *)
Definition index {A} (l : list A) (k : Z) : option A :=
  if k <? 0 then None else l !! Z.to_nat k.

(** ** The [players] object *)

Module Obj.

Definition t (V : Type) := list (string * V).

(** [obj[k]] *)
Fixpoint get {V} (o : t V) (k : string) : option V :=
  match o with
  | [] => None
  | (k', v) :: rest => if decide (k' = k) then Some v else get rest k
  end.

(** [obj[k] = v]: an existing key keeps its place, a new one goes last. *)
Fixpoint set {V} (o : t V) (k : string) (v : V) : t V :=
  match o with
  | [] => [(k, v)]
  | (k', v') :: rest =>
      if decide (k' = k) then (k, v) :: rest else (k', v') :: set rest k v
  end.

(** [delete obj[k]] *)
Fixpoint del {V} (o : t V) (k : string) : t V :=
  match o with
  | [] => []
  | (k', v') :: rest =>
      if decide (k' = k) then rest else (k', v') :: del rest k
  end.

(** [Object.keys(obj)] *)
Definition keys {V} (o : t V) : list string := map fst o.

End Obj.

(** ** The game *)

Module MayI.

Record t := mk {
  players : Obj.t Player.t;
  connectedPlayerCount : Z;
  deck : option Deck.t;
  round : Z;
  turn : nat;
  turnOrder : list string;
  melds : list Meld.t
}.

(** [new MayI()] *)
Definition new : t := mk [] 0 None 1 0 [] [].

Definition set_players (g : t) (ps : Obj.t Player.t) : t :=
  mk ps (connectedPlayerCount g) (deck g) (round g) (turn g) (turnOrder g)
     (melds g).

Definition set_deck (g : t) (d : option Deck.t) : t :=
  mk (players g) (connectedPlayerCount g) d (round g) (turn g) (turnOrder g)
     (melds g).

Definition set_turn (g : t) (n : nat) : t :=
  mk (players g) (connectedPlayerCount g) (deck g) (round g) n (turnOrder g)
     (melds g).

Definition set_melds (g : t) (ms : list Meld.t) : t :=
  mk (players g) (connectedPlayerCount g) (deck g) (round g) (turn g)
     (turnOrder g) ms.

Definition set_count (g : t) (n : Z) : t :=
  mk (players g) n (deck g) (round g) (turn g) (turnOrder g) (melds g).

Definition set_turnOrder (g : t) (o : list string) : t :=
  mk (players g) (connectedPlayerCount g) (deck g) (round g) (turn g) o
     (melds g).

(** [disconnect(player)] *)
Definition disconnect (g : t) (player : string) : Outcome unit * t :=
  match Obj.get (players g) player with
  | None => (Throw, g)
  | Some p =>
      let g1 := set_players g
                  (Obj.set (players g) player (Player.setSocketId p None)) in
      (Return tt, set_count g1 (connectedPlayerCount g1 - 1))
  end.

(** [turnOrder[turnOrder.indexOf(player)] = pid]; with [indexOf] at -1 the
    assignment makes a property named "-1" and no slot changes. *)
Fixpoint replace_first_id (player pid : string) (o : list string)
  : list string :=
  match o with
  | [] => []
  | x :: rest =>
      if decide (x = player) then pid :: rest
      else x :: replace_first_id player pid rest
  end.

(** [reconnect(player, pid, sid)] *)
Definition reconnect (g : t) (player pid : string) (sid : option string)
  : Outcome unit * t :=
  match Obj.get (players g) player with
  | None => (Throw, g)
  | Some p =>
      let p' := Player.setSocketId (Player.setPlayerId p pid) sid in
      let ps1 := Obj.set (players g) player p' in
      let ps2 := Obj.set ps1 pid p' in
      let ps3 := Obj.del ps2 player in
      (Return tt,
       mk ps3 (connectedPlayerCount g + 1) (deck g) (round g) (turn g)
          (replace_first_id player pid (turnOrder g))
          (map (fun m =>
                  if decide (Meld.meld_playerID m = Some player)
                  then Meld.set_playerID m (Some pid) else m)
               (melds g)))
  end.

(** [incrementTurn()] *)
Definition incrementTurn (g : t) : t :=
  let numberOfPlayers := length (Obj.keys (players g)) in
  if Z.of_nat (turn g) =? Z.of_nat numberOfPlayers - 1 then set_turn g 0
  else set_turn g (turn g + 1).

(** [addPlayer(id, socketId, name)] *)
Definition addPlayer (g : t) (id : string) (socketId : option string)
    (name : string) : t :=
  match Obj.get (players g) id with
  | Some _ => g
  | None =>
      mk (Obj.set (players g) id (Player.new id socketId name))
         (connectedPlayerCount g + 1) (deck g) (round g) (turn g)
         (turnOrder g ++ [id]) (melds g)
  end.

(** One pass of the inner loop of [deal]: every player, in key order,
    pushes [deck.drawCard()] on their hand. *)
Fixpoint deal_pass (ps : Obj.t Player.t) (d : Deck.t)
  : Obj.t Player.t * Deck.t :=
  match ps with
  | [] => ([], d)
  | (k, p) :: rest =>
      let '(card, d1) := Deck.drawCard d in
      let '(rest', d2) := deal_pass rest d1 in
      ((k, Player.addCard p card) :: rest', d2)
  end.

Fixpoint deal_loop (n : nat) (ps : Obj.t Player.t) (d : Deck.t)
  : Obj.t Player.t * Deck.t :=
  match n with
  | O => (ps, d)
  | S n' => let '(ps1, d1) := deal_pass ps d in deal_loop n' ps1 d1
  end.

(** [deal()]; [rnd] is the random source of the shuffle. *)
Definition deal (rnd : nat -> nat) (g : t) : t :=
  let d0 := Deck.new suits ranks 2 true rnd in
  let '(ps, d1) := deal_loop 11 (players g) d0 in
  let '(card, d2) := Deck.drawCard d1 in
  set_deck (set_players g ps) (Some (Deck.discardCard d2 card)).

(** [draw(player, qty)] *)
Fixpoint draw (g : t) (player : string) (qty : nat) : Outcome unit * t :=
  match qty with
  | O => (Return tt, g)
  | S n =>
      match Obj.get (players g) player, deck g with
      | Some p, Some d =>
          let '(card, d') := Deck.drawCard d in
          draw (set_deck
                  (set_players g
                     (Obj.set (players g) player (Player.addCard p card)))
                  (Some d'))
               player n
      | _, _ => (Throw, g)
      end
  end.

(** [discard(player, card)]; the result [None] is [undefined]. The test
    [!hand.length !== 0] compares a boolean with a number and so always
    holds: [incrementTurn] is called on every path that reaches it. *)
Definition discard (g : t) (player : string) (card : Card)
  : Outcome (option bool) * t :=
  if negb (bool_decide (turnOrder g !! turn g = Some player))
  then (Return None, g)
  else
    match Obj.get (players g) player with
    | None => (Throw, g)
    | Some p =>
        let '(h, ok) := Player.remove_loop (card_id card) (Player.hand p) in
        let g1 := set_players g
                    (Obj.set (players g) player (Player.set_hand p h)) in
        if negb ok then (Throw, g1)
        else
          match deck g1 with
          | None => (Throw, g1)
          | Some d =>
              let g2 := set_deck g1 (Some (Deck.discardCard d (Some card))) in
              (Return (Some true), incrementTurn g2)
          end
    end.

(** The loop of [determineBuy] over [buyOrder[0 .. length - 1]]. Reading
    [.buys] of a player missing from [players] is a [TypeError]. *)
Fixpoint determineBuy_loop (g : t) (allPlayers : list string)
    (buyOrder : list string) (length : nat) : Outcome (option string) :=
  match length, buyOrder with
  | S n, player :: rest =>
      if bool_decide (player ∈ allPlayers) then
        match Obj.get (players g) player with
        | None => Throw
        | Some p =>
            if Player.buys p >? 0 then Return (Some player)
            else determineBuy_loop g allPlayers rest n
        end
      else determineBuy_loop g allPlayers rest n
  | _, _ => Return None
  end.

(** [determineBuy(allPlayers)]; the result [None] is [false]. *)
Definition determineBuy (g : t) (allPlayers : list string)
  : Outcome (option string) :=
  let buyOrder := drop (turn g) (turnOrder g) ++ take (turn g) (turnOrder g) in
  match deck g with
  | None => Throw
  | Some d =>
      let len :=
        if (length (Deck.discarded d) =? 1)%nat then length buyOrder
        else (length buyOrder - 1)%nat in
      determineBuy_loop g allPlayers buyOrder len
  end.

(** [buy(player)]; [Some false] is [return false], [None] the [undefined]
    of falling off the end of the method. *)
Definition buy (g : t) (player : string) : Outcome (option bool) * t :=
  match Obj.get (players g) player with
  | None => (Throw, g)
  | Some p =>
      if Player.buys p =? 0 then (Return (Some false), g)
      else
        let p1 := Player.set_buys p (Player.buys p - 1) in
        let g1 := set_players g (Obj.set (players g) player p1) in
        match deck g1 with
        | None => (Throw, g1)
        | Some d =>
            let '(card, discarded') :=
              match pop (Deck.discarded d) with
              | None => (None, Deck.discarded d)
              | Some (x, rest) => (x, rest)
              end in
            let g2 :=
              set_deck
                (set_players g1
                   (Obj.set (players g1) player (Player.addCard p1 card)))
                (Some (Deck.mk (Deck.deck d) discarded')) in
            match draw g2 player 1 with
            | (Return _, g3) => (Return None, g3)
            | (Throw, g3) => (Throw, g3)
            end
        end
  end.

(** [hasMeld(playerID)] *)
Definition hasMeld (g : t) (playerID : string) : bool :=
  existsb (fun m => bool_decide (Meld.meld_playerID m = Some playerID))
          (melds g).

(** First loop of [meld]: one [Meld] per group, numbered from
    [this.melds.length]; [None] when a constructor throws. *)
Fixpoint meld_build (g : t) (player : string) (newMelds : list (list Card))
    (i : nat) : option (list Meld.t) :=
  match newMelds with
  | [] => Some []
  | cards :: rest =>
      match Meld.new (Some (Z.of_nat (length (melds g) + i))) cards
                     (Player.id <$> Obj.get (players g) player) with
      | None => None
      | Some n => cons n <$> meld_build g player rest (S i)
      end
  end.

(** [sum]: the number of cards in all the groups. *)
Definition meld_sum (newMelds : list (list Card)) : nat :=
  foldl (fun sum cards => (sum + length cards)%nat) 0%nat newMelds.

(** The round check of [meld] on the built melds [m]: [true] when the
    method goes on, [false] for [return false] and for the [TypeError] of
    reading [.sets] when [melds[round - 1]] is [undefined]. *)
Definition meld_round_check (g : t) (m : list Meld.t) : bool :=
  match index Rounds.melds (round g - 1) with
  | None => false
  | Some roundMeld =>
      if negb (length m =? Rounds.rm_sets roundMeld)%nat then false
      else
        forallb
          (fun n =>
             negb ((length (Meld.meld_cards n) <? Rounds.rm_length roundMeld)%nat
                   || bool_decide (Meld.meld_type n = Meld.RUN)))
          m
  end.

(** The removal loops of [meld], over every card of every group. *)
Fixpoint meld_remove (cards : list Card) (hand : list (option Card))
  : list (option Card) * bool :=
  match cards with
  | [] => (hand, true)
  | card :: rest =>
      let '(h, ok) := Player.remove_loop (card_id card) hand in
      if ok then meld_remove rest h else (h, false)
  end.

(** [meld(player, newMelds)]. The whole body is inside [try], and the
    [catch] returns [false]. *)
Definition meld (g : t) (player : string) (newMelds : list (list Card))
  : bool * t :=
  match meld_build g player newMelds 0 with
  | None => (false, g)
  | Some m =>
      match Obj.get (players g) player with
      | None => (false, g)
      | Some p =>
          if (meld_sum newMelds =? length (Player.hand p))%nat
          then (false, g)
          else if negb (hasMeld g player) && negb (meld_round_check g m)
          then (false, g)
          else
            let '(h, ok) := meld_remove (concat newMelds) (Player.hand p) in
            let g1 := set_players g
                        (Obj.set (players g) player (Player.set_hand p h)) in
            if ok then (true, set_melds g1 (melds g1 ++ m))
            else (false, g1)
      end
  end.

(** [this.melds.find(m => m.id === meldID)]: the slot and the meld. *)
Fixpoint find_meld (ms : list Meld.t) (meldID : Z) : option (nat * Meld.t) :=
  match ms with
  | [] => None
  | m :: rest =>
      if bool_decide (Meld.meld_id m = Some meldID) then Some (O, m)
      else
        match find_meld rest meldID with
        | Some (k, m') => Some (S k, m')
        | None => None
        end
  end.

(** The hand loop of [swapWithMeld]: the first card with the id of
    [playerCard] is replaced by [meldCard], then [break]. [None] is the
    [TypeError] of reading [.id] of an [undefined] slot, which leaves the
    hand as it was. *)
Fixpoint swap_hand_loop (cid : Z) (meldCard : option Card)
    (hand : list (option Card)) : option (list (option Card)) :=
  match hand with
  | [] => Some []
  | None :: _ => None
  | Some c :: rest =>
      if card_id c =? cid then Some (meldCard :: rest)
      else cons (Some c) <$> swap_hand_loop cid meldCard rest
  end.

(** [swapWithMeld(player, playerCard, meldID)] *)
Definition swapWithMeld (g : t) (player : string) (playerCard : Card)
    (meldID : Z) : Outcome bool * t :=
  if negb (hasMeld g player) then (Return false, g)
  else
    match find_meld (melds g) meldID with
    | None => (Throw, g)
    | Some (k, meld) =>
        let meldCard := List.find is_wild (Meld.meld_cards meld) in
        let '(r, meld') := Meld.swap meld meldCard playerCard in
        let g1 := set_melds g (<[k := meld']> (melds g)) in
        match r with
        | Throw => (Throw, g1)
        | Return false => (Return false, g1)
        | Return true =>
            match Obj.get (players g1) player with
            | None => (Throw, g1)
            | Some p =>
                match swap_hand_loop (card_id playerCard) meldCard
                                     (Player.hand p) with
                | None => (Throw, g1)
                | Some h =>
                    (Return true,
                     set_players g1
                       (Obj.set (players g1) player (Player.set_hand p h)))
                end
            end
        end
    end.

(** [addToMeld(player, card, meldID)] *)
Definition addToMeld (g : t) (player : string) (card : Card) (meldID : Z)
  : Outcome bool * t :=
  match find_meld (melds g) meldID with
  | None => (Throw, g)
  | Some (k, meld) =>
      let '(x, meld') := Meld.addCard meld card in
      let g1 := set_melds g (<[k := meld']> (melds g)) in
      match Obj.get (players g1) player with
      | None => (Throw, g1)
      | Some p =>
          if (1 <? length (Player.hand p))%nat && x then
            let '(r, p') := Player.removeCard p card in
            let g2 := set_players g1 (Obj.set (players g1) player p') in
            match r with
            | Return _ => (Return true, g2)
            | Throw => (Throw, g2)
            end
          else (Return false, g1)
      end
  end.

(** [isValidMeld(cards)] *)
Definition isValidMeld (cards : list Card) : bool :=
  match Meld.new (Some (-1)) cards None with
  | Some _ => true
  | None => false
  end.

(** Inner loop of [endRound]: [points += card.value] for every card of the
    hand. Reading [.value] of an [undefined] slot is a [TypeError]: the
    second component is [false] then, and the first holds the points added
    up to that slot. *)
Fixpoint score_loop (points : Z) (hand : list (option Card)) : Z * bool :=
  match hand with
  | [] => (points, true)
  | None :: _ => (points, false)
  | Some card :: rest => score_loop (points + card_value card) rest
  end.

(** Outer loop of [endRound], over the players in key order: the hand is
    scored, then emptied. When the scoring throws, the players before have
    been scored and emptied, the player at hand keeps the hand with the
    points added so far, and the players after are untouched. *)
Fixpoint endRound_loop (ps : Obj.t Player.t) : Obj.t Player.t * bool :=
  match ps with
  | [] => ([], true)
  | (k, p) :: rest =>
      let '(pts, ok) := score_loop (Player.points p) (Player.hand p) in
      if ok then
        let '(rest', ok') := endRound_loop rest in
        ((k, Player.set_hand (Player.set_points p pts) []) :: rest', ok')
      else ((k, Player.set_points p pts) :: rest, false)
  end.

(** [endRound()]; [rnd] is the random source of the deal. *)
Definition endRound (rnd : nat -> nat) (g : t) : Outcome unit * t :=
  let '(ps, ok) := endRound_loop (players g) in
  if negb ok then (Throw, set_players g ps)
  else
    let g1 := mk ps (connectedPlayerCount g) (deck g) (round g + 1) (turn g)
                 (turnOrder g) [] in
    if round g1 <=? 6 then (Return tt, deal rnd g1) else (Return tt, g1).

End MayI.

(** * Specification-side notions *)

(** ** The run rule *)

(** [Fill v os n]: the cards with orders [os], taken in that sequence, and
    [n] wild cards put between them occupy the consecutive values
    [v, v + 1, ...] up to the last card. *)
Inductive Fill : Z -> list Z -> nat -> Prop :=
| Fill_nil v : Fill v [] 0
| Fill_card v os n : Fill (v + 1) os n -> Fill v (v :: os) n
| Fill_wild v o os n : Fill (v + 1) (o :: os) n -> Fill v (o :: os) (S n).

(** A card that is not wild. *)
Definition not_wild (c : Card) : bool := negb (is_wild c).

(** The run rule in the words of the rules: wild cards set aside, the other
    cards share one suit and, sorted by order, leave gaps that the wild
    cards at hand can fill. *)
Definition run_rule (cards : list Card) : Prop :=
  let rest := sort_by_order (List.filter not_wild cards) in
  let k := length (List.filter is_wild cards) in
  (forall a b, a ∈ rest -> b ∈ rest -> card_suit a = card_suit b) /\
  match card_order <$> rest with
  | [] => True
  | o :: os => exists n, (n <= k)%nat /\ Fill (o + 1) os n
  end.

(** The orders [os] go up from [v] on without repeating. *)
Fixpoint ascending (v : Z) (os : list Z) : Prop :=
  match os with
  | [] => True
  | o :: t => v <= o /\ ascending (o + 1) t
  end.

(** The number of values skipped by the orders [os] read from [v] on. *)
Fixpoint missing (v : Z) (os : list Z) : Z :=
  match os with
  | [] => 0
  | o :: t => (o - v) + missing (o + 1) t
  end.

(** The order the sort arranges cards by. *)
Definition le_order (a b : Card) : Prop := card_order a <= card_order b.

(** ** Valid groups and the melds made of them *)

(** What the [Meld] constructor asks of a group: a run or a set. *)
Definition valid_group (cards : list Card) : bool :=
  Meld.isRun cards || Meld.isSet cards.

(** The type a valid group is given. *)
Definition group_type (cards : list Card) : Meld.MeldType :=
  if Meld.isRun cards && Meld.isSet cards then Meld.EITHER
  else if Meld.isRun cards then Meld.RUN else Meld.SET.

(** The melds made of the groups, numbered from [base] on. *)
Fixpoint new_melds (base : nat) (owner : option string)
    (groups : list (list Card)) : list Meld.t :=
  match groups with
  | [] => []
  | cards :: rest =>
      Meld.mk (Some (Z.of_nat base)) cards (group_type cards) owner
      :: new_melds (S base) owner rest
  end.

(** The round requirements as the rules list them: the number of groups of
    a first meld and the least number of cards of each. *)
Definition round_shape (round : Z) : option (nat * nat) :=
  match round with
  | 1 => Some (2, 3)%nat
  | 2 => Some (1, 4)%nat
  | 3 => Some (2, 4)%nat
  | 4 => Some (1, 5)%nat
  | 5 => Some (1, 6)%nat
  | 6 => Some (2, 5)%nat
  | _ => None
  end.

(** When [meld] is to accept the groups of a player with hand [hand]. *)
Definition meld_accepted (g : MayI.t) (player : string)
    (hand : list (option Card)) (groups : list (list Card)) : Prop :=
  Forall (fun cards => valid_group cards = true) groups /\
  length (concat groups) <> length hand /\
  (MayI.hasMeld g player = false ->
   exists n len,
     round_shape (MayI.round g) = Some (n, len) /\
     length groups = n /\
     Forall (fun cards => (len <= length cards)%nat /\
                          group_type cards <> Meld.RUN) groups).

(** A card whose id is the id of a card of the groups. *)
Definition in_groups (groups : list (list Card)) (c : Card) : bool :=
  existsb (fun x => card_id x =? card_id c) (concat groups).

(** ** Buy priority *)





(** ** The cards of the table *)

(** All the cards held in hands, in key order. *)
Definition hands (ps : Obj.t Player.t) : list (option Card) :=
  concat ((fun kp => Player.hand kp.2) <$> ps).

(** The 104 cards in the order the constructor of the deck makes them. *)
Definition fresh_deck : list Card :=
  (Deck.suits_loop suits ranks 2 1 []).2.

(** What [deal] does to one seat: same key, same player, [n] more cards
    at the end of the hand. *)
Definition dealt (n : nat) (kp kp' : string * Player.t) : Prop :=
  kp'.1 = kp.1 /\
  exists given : list Card,
    length given = n /\
    kp'.2 = Player.set_hand kp.2 (Player.hand kp.2 ++ (Some <$> given)).

(** Every card of the table: draw pile, discard pile, hands and melds. *)
Definition table_cards (g : MayI.t) (d : Deck.t) : list (option Card) :=
  (Some <$> Deck.deck d) ++ Deck.discarded d ++ hands (MayI.players g) ++
  (Some <$> concat (Meld.meld_cards <$> MayI.melds g)).

(** The cards of the table are the 104 cards of the deck, each once. *)
Definition conserved (g : MayI.t) : Prop :=
  exists d, MayI.deck g = Some d /\ table_cards g d ≡ₚ Some <$> fresh_deck.

(** The ids of the cards in the slots of an array. *)
Definition ids (l : list (option Card)) : list (option Z) :=
  (fun x : option Card => card_id <$> x) <$> l.

(** No empty slot and no id twice. *)
Definition clean (l : list (option Card)) : Prop :=
  Forall is_Some l /\ NoDup (ids l).

(** The invariant of a round: distinct keys and conserved cards. *)
Definition sound (g : MayI.t) : Prop :=
  NoDup (Obj.keys (MayI.players g)) /\ conserved g.

(** A table ready for the deal of a round: distinct keys, empty hands, no
    meld, and few enough players for the deck. *)
Definition ready (g : MayI.t) : Prop :=
  NoDup (Obj.keys (MayI.players g)) /\
  hands (MayI.players g) = [] /\
  MayI.melds g = [] /\
  (11 * length (MayI.players g) + 1 <= 104)%nat.

(** The card is in the hand of the player. *)
Definition holds (g : MayI.t) (player : string) (c : Card) : Prop :=
  exists p, Obj.get (MayI.players g) player = Some p /\
            Some c ∈ Player.hand p.

(** One call of a game method, with any arguments. *)
Inductive move : MayI.t -> MayI.t -> Prop :=
| move_draw g player qty : move g (MayI.draw g player qty).2
| move_discard g player card : move g (MayI.discard g player card).2
| move_buy g player : move g (MayI.buy g player).2
| move_meld g player groups : move g (MayI.meld g player groups).2
| move_swap g player card meldID :
    move g (MayI.swapWithMeld g player card meldID).2
| move_add g player card meldID :
    move g (MayI.addToMeld g player card meldID).2
| move_reconnect g player pid sid :
    move g (MayI.reconnect g player pid sid).2
| move_disconnect g player : move g (MayI.disconnect g player).2.

(** One call of a game method on cards taken from where the rules take
    them: a draw or a buy finds the cards it takes in the piles, a card
    discarded, melded, swapped or added is in the hand of the player,
    the groups of a meld have no card twice, a card is added to a meld by
    a player who holds another one, a swap goes to a meld that has cards,
    and a player reconnects under an id that is not in use. *)
Inductive fair_move : MayI.t -> MayI.t -> Prop :=
| fair_draw g player qty d :
    MayI.deck g = Some d -> (qty <= length (Deck.deck d))%nat ->
    fair_move g (MayI.draw g player qty).2
| fair_discard g player card :
    holds g player card ->
    fair_move g (MayI.discard g player card).2
| fair_buy g player d :
    MayI.deck g = Some d -> Deck.deck d <> [] -> Deck.discarded d <> [] ->
    fair_move g (MayI.buy g player).2
| fair_meld g player groups :
    NoDup (concat groups) ->
    (forall c, c ∈ concat groups -> holds g player c) ->
    fair_move g (MayI.meld g player groups).2
| fair_swap g player card meldID :
    holds g player card ->
    (forall k m, MayI.find_meld (MayI.melds g) meldID = Some (k, m) ->
                 Meld.meld_cards m <> []) ->
    fair_move g (MayI.swapWithMeld g player card meldID).2
| fair_add g player card meldID :
    holds g player card ->
    (forall p, Obj.get (MayI.players g) player = Some p ->
               (1 < length (Player.hand p))%nat) ->
    fair_move g (MayI.addToMeld g player card meldID).2
| fair_reconnect g player pid sid :
    pid ∉ Obj.keys (MayI.players g) ->
    fair_move g (MayI.reconnect g player pid sid).2
| fair_disconnect g player :
    fair_move g (MayI.disconnect g player).2.

(** The states a round can reach from its deal by the given moves. *)
Inductive reachable (step : MayI.t -> MayI.t -> Prop) : MayI.t -> Prop :=
| reachable_deal rnd g : ready g -> reachable step (MayI.deal rnd g)
| reachable_step g g' :
    reachable step g -> step g g' -> reachable step g'.

(** ** Tables to run the methods on *)

(** The card of the deck with the given id, rank and suit. *)
Definition card (i : Z) (r : Rank) (s : Suit) : Card :=
  mkCard i r s (values r) (order r).

(** A table in the middle of round 1, used to run the methods on: ann and
    bob have melded, carol has not and holds a single card. *)
Module Table.

Definition ann_hand : list (option Card) :=
  [Some (card 91 R7 Spades); Some (card 25 RK Clubs)].

Definition bob_hand : list (option Card) :=
  [Some (card 43 R9 Diamonds); Some (card 95 R9 Spades);
   Some (card 11 R6 Clubs)].

Definition carol_hand : list (option Card) := [Some (card 92 R7 Spades)].

Definition sevens : Meld.t :=
  Meld.mk (Some 0)
    [card 13 R7 Clubs; card 29 R2 Diamonds; card 65 R7 Hearts]
    Meld.SET (Some "bob"%string).

Definition threes : Meld.t :=
  Meld.mk (Some 1)
    [card 5 R3 Clubs; card 31 R3 Diamonds; card 57 R3 Hearts]
    Meld.SET (Some "ann"%string).

Definition pile : Deck.t :=
  Deck.mk [card 7 R4 Clubs; card 8 R4 Clubs; card 100 RJ Spades]
          [Some (card 75 RQ Hearts); Some (card 1 RA Clubs)].

Definition game : MayI.t :=
  MayI.mk
    [("ann"%string, Player.mk "ann" (Some "s1"%string) "Ann" 6 0 ann_hand);
     ("bob"%string, Player.mk "bob" (Some "s2"%string) "Bob" 5 0 bob_hand);
     ("carol"%string,
      Player.mk "carol" (Some "s3"%string) "Carol" 4 0 carol_hand)]
    3 (Some pile) 1 0 ["ann"%string; "bob"%string; "carol"%string]
    [sevens; threes].

End Table.

(** The start of round 1 for a single player who has not melded. *)
Module Opening.

Definition dave_cards : list Card :=
  [card 7 R4 Clubs; card 33 R4 Diamonds; card 59 R4 Hearts;
   card 17 R9 Clubs; card 43 R9 Diamonds; card 69 R9 Hearts;
   card 103 RK Spades; card 99 RJ Spades].

Definition dave : Player.t :=
  Player.mk "dave" (Some "s4"%string) "Dave" 6 0 (Some <$> dave_cards).

Definition two_threes : list (list Card) :=
  [[card 7 R4 Clubs; card 33 R4 Diamonds; card 59 R4 Hearts];
   [card 17 R9 Clubs; card 43 R9 Diamonds; card 69 R9 Hearts]].

Definition game : MayI.t :=
  MayI.mk [("dave"%string, dave)] 1
    (Some (Deck.mk [card 1 RA Clubs] [Some (card 2 RA Clubs)]))
    1 0 ["dave"%string] [].

End Opening.

(** Ten players at a table that can seat nine. *)
Module Crowd.

Definition game : MayI.t :=
  foldl (fun g id => MayI.addPlayer g id None "guest") MayI.new
    ["p0"; "p1"; "p2"; "p3"; "p4"; "p5"; "p6"; "p7"; "p8"; "p9"]%string.

Definition rnd (k : nat) : nat := (7 * k + 3)%nat.

End Crowd.

(** Three players seated at a new table. *)
Module Trio.

Definition game : MayI.t :=
  foldl (fun g id => MayI.addPlayer g id None "guest") MayI.new
    ["p0"; "p1"; "p2"]%string.

End Trio.

(** ** Tactics *)

(** Brings the single cards of both sides of a permutation to the front. *)
Ltac float :=
  rewrite ?fmap_app, ?fmap_cons, ?fmap_nil;
  rewrite <- ?app_assoc;
  repeat first [rewrite <- app_comm_cons | rewrite <- Permutation_middle];
  rewrite ?app_nil_r, ?app_nil_l.

(** Unfolds the field updates and the projections of the records. *)
Ltac fields :=
  cbn [MayI.players MayI.deck MayI.melds MayI.turn MayI.turnOrder MayI.round
       MayI.connectedPlayerCount MayI.set_players MayI.set_deck
       MayI.set_melds MayI.set_turn MayI.set_count MayI.set_turnOrder
       MayI.incrementTurn
       Deck.deck Deck.discarded Deck.discardCard Player.hand Player.set_hand
       Player.addCard Player.set_buys Player.setSocketId Player.setPlayerId
       Player.id Meld.meld_cards Meld.set_cards Meld.set_playerID fst snd]
    in *.

(** ** The lobby *)

(** The games of a room before the first deal: a new game and the players
    that joined it. *)
Inductive lobby : MayI.t -> Prop :=
| lobby_new : lobby MayI.new
| lobby_join g id socketId name :
    lobby g -> lobby (MayI.addPlayer g id socketId name).

(** ** Every call of a game *)

(** One call of a method that writes to the game, with any arguments. *)
Inductive call : MayI.t -> MayI.t -> Prop :=
| call_move g g' : move g g' -> call g g'
| call_addPlayer g id socketId name :
    call g (MayI.addPlayer g id socketId name)
| call_deal rnd g : call g (MayI.deal rnd g)
| call_endRound rnd g : call g (MayI.endRound rnd g).2
| call_incrementTurn g : call g (MayI.incrementTurn g).

(** The games a room can hold: a new game and whatever calls were made
    on it, returned or thrown. *)
Inductive history : MayI.t -> Prop :=
| history_new : history MayI.new
| history_call g g' : history g -> call g g' -> history g'.


(** ** Scores and meld ids *)

(** The points a hand costs at the end of a round. *)
Definition hand_value (h : list (option Card)) : Z :=
  foldr (fun x acc => match x with Some c => card_value c + acc | None => acc end)
        0 h.

(** Every meld sits in the slot its id names. *)
Definition ids_in_place (ms : list Meld.t) : Prop :=
  forall i m, ms !! i = Some m -> Meld.meld_id m = Some (Z.of_nat i).

(** Two entries of the player table that differ in the hand at most. *)
Definition same_seat (kp kp' : string * Player.t) : Prop :=
  kp'.1 = kp.1 /\ exists h, kp'.2 = Player.set_hand kp.2 h.

(** ** The handlers of the server *)

(** The handlers of the socket server, as far as the game of the room
    goes: each is the sequence of calls the handler makes on the game
    object of a room that exists, with the answer given to the callback
    where there is one. The messages sent and the timers are left out;
    a read that a message needs and that can throw is kept. *)
Module Server.


(** [Object.keys(game.players).find(player =>
      game.players[player].socketId === null)] *)
Definition disconnectedPlayer (g : MayI.t) : option string :=
  List.find
    (fun player =>
       match Obj.get (MayI.players g) player with
       | Some p => bool_decide (Player.socketId p = None)
       | None => false
       end)
    (Obj.keys (MayI.players g)).

(** [joinRoom]; [numberOfPlayers] is the number the room was created
    with. The result is the [success] field given to the callback. A
    disconnected player whose id is the empty string is falsy and counts
    as none. *)
Definition joinRoom (rnd : nat -> nat) (numberOfPlayers : Z) (g : MayI.t)
    (user socketId userName : string) : Outcome bool * MayI.t :=
  if Z.of_nat (length (Obj.keys (MayI.players g))) >=? numberOfPlayers then
    match disconnectedPlayer g with
    | None => (Return false, g)
    | Some player =>
        if decide (player = EmptyString) then (Return false, g)
        else
          match MayI.reconnect g player user (Some socketId) with
          | (Return _, g') => (Return true, g')
          | (Throw, g') => (Throw, g')
          end
    end
  else
    let g1 := MayI.addPlayer g user (Some socketId) userName in
    if numberOfPlayers =? Z.of_nat (length (Obj.keys (MayI.players g1)))
    then (Return true, MayI.deal rnd g1)
    else (Return true, g1).

(** [leaveRoom]: [None] when the room is deleted with its last player. *)
Definition leaveRoom (g : MayI.t) (user : string) : option MayI.t :=
  let g1 := MayI.set_players g (Obj.del (MayI.players g) user) in
  if (length (Obj.keys (MayI.players g1)) =? 0)%nat then None else Some g1.

(** [snackBar(room, user, action)] reads [players[user].name]; the user
    comes from [getTurn(room)], that is [turnOrder[turn]], and an
    [undefined] there is looked up as the key "undefined". [false] is the
    [TypeError] of reading [.name] of a missing player. *)
Definition snackBar_turn (g : MayI.t) : bool :=
  let user := default "undefined"%string (MayI.turnOrder g !! MayI.turn g) in
  bool_decide (is_Some (Obj.get (MayI.players g) user)).

(** [discardCard]: the discard, then [getDeck] (which reads the deck),
    then the end of the round when the hand of the user is empty. *)
Definition discardCard (rnd : nat -> nat) (g : MayI.t) (user : string)
    (card : Card) : Outcome unit * MayI.t :=
  match MayI.discard g user card with
  | (Throw, g1) => (Throw, g1)
  | (Return _, g1) =>
      match MayI.deck g1, Obj.get (MayI.players g1) user with
      | Some _, Some p =>
          if (length (Player.hand p) =? 0)%nat then
            match MayI.endRound rnd g1 with
            | (Throw, g2) => (Throw, g2)
            | (Return _, g2) =>
                match Obj.get (MayI.players g2) user with
                | Some _ => (Return tt, g2)
                | None => (Throw, g2)
                end
            end
          else if snackBar_turn g1 then (Return tt, g1) else (Throw, g1)
      | _, _ => (Throw, g1)
      end
  end.

(** [handleCardBuyProcess] with the list [gameData[room].buyers]. A
    buyer whose id is the empty string is falsy and does not buy. *)
Definition handleCardBuyProcess (g : MayI.t) (buyers : list string)
  : Outcome unit * MayI.t :=
  match buyers with
  | [] => (Return tt, g)
  | _ :: _ =>
      match MayI.determineBuy g buyers with
      | Throw => (Throw, g)
      | Return None => (Return tt, g)
      | Return (Some buyer) =>
          if decide (buyer = EmptyString) then (Return tt, g)
          else
            match MayI.buy g buyer with
            | (Throw, g') => (Throw, g')
            | (Return _, g') =>
                match Obj.get (MayI.players g') buyer with
                | Some _ => (Return tt, g')
                | None => (Throw, g')
                end
            end
      end
  end.

(** [cards.findIndex(f)], [None] for -1 *)
Fixpoint findIndex {A} (f : A -> bool) (l : list A) : option nat :=
  match l with
  | [] => None
  | x :: rest => if f x then Some O else S <$> findIndex f rest
  end.

(** [canSwapWithMeld] with the id already parsed: the answer given to the
    callback. Reading [.playerID] when no meld has the id is a
    [TypeError]. *)
Definition canSwapWithMeld (g : MayI.t) (user : string) (meldDropID : Z)
    (card : Card) : Outcome bool :=
  match MayI.find_meld (MayI.melds g) meldDropID with
  | None => Throw
  | Some (_, currentMeld) =>
      if negb (bool_decide (Meld.meld_playerID currentMeld = Some user)) then
        match findIndex is_wild (Meld.meld_cards currentMeld) with
        | Some idx =>
            Return (MayI.isValidMeld
                      (<[idx := card]> (Meld.meld_cards currentMeld)))
        | None => Return false
        end
      else Return false
  end.

End Server.



(** Three people in front of a room for three: user id, socket id and
    name of each. *)
Module Guests.


End Guests.

(** Every player record carries the id it is stored under. *)
Definition ids_match (ps : Obj.t Player.t) : Prop :=
  Forall (fun kp : string * Player.t => Player.id kp.2 = kp.1) ps.

(** * Properties *)

Section Sorting.

Lemma insert_by_order_perm c l : insert_by_order c l ≡ₚ c :: l.
Proof.
  induction l as [|d t IH]; simpl; [done|].
  destruct (card_order c <=? card_order d); [done|].
  rewrite IH. apply Permutation_swap.
Qed.

Lemma sort_by_order_perm l : sort_by_order l ≡ₚ l.
Proof.
  induction l as [|c t IH]; simpl; [done|].
  rewrite insert_by_order_perm. by rewrite IH.
Qed.

Lemma sort_by_order_length l : length (sort_by_order l) = length l.
Proof. by rewrite sort_by_order_perm. Qed.

Lemma insert_by_order_sorted c l :
  StronglySorted le_order l -> StronglySorted le_order (insert_by_order c l).
Proof.
  induction 1 as [|d t Ht IH Hd]; simpl.
  - repeat constructor.
  - destruct (card_order c <=? card_order d) eqn:E.
    + apply Z.leb_le in E. constructor; [by constructor|].
      constructor; [done|].
      eapply Forall_impl; [exact Hd|]. unfold le_order. intros; lia.
    + apply Z.leb_gt in E. constructor; [done|].
      rewrite insert_by_order_perm. constructor; [|done].
      unfold le_order. lia.
Qed.

Lemma sort_by_order_sorted l : StronglySorted le_order (sort_by_order l).
Proof.
  induction l; simpl; [constructor|by apply insert_by_order_sorted].
Qed.

Lemma insert_by_order_head c l :
  Forall (le_order c) l -> insert_by_order c l = c :: l.
Proof.
  destruct 1 as [|d t Hd _]; simpl; [done|].
  unfold le_order in Hd. by apply Z.leb_le in Hd as ->.
Qed.

Lemma filter_insert_by_order (P : Card -> bool) c l :
  StronglySorted le_order l ->
  List.filter P (insert_by_order c l) =
  if P c then insert_by_order c (List.filter P l) else List.filter P l.
Proof.
  induction 1 as [|d t Ht IH Hd]; simpl.
  - by destruct (P c).
  - destruct (card_order c <=? card_order d) eqn:E; simpl.
    + destruct (P c) eqn:Pc, (P d) eqn:Pd; simpl; rewrite ?E; try done.
      apply Z.leb_le in E. symmetry. apply insert_by_order_head.
      apply Forall_forall. intros x Hx.
      apply list_elem_of_In, filter_In in Hx as [Hx _].
      rewrite Forall_forall in Hd. apply list_elem_of_In, Hd in Hx.
      unfold le_order in *. lia.
    + rewrite IH. destruct (P c), (P d); simpl; rewrite ?E; done.
Qed.

Lemma filter_sort_by_order (P : Card -> bool) l :
  List.filter P (sort_by_order l) = sort_by_order (List.filter P l).
Proof.
  induction l as [|c t IH]; simpl; [done|].
  rewrite filter_insert_by_order by apply sort_by_order_sorted.
  rewrite IH. by destruct (P c).
Qed.

End Sorting.

Section RunRule.

Lemma extract_wild_spec n cards w :
  (n <= length cards)%nat ->
  Meld.extract_wild n cards w =
  (List.filter not_wild (take n cards) ++ drop n cards,
   w ++ rev (List.filter is_wild (take n cards))).
Proof.
  revert cards w. induction n as [|i IH]; intros cards w Hn; simpl.
  - by rewrite drop_0, app_nil_r.
  - destruct (cards !! i) as [c|] eqn:Hc.
    2:{ apply lookup_ge_None in Hc. lia. }
    rewrite (take_S_r _ _ _ Hc), !List.filter_app. simpl.
    assert (Hw : is_wild c = (card_order c =? 2)) by done.
    assert (Hnw : not_wild c = negb (card_order c =? 2)) by done.
    rewrite Hw, Hnw.
    destruct (card_order c =? 2) eqn:E; simpl.
    + rewrite IH by (rewrite length_delete by eauto; lia).
      rewrite delete_take_drop, take_app_le, take_take, Nat.min_id
        by (rewrite length_take; lia).
      rewrite drop_app_length' by (rewrite length_take; lia).
      rewrite !app_nil_r, rev_app_distr. simpl. by rewrite <- app_assoc.
    + rewrite IH by lia. rewrite (drop_S _ _ _ Hc).
      by rewrite app_nil_r, <- app_assoc.
Qed.
Lemma pop_None {A} (l : list A) : pop l = None -> l = [].
Proof.
  destruct l as [|x t]; [done|]. simpl.
  destruct (pop t) as [[??]|]; discriminate.
Qed.

Lemma pop_Some {A} (l : list A) x rest :
  pop l = Some (x, rest) -> l = rest ++ [x].
Proof.
  revert x rest. induction l as [|y t IH]; intros x rest; simpl; [done|].
  destruct (pop t) as [[z t']|] eqn:E; intros [= <- <-].
  - simpl. f_equal. by apply IH.
  - by rewrite (pop_None _ E).
Qed.

Lemma Fill_le v o os n : Fill v (o :: os) n -> v <= o.
Proof.
  intros H. remember (o :: os) as l eqn:El. revert o os El.
  induction H as [|v os n _ _|v o' os n _ IH]; intros o os' El.
  - discriminate.
  - injection El as -> _. lia.
  - injection El as -> ->. specialize (IH _ _ eq_refl). lia.
Qed.

Lemma drop_splice_in {A} i (x : A) l :
  (i <= length l)%nat -> drop (S i) (splice_in i x l) = drop i l.
Proof.
  intros Hi. unfold splice_in.
  rewrite drop_app_ge by (rewrite length_take; lia).
  rewrite length_take, Nat.min_l by done.
  by replace (S i - i)%nat with 1%nat by lia.
Qed.

(** The [while] loop of [isRun] ends normally exactly when the wild cards
    on the stack suffice to fill the gaps of the cards from slot [i] on. *)
Lemma run_loop_true cards wildCards i val :
  (Meld.run_loop cards wildCards i val).1.1 = true <->
  exists n, (n <= length wildCards)%nat /\
            Fill val (card_order <$> drop i cards) n.
Proof.
  funelim (Meld.run_loop cards wildCards i val);
    repeat match goal with
           | H : @eq (sigma _) _ _ |- _ => clear H
           | H : cards !! i = Some _ |- _ =>
               pose proof (drop_S _ _ _ H) as Hd; apply lookup_lt_Some in H
           | H : cards !! i = None |- _ =>
               rewrite (drop_ge cards i) by (by apply lookup_ge_None); clear H
           | H : (_ =? _) = true |- _ => apply Z.eqb_eq in H
           | H : (_ =? _) = false |- _ => apply Z.eqb_neq in H
           | H : pop _ = None |- _ => apply pop_None in H; subst
           | H : pop _ = Some _ |- _ => apply pop_Some in H; subst
           | IH : _ <-> _ |- _ => rewrite IH; clear IH
           end;
    rewrite ?drop_splice_in by lia;
    try match goal with Hd : drop _ _ = _ |- _ => rewrite Hd; clear Hd end;
    simpl.
  - (* slot i is past the end *)
    split; [|done]. intros _. exists 0%nat. split; [lia|constructor].
  - (* the card has the expected order *)
    split; intros (n & Hn & HF).
    + exists n. split; [done|]. subst val. by constructor.
    + inversion HF; subst.
      * by exists n.
      * match goal with H : Fill _ (_ :: _) _ |- _ => apply Fill_le in H end.
        lia.
  - (* a gap filled by the wild card on top of the stack *)
    rewrite length_app. simpl.
    split; intros (n & Hn & HF).
    + exists (S n). split; [lia|]. by constructor.
    + inversion HF; subst; [done|]. eexists. split; [|eassumption]. lia.
  - (* a gap and no wild card left *)
    split; [done|]. intros (n & Hn & HF).
    assert (n = 0%nat) as -> by lia.
    inversion HF; subst. done.
Qed.

Lemma run_loop_perm cards wildCards i val cards' wildCards' :
  Meld.run_loop cards wildCards i val = (true, cards', wildCards') ->
  cards' ++ wildCards' ≡ₚ cards ++ wildCards.
Proof.
  funelim (Meld.run_loop cards wildCards i val); intros Heq;
    repeat match goal with
           | H : @eq (sigma _) _ _ |- _ => clear H
           | H : pop _ = Some _ |- _ => apply pop_Some in H; subst
           end.
  - by injection Heq as <- <-.
  - match goal with IH : context [_ ≡ₚ _] |- _ => by apply IH end.
  - match goal with IH : context [_ ≡ₚ _] |- _ => rewrite IH; [|done] end.
    unfold splice_in. rewrite <- (take_drop i cards) at 3.
    rewrite <- !app_assoc. apply Permutation_app_head.
    rewrite (Permutation_app_comm rest [w]). simpl.
    apply Permutation_middle.
  - discriminate.
Qed.

Lemma same_suit_loop_spec l :
  Meld.same_suit_loop l = true <->
  (forall a b, a ∈ l -> b ∈ l -> card_suit a = card_suit b).
Proof.
  induction l as [|a [|b t] IH].
  - split; [|done]. intros _ a b Ha. by apply elem_of_nil in Ha.
  - split; [|done]. intros _ a' b' Ha Hb.
    apply list_elem_of_singleton in Ha, Hb. by subst.
  - change (Meld.same_suit_loop (a :: b :: t))
      with (if decide (card_suit a = card_suit b)
            then Meld.same_suit_loop (b :: t) else false).
    destruct (decide (card_suit a = card_suit b)) as [E|E].
    + rewrite IH. split.
      * intros H x y Hx Hy.
        assert (forall z, z ∈ a :: b :: t -> card_suit z = card_suit b) as Hz.
        { intros z Hz. apply elem_of_cons in Hz as [->|Hz]; [done|].
          apply H; [done|]. apply elem_of_cons. by left. }
        by rewrite (Hz x), (Hz y).
      * intros H x y Hx Hy. apply H; apply elem_of_cons; by right.
    + split; [done|]. intros H. exfalso. apply E.
      apply H; [by left|right; by left].
Qed.

Lemma isRun_arr_unfold cards :
  let rest := sort_by_order (List.filter not_wild cards) in
  let wild := rev (sort_by_order (List.filter is_wild cards)) in
  Meld.isRun_arr cards =
  if negb (Meld.same_suit_loop rest) then (false, rest)
  else
    match Meld.run_loop rest wild 1
            (match rest with c :: _ => card_order c + 1 | [] => 0 end) with
    | (false, cards3, _) => (false, cards3)
    | (true, cards3, wildCards3) => (true, cards3 ++ wildCards3)
    end.
Proof.
  unfold Meld.isRun_arr.
  rewrite extract_wild_spec by done.
  rewrite firstn_all, drop_all, app_nil_r. simpl.
  by rewrite !filter_sort_by_order.
Qed.

Lemma isRun_iff cards : Meld.isRun cards = true <-> run_rule cards.
Proof.
  unfold Meld.isRun, run_rule. rewrite isRun_arr_unfold.
  set (rest := sort_by_order (List.filter not_wild cards)).
  set (wild := rev (sort_by_order (List.filter is_wild cards))).
  assert (length wild = length (List.filter is_wild cards)) as <-.
  { unfold wild. by rewrite length_rev, sort_by_order_length. }
  rewrite <- same_suit_loop_spec.
  destruct (Meld.same_suit_loop rest); simpl.
  2:{ split; [done|]. by intros [? _]. }
  pose proof (run_loop_true rest wild 1
    (match rest with c :: _ => card_order c + 1 | [] => 0 end)) as H.
  destruct (Meld.run_loop rest wild 1 _) as [[[] cards3] wild3]; simpl in *.
  - split; [intros _|done]. split; [done|].
    destruct H as [(n & Hn & HF) _]; [done|].
    destruct rest as [|c t]; simpl; [done|]. exists n. split; [done|].
    done.
  - split; [done|]. intros [_ HR]. apply H.
    destruct rest as [|c t]; simpl in *.
    + exists 0%nat. split; [lia|constructor].
    + done.
Qed.

End RunRule.

Section RunExamples.

Lemma Fill_seqZ v m : Fill v (seqZ v m) 0.
Proof.
  destruct (decide (m <= 0)) as [Hm|Hm].
  { rewrite seqZ_nil by done. constructor. }
  rewrite <- (Z2Nat.id m) by lia. generalize (Z.to_nat m) as d. clear.
  intros d. revert v. induction d as [|d IH]; intros v.
  - rewrite seqZ_nil by done. constructor.
  - rewrite seqZ_cons by lia. constructor.
    replace (Z.pred (Z.of_nat (S d))) with (Z.of_nat d) by lia.
    replace (Z.succ v) with (v + 1) by lia. apply IH.
Qed.

Lemma Fill_zero_lookup v os n :
  Fill v os n -> n = 0%nat ->
  forall i o, os !! i = Some o -> o = v + Z.of_nat i.
Proof.
  induction 1 as [|v os n _ IH|]; intros Hn i x Hi.
  - by rewrite lookup_nil in Hi.
  - destruct i as [|i]; simpl in Hi.
    + injection Hi as <-. lia.
    + rewrite (IH Hn i x Hi). lia.
  - discriminate.
Qed.

Lemma filter_all {A} (P : A -> bool) l :
  (forall x, x ∈ l -> P x = true) -> List.filter P l = l.
Proof.
  induction l as [|x t IH]; intros H; simpl; [done|].
  rewrite H by (by left). f_equal. apply IH. intros y Hy. apply H. by right.
Qed.

Lemma filter_none {A} (P : A -> bool) l :
  (forall x, x ∈ l -> P x = false) -> List.filter P l = [].
Proof.
  induction l as [|x t IH]; intros H; simpl; [done|].
  rewrite H by (by left). apply IH. intros y Hy. apply H. by right.
Qed.

(** Cards of consecutive orders and one suit are a run whatever the number
    of wild cards that come with them. *)
Lemma isRun_gapless cards a m :
  (forall x y, x ∈ cards -> y ∈ cards -> is_wild x = false ->
               is_wild y = false -> card_suit x = card_suit y) ->
  card_order <$> sort_by_order (List.filter not_wild cards) = seqZ a m ->
  Meld.isRun cards = true.
Proof.
  intros Hs Ho. apply isRun_iff. split.
  - intros x y Hx Hy. rewrite sort_by_order_perm in Hx, Hy.
    apply list_elem_of_In, filter_In in Hx as [Hx Wx].
    apply list_elem_of_In, filter_In in Hy as [Hy Wy].
    apply negb_true_iff in Wx, Wy.
    apply Hs; by rewrite ?list_elem_of_In.
  - rewrite Ho. destruct (decide (m <= 0)) as [Hm|Hm].
    + by rewrite seqZ_nil.
    + rewrite seqZ_cons by lia. exists 0%nat. split; [lia|].
      replace (Z.succ a) with (a + 1) by lia. apply Fill_seqZ.
Qed.

(** With no wild card, a group that misses one value inside is no run. *)
Lemma isRun_missing_one cards a m1 m2 :
  (forall x, x ∈ cards -> is_wild x = false) ->
  0 < m1 -> 0 < m2 ->
  card_order <$> sort_by_order cards = seqZ a m1 ++ seqZ (a + m1 + 1) m2 ->
  Meld.isRun cards = false.
Proof.
  intros Hw H1 H2 Ho. apply not_true_is_false. rewrite isRun_iff.
  intros [_ HR].
  rewrite filter_all in HR
    by (intros x Hx; apply negb_true_iff; by apply Hw).
  rewrite (filter_none is_wild) in HR by done. simpl in HR.
  rewrite Ho in HR. rewrite seqZ_cons in HR by lia. simpl in HR.
  destruct HR as (n & Hn & HF).
  pose proof (Fill_zero_lookup _ _ _ HF ltac:(lia) (Z.to_nat (m1 - 1))
                (a + m1 + 1)) as Hl.
  rewrite lookup_app_r in Hl by (rewrite length_seqZ; lia).
  rewrite length_seqZ in Hl.
  replace (Z.to_nat (m1 - 1) - Z.to_nat (Z.pred m1))%nat with 0%nat in Hl
    by lia.
  rewrite seqZ_cons in Hl by lia. simpl in Hl.
  specialize (Hl eq_refl). lia.
Qed.

Lemma missing_nonneg v os : ascending v os -> 0 <= missing v os.
Proof.
  revert v. induction os as [|o t IH]; intros v; simpl; [lia|].
  intros [Hv Ht]. specialize (IH _ Ht). lia.
Qed.

Lemma Fill_skip d v o os n :
  o = v + Z.of_nat d -> Fill (o + 1) os n -> Fill v (o :: os) (d + n).
Proof.
  revert v. induction d as [|d IH]; intros v Ho HF.
  - replace o with v by lia. constructor.
    by replace (v + 1) with (o + 1) by lia.
  - simpl. constructor. apply IH; [lia|done].
Qed.

(** [Fill] counts the missing values: the orders go up and the wild cards
    are as many as the values skipped. *)
Lemma Fill_count v os n :
  Fill v os n <-> ascending v os /\ Z.of_nat n = missing v os.
Proof.
  split.
  - induction 1 as [v|v os n _ [IH1 IH2]|v o os n _ [IH1 IH2]]; simpl.
    + done.
    + split; [split; [lia|done]|lia].
    + simpl in IH1, IH2. destruct IH1 as [Hv Ht].
      split; [split; [lia|done]|lia].
  - revert v n. induction os as [|o t IH]; intros v n; simpl.
    + intros [_ Hn]. assert (n = 0%nat) as -> by lia. constructor.
    + intros [[Hv Ht] Hn]. pose proof (missing_nonneg _ _ Ht) as Hm.
      replace n with (Z.to_nat (o - v) + Z.to_nat (missing (o + 1) t))%nat
        by lia.
      apply Fill_skip; [lia|]. apply IH. split; [done|lia].
Qed.

Lemma Fill_within v os k :
  (exists n, (n <= k)%nat /\ Fill v os n) <->
  ascending v os /\ missing v os <= Z.of_nat k.
Proof.
  split.
  - intros (n & Hn & [Ha Hm]%Fill_count). split; [done|lia].
  - intros [Ha Hm]. pose proof (missing_nonneg _ _ Ha).
    exists (Z.to_nat (missing v os)). split; [lia|].
    apply Fill_count. split; [done|lia].
Qed.

Lemma run_rule_count cards :
  run_rule cards <->
  let rest := sort_by_order (List.filter not_wild cards) in
  (forall a b, a ∈ rest -> b ∈ rest -> card_suit a = card_suit b) /\
  match card_order <$> rest with
  | [] => True
  | o :: os =>
      ascending (o + 1) os /\
      missing (o + 1) os <= Z.of_nat (length (List.filter is_wild cards))
  end.
Proof.
  unfold run_rule. simpl.
  destruct (card_order <$> sort_by_order (List.filter not_wild cards));
    [done|].
  by rewrite Fill_within.
Qed.

End RunExamples.

(** C4. [isRun] returns true exactly when the cards other than the wild
    ones share one suit and, sorted by order, leave only gaps that the wild
    cards of the group can fill, wild cards left over being accepted; in
    particular cards of one suit with consecutive orders are a run with any
    number of wild cards, and a group without wild cards that misses one
    value inside is not. Filling the gaps is a matter of counting: the
    sorted orders go up without repeating and skip no more values than the
    group has wild cards. *)
Theorem isRun_run_rule :
  (forall cards, Meld.isRun cards = true <-> run_rule cards) /\
  (forall cards a m,
      (forall x y, x ∈ cards -> y ∈ cards -> is_wild x = false ->
                   is_wild y = false -> card_suit x = card_suit y) ->
      card_order <$> sort_by_order (List.filter not_wild cards) = seqZ a m ->
      Meld.isRun cards = true) /\
  (forall cards a m1 m2,
      (forall x, x ∈ cards -> is_wild x = false) ->
      0 < m1 -> 0 < m2 ->
      card_order <$> sort_by_order cards = seqZ a m1 ++ seqZ (a + m1 + 1) m2 ->
      Meld.isRun cards = false) /\
  (forall cards,
      run_rule cards <->
      let rest := sort_by_order (List.filter not_wild cards) in
      (forall a b, a ∈ rest -> b ∈ rest -> card_suit a = card_suit b) /\
      match card_order <$> rest with
      | [] => True
      | o :: os =>
          ascending (o + 1) os /\
          missing (o + 1) os <= Z.of_nat (length (List.filter is_wild cards))
      end).
Proof.
  split; [exact isRun_iff|].
  split; [exact isRun_gapless|].
  split; [exact isRun_missing_one|exact run_rule_count].
Qed.

Lemma isRun_run_rule_witness :
  Meld.isRun [card 9 R5 Clubs; card 55 R2 Hearts; card 5 R3 Clubs] = true /\
  Meld.isRun [card 9 R5 Clubs; card 5 R3 Clubs] = false.
Proof.
  split.
  - apply (proj1 isRun_run_rule). split.
    + intros a b Ha Hb. vm_compute in Ha, Hb.
      apply elem_of_cons in Ha as [->|Ha], Hb as [->|Hb]; try done;
        repeat match goal with
               | H : _ ∈ [_] |- _ => apply list_elem_of_singleton in H; subst
               end; done.
    + exists 1%nat. split; [vm_compute; lia|]. vm_compute.
      apply Fill_wild, Fill_card, Fill_nil.
  - apply (proj1 (proj2 (proj2 isRun_run_rule)) _ 3 1 1); [|lia|lia|done].
    intros x Hx.
    apply elem_of_cons in Hx as [->|Hx]; [done|].
    apply list_elem_of_singleton in Hx. by subst.
Defined.

Section Frame.

Lemma filter_split_perm {A} (P : A -> bool) l :
  List.filter (fun x => negb (P x)) l ++ List.filter P l ≡ₚ l.
Proof.
  induction l as [|x t IH]; simpl; [done|].
  destruct (P x); simpl.
  - rewrite <- Permutation_middle. by rewrite IH.
  - by rewrite IH.
Qed.

Lemma isRun_arr_perm cards :
  Meld.isRun cards = true -> (Meld.isRun_arr cards).2 ≡ₚ cards.
Proof.
  unfold Meld.isRun. rewrite isRun_arr_unfold.
  destruct (Meld.same_suit_loop _); simpl; [|done].
  destruct (Meld.run_loop _ _ _ _) as [[[] cards3] wild3] eqn:E; [|done].
  intros _. simpl. apply run_loop_perm in E. rewrite E.
  rewrite <- (Permutation_rev (sort_by_order (List.filter is_wild cards))).
  rewrite !sort_by_order_perm. apply (filter_split_perm is_wild).
Qed.

Lemma new_cards id cards p m :
  Meld.new id cards p = Some m -> Meld.meld_cards m = cards.
Proof.
  unfold Meld.new. destruct (negb _ && negb _); [done|]. by intros [= <-].
Qed.

End Frame.

(** C5, counterexample. [isRun] leaves a two-card array in another
    order than it was given. *)
Lemma isRun_arr_reorders :
  (Meld.isRun_arr [card 9 R5 Clubs; card 5 R3 Clubs]).2 <>
  [card 9 R5 Clubs; card 5 R3 Clubs].
Proof. vm_compute. discriminate. Qed.

(** C5, amended. [isSet] leaves the array it is given as it was. [isRun]
    rearranges its array, and keeps all its cards whenever it returns
    true. The [Meld] constructor hands both checks copies, so the group it
    validates is stored exactly as it was passed. *)
Theorem validation_frame :
  (forall cards, (Meld.isSet_arr cards).2 = cards) /\
  (forall cards,
      Meld.isRun cards = true -> (Meld.isRun_arr cards).2 ≡ₚ cards) /\
  (forall id cards p m,
      Meld.new id cards p = Some m -> Meld.meld_cards m = cards).
Proof.
  split; [done|]. split; [exact isRun_arr_perm|exact new_cards].
Qed.

Lemma validation_frame_witness :
  (Meld.isRun_arr [card 9 R5 Clubs; card 55 R2 Hearts; card 5 R3 Clubs]).2
    ≡ₚ [card 9 R5 Clubs; card 55 R2 Hearts; card 5 R3 Clubs] /\
  Meld.meld_cards
    (Meld.mk (Some 0) [card 9 R5 Clubs; card 55 R2 Hearts; card 5 R3 Clubs]
             Meld.RUN None)
  = [card 9 R5 Clubs; card 55 R2 Hearts; card 5 R3 Clubs].
Proof.
  split.
  - apply (proj1 (proj2 validation_frame)). reflexivity.
  - apply (proj2 (proj2 validation_frame) (Some 0) _ None). reflexivity.
Defined.

Section MeldClass.

Lemma isRun_single c : Meld.isRun [c] = true.
Proof.
  apply isRun_iff. unfold run_rule. simpl.
  destruct (not_wild c); simpl.
  - split.
    + intros a b Ha Hb. apply list_elem_of_singleton in Ha, Hb. by subst.
    + exists 0%nat. split; [lia|constructor].
  - split; [|done]. intros a b Ha. by apply elem_of_nil in Ha.
Qed.

Lemma isSet_single c : Meld.isSet [c] = true.
Proof.
  unfold Meld.isSet. simpl. by destruct (card_order c =? 2).
Qed.

Lemma swap_testMeld_spec mc cards acc :
  Meld.swap_testMeld (Some mc) cards acc =
  Some (acc ++ List.filter (fun x => negb (card_id x =? card_id mc)) cards).
Proof.
  revert acc. induction cards as [|x t IH]; intros acc; simpl.
  - by rewrite app_nil_r.
  - destruct (card_id x =? card_id mc); simpl; rewrite IH; [done|].
    by rewrite <- app_assoc.
Qed.

Lemma swap_replace_Some mc pc cards :
  is_Some (Meld.swap_replace (Some mc) pc cards).
Proof.
  induction cards as [|x t [r Hr]]; simpl; [done|].
  destruct (card_id x =? card_id mc); [done|]. by rewrite Hr.
Qed.

Lemma new_is_Some id cards p :
  is_Some (Meld.new id cards p) <-> valid_group cards = true.
Proof.
  unfold Meld.new, valid_group.
  destruct (Meld.isRun cards), (Meld.isSet cards); simpl;
    split; try done; by intros [].
Qed.

Lemma swap_accepts m mc pc :
  (Meld.swap m (Some mc) pc).1 = Return true <->
  valid_group
    (pc :: List.filter (fun x => negb (card_id x =? card_id mc))
                       (Meld.meld_cards m)) = true.
Proof.
  unfold Meld.swap. rewrite swap_testMeld_spec. simpl.
  rewrite <- (new_is_Some None _ None).
  destruct (Meld.new None _ None) as [n|].
  - destruct (swap_replace_Some mc pc (Meld.meld_cards m)) as [r ->].
    simpl. split; [by eexists|done].
  - simpl. split; [done|]. by intros [].
Qed.

Lemma swap_rejects m mc pc :
  (Meld.swap m mc pc).1 <> Return true -> (Meld.swap m mc pc).2 = m.
Proof.
  unfold Meld.swap.
  destruct (Meld.swap_testMeld _ _ _); [|done].
  destruct (Meld.new _ _ _); [|done].
  destruct (Meld.swap_replace _ _ _); done.
Qed.


End MeldClass.

(** C6. The constructor has no test on the number of cards: any single
    card is built into a meld of type EITHER, and a player who has melded
    lays down a group of one card through [meld]. *)
Theorem new_single_card :
  (forall id c p,
      Meld.new id [c] p = Some (Meld.mk id [c] Meld.EITHER p)) /\
  (MayI.meld Table.game "ann" [[card 25 RK Clubs]]).1 = true.
Proof.
  split.
  - intros id c p. unfold Meld.new. by rewrite isRun_single, isSet_single.
  - reflexivity.
Qed.




(** C3. Two rejections that are not clean. [addToMeld] puts the card on
    the meld before it looks at the size of the hand: for a player who
    holds one card it returns false with the card already on the meld.
    [swapWithMeld] on a meld that has cards but no wild card leaves through
    a [TypeError] instead of returning false. *)
Theorem rejections_not_clean :
  (forall g player card meldID k meld p,
      MayI.find_meld (MayI.melds g) meldID = Some (k, meld) ->
      Obj.get (MayI.players g) player = Some p ->
      length (Player.hand p) = 1%nat ->
      valid_group (Meld.meld_cards meld ++ [card]) = true ->
      MayI.addToMeld g player card meldID =
      (Return false,
       MayI.set_melds g
         (<[k := Meld.set_cards meld
                   (sort_by_order (Meld.meld_cards meld ++ [card]))]>
            (MayI.melds g)))) /\
  (forall g player playerCard meldID k meld,
      MayI.hasMeld g player = true ->
      MayI.find_meld (MayI.melds g) meldID = Some (k, meld) ->
      Meld.meld_cards meld <> [] ->
      List.find is_wild (Meld.meld_cards meld) = None ->
      (MayI.swapWithMeld g player playerCard meldID).1 = Throw).
Proof.
  split.
  - intros g player card meldID k meld p Hf Hp Hl Hv.
    unfold MayI.addToMeld. rewrite Hf. unfold Meld.addCard.
    apply (new_is_Some None _ None) in Hv as [n ->]. simpl.
    rewrite Hp, Hl. done.
  - intros g player pc meldID k meld Hm Hf Hne Hw.
    unfold MayI.swapWithMeld. rewrite Hm, Hf, Hw. simpl.
    unfold Meld.swap. destruct (Meld.meld_cards meld); done.
Qed.

Lemma rejections_not_clean_witness :
  (MayI.addToMeld Table.game "carol" (card 92 R7 Spades) 0 =
   (Return false,
    MayI.set_melds Table.game
      [Meld.mk (Some 0)
         [card 29 R2 Diamonds; card 13 R7 Clubs; card 65 R7 Hearts;
          card 92 R7 Spades]
         Meld.SET (Some "bob"%string);
       Table.threes])) /\
  (MayI.swapWithMeld Table.game "ann" (card 83 R3 Spades) 1).1 = Throw.
Proof.
  split.
  - exact (proj1 rejections_not_clean Table.game "carol"%string
             (card 92 R7 Spades) 0 0%nat Table.sevens
             (Player.mk "carol" (Some "s3"%string) "Carol" 4 0
                        Table.carol_hand)
             eq_refl eq_refl eq_refl eq_refl).
  - apply (proj2 rejections_not_clean Table.game "ann"%string
             (card 83 R3 Spades) 1 1%nat Table.threes);
      [reflexivity|reflexivity|discriminate|reflexivity].
Defined.

Section Objects.
Context {V : Type}.
Implicit Types (o : Obj.t V) (k : string) (v : V).

Lemma get_set_eq o k v : Obj.get (Obj.set o k v) k = Some v.
Proof.
  induction o as [|[k' v'] t IH]; simpl.
  - by rewrite decide_True.
  - destruct (decide (k' = k)) as [->|Hne]; simpl.
    + by rewrite decide_True.
    + by rewrite decide_False.
Qed.

Lemma get_set_ne o k k' v :
  k <> k' -> Obj.get (Obj.set o k v) k' = Obj.get o k'.
Proof.
  intros Hne. induction o as [|[k0 v0] t IH]; simpl.
  - by rewrite decide_False.
  - destruct (decide (k0 = k)) as [->|Hk]; simpl.
    + by rewrite !decide_False.
    + by rewrite IH.
Qed.

Lemma set_same o k v : Obj.get o k = Some v -> Obj.set o k v = o.
Proof.
  induction o as [|[k0 v0] t IH]; simpl; [done|].
  destruct (decide (k0 = k)) as [->|Hk].
  - by intros [= ->].
  - intros H. by rewrite IH.
Qed.

Lemma keys_set_present o k v :
  is_Some (Obj.get o k) -> Obj.keys (Obj.set o k v) = Obj.keys o.
Proof.
  unfold Obj.keys. induction o as [|[k0 v0] t IH]; simpl.
  - by intros [].
  - destruct (decide (k0 = k)) as [->|Hk]; simpl; [done|].
    intros H. by rewrite IH.
Qed.

Lemma get_Some_elem o k v : Obj.get o k = Some v -> (k, v) ∈ o.
Proof.
  induction o as [|[k0 v0] t IH]; simpl; [done|].
  destruct (decide (k0 = k)) as [->|Hk].
  - intros [= ->]. by left.
  - intros H. right. by apply IH.
Qed.

End Objects.

Section Hands.

Lemma remove_loop_fuel n cid h :
  (length h <= n)%nat -> Forall is_Some h ->
  (Player.remove_loop cid h).2 = true /\
  Forall is_Some (Player.remove_loop cid h).1.
Proof.
  revert h. induction n as [|n IH]; intros h Hn Hh.
  { destruct h; [done|simpl in Hn; lia]. }
  destruct h as [|[c|] t]; simpl.
  - done.
  - apply Forall_cons in Hh as [_ Ht]. simpl in Hn.
    destruct (card_id c =? cid).
    + destruct t as [|x t']; [done|].
      apply Forall_cons in Ht as [Hx Ht']. simpl in Hn.
      destruct (IH t' ltac:(lia) Ht') as [E1 E2].
      destruct (Player.remove_loop cid t') as [h ok]. simpl in *.
      split; [done|]. by constructor.
    + destruct (IH t ltac:(lia) Ht) as [E1 E2].
      destruct (Player.remove_loop cid t) as [h ok]. simpl in *.
      split; [done|]. by constructor.
  - apply Forall_cons in Hh as [[? [=]] _].
Qed.

Lemma remove_loop_ok cid h :
  Forall is_Some h -> (Player.remove_loop cid h).2 = true.
Proof. intros. by apply (remove_loop_fuel (length h)). Qed.

Lemma remove_loop_defined cid h :
  Forall is_Some h -> Forall is_Some (Player.remove_loop cid h).1.
Proof. intros. by apply (remove_loop_fuel (length h)). Qed.

Lemma remove_loop_absent cid h :
  Forall is_Some h ->
  (forall c, Some c ∈ h -> card_id c <> cid) ->
  Player.remove_loop cid h = (h, true).
Proof.
  induction h as [|[c|] t IH]; intros Hh Ha; simpl; [done| |].
  - apply Forall_cons in Hh as [_ Ht].
    assert ((card_id c =? cid) = false) as ->.
    { apply Z.eqb_neq, Ha. by left. }
    rewrite IH; [done|done|]. intros c' Hc'. apply Ha. by right.
  - apply Forall_cons in Hh as [[? [=]] _].
Qed.

End Hands.

Lemma set_hand_same p : Player.set_hand p (Player.hand p) = p.
Proof. by destruct p. Qed.

(** C10. [discard] never looks for the card in the hand before it puts it
    on the discard pile. Called by the player whose turn it is, in a game
    that has been dealt and with a hand free of empty slots, it returns
    true, appends the card to the discard pile and moves the turn on; when
    no card of the hand has the id of the card, the players are left as
    they were, so the card is a new one on the table. *)
Theorem discard_unchecked g player card p d :
  MayI.turnOrder g !! MayI.turn g = Some player ->
  Obj.get (MayI.players g) player = Some p ->
  MayI.deck g = Some d ->
  Forall is_Some (Player.hand p) ->
  exists g',
    MayI.discard g player card = (Return (Some true), g') /\
    MayI.deck g' =
      Some (Deck.mk (Deck.deck d) (Deck.discarded d ++ [Some card])) /\
    MayI.turn g' =
      (if Z.of_nat (MayI.turn g) =? Z.of_nat (length (MayI.players g)) - 1
       then 0%nat else (MayI.turn g + 1)%nat) /\
    ((forall c, Some c ∈ Player.hand p -> card_id c <> card_id card) ->
     MayI.players g' = MayI.players g).
Proof.
  intros Ht Hp Hd Hh. unfold MayI.discard.
  rewrite bool_decide_eq_true_2 by done. simpl. rewrite Hp.
  pose proof (remove_loop_ok (card_id card) _ Hh) as Hok.
  pose proof (remove_loop_absent (card_id card) _ Hh) as Habs.
  destruct (Player.remove_loop (card_id card) (Player.hand p)) as [h ok].
  simpl in Hok. subst ok. simpl. rewrite Hd.
  eexists. split; [reflexivity|].
  unfold MayI.incrementTurn. simpl.
  rewrite keys_set_present by (by rewrite Hp).
  unfold Obj.keys. rewrite length_map.
  destruct (Z.of_nat (MayI.turn g) =? _); simpl.
  - repeat split; try done. intros Ha. injection (Habs Ha) as ->.
    rewrite set_hand_same. by apply set_same.
  - repeat split; try done. intros Ha. injection (Habs Ha) as ->.
    rewrite set_hand_same. by apply set_same.
Qed.

Lemma discard_unchecked_witness :
  exists g',
    MayI.discard Table.game "ann" (card 999 RA Spades) =
      (Return (Some true), g') /\
    MayI.deck g' =
      Some (Deck.mk (Deck.deck Table.pile)
              (Deck.discarded Table.pile ++ [Some (card 999 RA Spades)])) /\
    MayI.turn g' = 1%nat /\
    ((forall c, Some c ∈ Table.ann_hand -> card_id c <> 999) ->
     MayI.players g' = MayI.players Table.game).
Proof.
  apply (discard_unchecked Table.game "ann"%string (card 999 RA Spades)
           (Player.mk "ann" (Some "s1"%string) "Ann" 6 0 Table.ann_hand)
           Table.pile); try reflexivity.
  repeat constructor; by eexists.
Defined.

Section BuyPriority.



End BuyPriority.




Section MeldMethod.

Lemma forallb_Forall {A} (f : A -> bool) l :
  forallb f l = true <-> Forall (fun x => f x = true) l.
Proof.
  induction l as [|x t IH]; simpl.
  - split; [constructor|done].
  - by rewrite andb_true_iff, Forall_cons, IH.
Qed.

Lemma meld_sum_concat groups : MayI.meld_sum groups = length (concat groups).
Proof.
  unfold MayI.meld_sum.
  assert (forall n, foldl (fun sum cards : _ => (sum + length cards)%nat) n
                      groups = (n + length (concat groups))%nat) as H.
  { induction groups as [|x t IH]; intros n; simpl; [lia|].
    rewrite IH, length_app. lia. }
  by rewrite H.
Qed.

Lemma meld_build_spec g player groups i :
  MayI.meld_build g player groups i =
  if forallb valid_group groups
  then Some (new_melds (length (MayI.melds g) + i)
               (Player.id <$> Obj.get (MayI.players g) player) groups)
  else None.
Proof.
  revert i. induction groups as [|cards rest IH]; intros i; simpl; [done|].
  unfold Meld.new, valid_group at 1, group_type.
  destruct (Meld.isRun cards), (Meld.isSet cards); simpl; try done;
    rewrite IH, <- Nat.add_succ_r; by destruct (forallb _ _).
Qed.

Lemma round_table r :
  1 <= r <= 6 ->
  exists rm, index Rounds.melds (r - 1) = Some rm /\
             round_shape r = Some (Rounds.rm_sets rm, Rounds.rm_length rm).
Proof.
  intros Hr.
  assert (r = 1 \/ r = 2 \/ r = 3 \/ r = 4 \/ r = 5 \/ r = 6) as H by lia.
  destruct H as [->|[->|[->|[->|[->| ->]]]]]; by eexists.
Qed.

Lemma new_melds_length base owner groups :
  length (new_melds base owner groups) = length groups.
Proof.
  revert base. induction groups; intros base; simpl; [done|]. by rewrite IHgroups.
Qed.

Lemma new_melds_shape base owner groups len :
  forallb
    (fun n => negb ((length (Meld.meld_cards n) <? len)%nat
                    || bool_decide (Meld.meld_type n = Meld.RUN)))
    (new_melds base owner groups) = true <->
  Forall (fun cards => (len <= length cards)%nat /\
                       group_type cards <> Meld.RUN) groups.
Proof.
  revert base. induction groups as [|cards rest IH]; intros base; simpl.
  - split; [constructor|done].
  - rewrite andb_true_iff, IH, Forall_cons, negb_true_iff, orb_false_iff.
    rewrite Nat.ltb_ge, bool_decide_eq_false. done.
Qed.

Lemma meld_round_check_spec g owner groups :
  1 <= MayI.round g <= 6 ->
  MayI.meld_round_check g (new_melds (length (MayI.melds g)) owner groups)
    = true <->
  exists n len,
    round_shape (MayI.round g) = Some (n, len) /\
    length groups = n /\
    Forall (fun cards => (len <= length cards)%nat /\
                         group_type cards <> Meld.RUN) groups.
Proof.
  intros Hr. unfold MayI.meld_round_check.
  destruct (round_table _ Hr) as (rm & -> & ->).
  rewrite new_melds_length.
  destruct (length groups =? Rounds.rm_sets rm)%nat eqn:E; simpl.
  - apply Nat.eqb_eq in E. rewrite new_melds_shape. split.
    + intros H. by exists (Rounds.rm_sets rm), (Rounds.rm_length rm).
    + by intros (n & len & [= <- <-] & _ & H).
  - apply Nat.eqb_neq in E. split; [done|].
    by intros (n & len & [= <- <-] & ? & _).
Qed.

Lemma meld_remove_ok cards h :
  Forall is_Some h ->
  (MayI.meld_remove cards h).2 = true /\
  Forall is_Some (MayI.meld_remove cards h).1.
Proof.
  revert h. induction cards as [|c rest IH]; intros h Hh; simpl; [done|].
  pose proof (remove_loop_ok (card_id c) h Hh) as Hok.
  pose proof (remove_loop_defined (card_id c) h Hh) as Hdef.
  destruct (Player.remove_loop (card_id c) h) as [h' ok]. simpl in *.
  subst ok. by apply IH.
Qed.

Lemma remove_loop_cons cid c rest :
  Player.remove_loop cid (Some c :: rest) =
  if card_id c =? cid then
    match rest with
    | [] => ([], true)
    | x :: rest' =>
        let '(h, ok) := Player.remove_loop cid rest' in (x :: h, ok)
    end
  else let '(h, ok) := Player.remove_loop cid rest in (Some c :: h, ok).
Proof. done. Qed.

Lemma remove_loop_NoDup cid cs :
  NoDup (card_id <$> cs) ->
  Player.remove_loop cid (Some <$> cs) =
  (Some <$> List.filter (fun c => negb (card_id c =? cid)) cs, true).
Proof.
  induction cs as [|c t IH]; intros Hnd; [done|].
  rewrite fmap_cons in Hnd. apply NoDup_cons in Hnd as [Hc Ht].
  rewrite fmap_cons, remove_loop_cons.
  cbn [List.filter]. destruct (card_id c =? cid) eqn:E; cbn [negb].
  - apply Z.eqb_eq in E. subst cid.
    assert (forall x, x ∈ t -> card_id x <> card_id c) as Hne.
    { intros x Hx Heq. apply Hc. rewrite <- Heq.
      by apply list_elem_of_fmap_2. }
    rewrite (filter_all _ t)
      by (intros x Hx; by apply negb_true_iff, Z.eqb_neq, Hne).
    destruct t as [|x t']; [done|]. rewrite fmap_cons.
    rewrite remove_loop_absent; [done| |].
    + apply Forall_fmap, Forall_true. by eexists.
    + intros c' (y & [= ->] & Hy)%list_elem_of_fmap.
      apply Hne. by right.
  - rewrite IH by done. by rewrite fmap_cons.
Qed.

Lemma NoDup_filter_ids (P : Card -> bool) cs :
  NoDup (card_id <$> cs) -> NoDup (card_id <$> List.filter P cs).
Proof.
  induction cs as [|c t IH]; simpl; [done|].
  intros [Hc Ht]%NoDup_cons. destruct (P c); simpl; [|by apply IH].
  apply NoDup_cons. split; [|by apply IH].
  intros (x & Hx & Hin)%list_elem_of_fmap. apply Hc.
  apply list_elem_of_fmap. exists x. split; [done|].
  apply list_elem_of_In, filter_In in Hin as [Hin _].
  by apply list_elem_of_In.
Qed.

Lemma meld_remove_NoDup cards cs :
  NoDup (card_id <$> cs) ->
  MayI.meld_remove cards (Some <$> cs) =
  (Some <$> List.filter
              (fun c => negb (existsb (fun x => card_id x =? card_id c) cards))
              cs, true).
Proof.
  revert cs. induction cards as [|x rest IH]; intros cs Hnd; simpl.
  - by rewrite filter_all.
  - rewrite remove_loop_NoDup by done.
    rewrite IH by (by apply NoDup_filter_ids).
    do 2 f_equal. clear. induction cs as [|c t IHt]; simpl; [done|].
    rewrite (Z.eqb_sym (card_id x) (card_id c)).
    destruct (card_id c =? card_id x); simpl; [done|].
    destruct (existsb _ rest); simpl; by rewrite IHt.
Qed.

End MeldMethod.

(** C2. For a player of the game, in rounds 1 to 6 and with a hand free of
    empty slots, [meld] succeeds exactly when every group is a valid set or
    run, the groups do not take the whole hand and, for a player without a
    meld yet, the groups are as many as the round asks, each at least as
    long as the round asks, and none of type RUN. A refused meld changes
    nothing; an accepted one takes the cards of the groups out of the hand
    and appends the new melds. *)
Theorem meld_rule g player p groups :
  Obj.get (MayI.players g) player = Some p ->
  1 <= MayI.round g <= 6 ->
  Forall is_Some (Player.hand p) ->
  ((MayI.meld g player groups).1 = true <->
   meld_accepted g player (Player.hand p) groups) /\
  ((MayI.meld g player groups).1 = false ->
   (MayI.meld g player groups).2 = g) /\
  (forall cs,
      (MayI.meld g player groups).1 = true ->
      Player.hand p = Some <$> cs ->
      NoDup (card_id <$> cs) ->
      (MayI.meld g player groups).2 =
      MayI.set_melds
        (MayI.set_players g
           (Obj.set (MayI.players g) player
              (Player.set_hand p
                 (Some <$> List.filter
                             (fun c => negb (in_groups groups c)) cs))))
        (MayI.melds g ++
         new_melds (length (MayI.melds g)) (Some (Player.id p)) groups)).
Proof.
  intros Hp Hr Hh. unfold MayI.meld, meld_accepted.
  rewrite meld_build_spec, Hp, meld_sum_concat, Nat.add_0_r. simpl.
  destruct (forallb valid_group groups) eqn:Hv.
  2:{ simpl. split; [|done]. split; [done|]. intros [HF _].
      apply forallb_Forall in HF. congruence. }
  assert (Forall (fun cards => valid_group cards = true) groups) as HF
    by (by apply forallb_Forall).
  destruct (length (concat groups) =? length (Player.hand p))%nat eqn:Hs.
  { apply Nat.eqb_eq in Hs. simpl. split; [|done]. split; [done|].
    by intros (_ & Hne & _). }
  apply Nat.eqb_neq in Hs.
  pose proof (meld_round_check_spec g (Some (Player.id p)) groups Hr) as Hrc.
  destruct (negb (MayI.hasMeld g player) &&
            negb (MayI.meld_round_check g _)) eqn:Hc.
  { simpl. split; [|done]. split; [done|]. intros (_ & _ & Hshape).
    apply andb_true_iff in Hc as [Hm Hc].
    apply negb_true_iff in Hm, Hc. apply Hrc in Hshape; [|done]. congruence. }
  pose proof (meld_remove_ok (concat groups) _ Hh) as [Hok _].
  destruct (MayI.meld_remove (concat groups) (Player.hand p)) as [h ok]
    eqn:E.
  simpl in Hok. subst ok. simpl.
  split; [|split; [done|]].
  - split; [intros _|done]. split; [done|]. split; [done|].
    intros Hm. rewrite Hm in Hc. simpl in Hc. apply negb_false_iff in Hc.
    by apply Hrc.
  - intros cs _ Hcs Hnd. rewrite Hcs, meld_remove_NoDup in E by done.
    by injection E as <-.
Qed.

Lemma meld_rule_witness :
  meld_accepted Opening.game "dave" (Player.hand Opening.dave)
                Opening.two_threes /\
  (MayI.meld Opening.game "dave" Opening.two_threes).2 =
  MayI.set_melds
    (MayI.set_players Opening.game
       [("dave"%string,
         Player.set_hand Opening.dave
           [Some (card 103 RK Spades); Some (card 99 RJ Spades)])])
    (new_melds 0 (Some "dave"%string) Opening.two_threes).
Proof.
  assert (Forall is_Some (Player.hand Opening.dave)) as Hh
    by (repeat constructor; by eexists).
  destruct (meld_rule Opening.game "dave"%string Opening.dave
              Opening.two_threes eq_refl ltac:(simpl; lia) Hh)
    as (H1 & _ & H3).
  split.
  - apply H1. reflexivity.
  - rewrite (H3 Opening.dave_cards eq_refl eq_refl).
    + reflexivity.
    + apply (bool_decide_unpack _). vm_compute. exact I.
Defined.

Section Dealing.

Lemma insert_Permutation {A} (l : list A) i x y :
  l !! i = Some x -> y :: l ≡ₚ x :: <[i := y]> l.
Proof.
  revert i. induction l as [|h t IH]; intros [|i] Hi; simpl in *; try done.
  - injection Hi as ->. apply Permutation_swap.
  - rewrite Permutation_swap, (IH i Hi). apply Permutation_swap.
Qed.

Lemma swap_slots_perm i j a : Deck.swap_slots i j a ≡ₚ a.
Proof.
  unfold Deck.swap_slots.
  destruct (a !! i) as [x|] eqn:Hi; [|done].
  destruct (a !! j) as [y|] eqn:Hj; [|done].
  destruct (decide (i = j)) as [->|Hne].
  - rewrite list_insert_insert_eq. assert (x = y) as -> by congruence.
    by rewrite list_insert_id.
  - apply (Permutation_cons_inv (a := y)).
    rewrite <- (insert_Permutation (<[i:=y]> a) j y x)
      by (by rewrite list_lookup_insert_ne).
    symmetry. by apply insert_Permutation.
Qed.

Lemma shuffle_loop_perm rnd n k a : Deck.shuffle_loop rnd n k a ≡ₚ a.
Proof.
  revert k a. induction n as [|n IH]; intros k a; simpl; [done|].
  by rewrite IH, swap_slots_perm.
Qed.

Lemma new_deck_perm rnd :
  Deck.deck (Deck.new suits ranks 2 true rnd) ≡ₚ fresh_deck /\
  Deck.discarded (Deck.new suits ranks 2 true rnd) = [].
Proof. split; [apply shuffle_loop_perm|done]. Qed.

Lemma fresh_deck_pairs r s :
  length (filter (fun c => card_rank c = r /\ card_suit c = s) fresh_deck)
  = 2%nat.
Proof. destruct r, s; vm_compute; reflexivity. Qed.

Lemma fresh_deck_length : length fresh_deck = 104%nat.
Proof. vm_compute. reflexivity. Qed.

Lemma hands_cons k p ps : hands ((k, p) :: ps) = Player.hand p ++ hands ps.
Proof. done. Qed.

Lemma deal_pass_spec ps d :
  (length ps <= length (Deck.deck d))%nat ->
  exists ps',
    MayI.deal_pass ps d =
      (ps', Deck.mk (drop (length ps) (Deck.deck d)) (Deck.discarded d)) /\
    Forall2 (dealt 1) ps ps' /\
    hands ps' ≡ₚ hands ps ++ (Some <$> take (length ps) (Deck.deck d)).
Proof.
  revert d. induction ps as [|[k p] rest IH]; intros d Hn.
  - exists []. simpl. rewrite drop_0. split; [by destruct d|].
    split; [constructor|done].
  - destruct d as [[|x pile] disc]; simpl in Hn; [lia|].
    destruct (IH (Deck.mk pile disc)) as (rest' & E & HF & HP);
      [simpl; lia|].
    simpl in *. rewrite E. eexists. split; [reflexivity|].
    split.
    + constructor; [|done]. split; [done|]. exists [x]. by split.
    + rewrite !hands_cons, HP. simpl.
      rewrite <- !app_assoc. apply Permutation_app_head.
      simpl. apply Permutation_middle.
Qed.

Lemma dealt_compose a b kp kp1 kp2 :
  dealt a kp kp1 -> dealt b kp1 kp2 -> dealt (a + b) kp kp2.
Proof.
  intros [E1 (g1 & L1 & H1)] [E2 (g2 & L2 & H2)].
  split; [congruence|]. exists (g1 ++ g2).
  split; [rewrite length_app; lia|].
  rewrite H2, H1. destruct kp.2. simpl.
  by rewrite fmap_app, app_assoc.
Qed.

Lemma deal_loop_spec n ps d :
  (n * length ps <= length (Deck.deck d))%nat ->
  exists ps',
    MayI.deal_loop n ps d =
      (ps', Deck.mk (drop (n * length ps) (Deck.deck d))
                    (Deck.discarded d)) /\
    Forall2 (dealt n) ps ps' /\
    hands ps' ≡ₚ hands ps ++ (Some <$> take (n * length ps) (Deck.deck d)).
Proof.
  revert ps d. induction n as [|n IH]; intros ps d Hn.
  - exists ps. simpl. rewrite drop_0, app_nil_r.
    split; [by destruct d|]. split; [|done].
    apply Forall2_same_length_lookup_2; [done|].
    intros i kp kp' H1 H2. assert (kp = kp') as <- by congruence.
    split; [done|]. exists []. split; [done|].
    destruct kp.2. simpl. by rewrite app_nil_r.
  - simpl in Hn. destruct (deal_pass_spec ps d) as (ps1 & E1 & F1 & P1); [lia|].
    pose proof (Forall2_length _ _ _ F1) as L1.
    destruct (IH ps1 (Deck.mk (drop (length ps) (Deck.deck d))
                              (Deck.discarded d)))
      as (ps2 & E2 & F2 & P2).
    { simpl. rewrite length_drop, <- L1. lia. }
    simpl in *. rewrite E1, E2. eexists. split.
    { by rewrite drop_drop, <- L1. }
    split.
    + apply Forall2_same_length_lookup_2.
      { rewrite L1. by eapply Forall2_length. }
      intros i kp kp2 H1 H2.
      destruct (Forall2_lookup_l _ _ _ _ _ F1 H1) as (kp1 & H3 & D1).
      destruct (Forall2_lookup_l _ _ _ _ _ F2 H3) as (kp2' & H4 & D2).
      assert (kp2' = kp2) as -> by congruence.
      apply (dealt_compose 1 n kp kp1 kp2 D1 D2).
    + rewrite P2, P1, <- app_assoc. apply Permutation_app_head.
      by rewrite <- fmap_app, <- L1, take_take_drop.
Qed.

Lemma deal_state rnd g :
  (11 * length (MayI.players g) + 1 <= 104)%nat ->
  exists ps x pile,
    MayI.deal rnd g =
      MayI.set_deck (MayI.set_players g ps)
                    (Some (Deck.mk pile [Some x])) /\
    Forall2 (dealt 11) (MayI.players g) ps /\
    hands ps ++ Some x :: (Some <$> pile)
    ≡ₚ hands (MayI.players g) ++
       (Some <$> Deck.deck (Deck.new suits ranks 2 true rnd)) /\
    length pile = (104 - 11 * length (MayI.players g) - 1)%nat.
Proof.
  intros HN. destruct (new_deck_perm rnd) as [Hperm Hdisc].
  unfold MayI.deal.
  generalize dependent (Deck.new suits ranks 2 true rnd).
  intros [fresh disc] Hperm Hdisc. simpl in Hperm, Hdisc. subst disc.
  cbn [Deck.deck].
  assert (length fresh = 104%nat) as Hlen.
  { rewrite Hperm. apply fresh_deck_length. }
  destruct (deal_loop_spec 11 (MayI.players g) (Deck.mk fresh []))
    as (ps & E & HF & HP); [simpl; lia|].
  rewrite E. clear E. cbn [Deck.deck Deck.discarded] in *.
  set (n := (11 * length (MayI.players g))%nat) in *.
  assert (length (drop n fresh) = (104 - n)%nat) as Hdrop
    by (rewrite length_drop; lia).
  destruct (drop n fresh) as [|x pile] eqn:Hd; simpl in Hdrop; [lia|].
  unfold Deck.drawCard. cbn. exists ps, x, pile.
  split; [done|]. split; [done|]. split; [|lia].
  rewrite HP, <- app_assoc. apply Permutation_app_head.
  rewrite <- (take_drop n fresh) at 2. rewrite Hd, fmap_app. done.
Qed.

Lemma dealt_keys n ps ps' :
  Forall2 (dealt n) ps ps' -> Obj.keys ps' = Obj.keys ps.
Proof.
  unfold Obj.keys. induction 1 as [|kp kp' ps ps' [E _] _ IH]; simpl; [done|].
  by rewrite E, IH.
Qed.

End Dealing.

(** C9, counterexample. With ten players the deck runs out during the
    deal: the draw pile is left empty, not with 104 - 11 * 10 - 1 cards,
    and the discard pile receives [undefined]. *)
Lemma deal_ten_players :
  length (MayI.players Crowd.game) = 10%nat /\
  exists d,
    MayI.deck (MayI.deal Crowd.rnd Crowd.game) = Some d /\
    Deck.deck d = [] /\
    Z.of_nat (length (Deck.deck d)) <> 104 - 11 * 10 - 1 /\
    Deck.discarded d = [None].
Proof.
  split; [reflexivity|]. eexists. split; [vm_compute; reflexivity|].
  simpl. repeat split; [lia].
Qed.

(** C9, amended. With at most nine players, [deal] builds a deck of 104
    cards, two of every rank and suit, hands every player eleven of them,
    puts one on the discard pile and leaves [104 - 11 * N - 1] in the draw
    pile; the cards handed out, the discard and the draw pile together are
    the deck. *)
Theorem deal_counts rnd g :
  (11 * length (MayI.players g) + 1 <= 104)%nat ->
  let fresh := Deck.deck (Deck.new suits ranks 2 true rnd) in
  length fresh = 104%nat /\
  (forall r s,
      length (filter (fun c => card_rank c = r /\ card_suit c = s) fresh)
      = 2%nat) /\
  exists d,
    MayI.deck (MayI.deal rnd g) = Some d /\
    length (Deck.discarded d) = 1%nat /\
    Z.of_nat (length (Deck.deck d)) =
      104 - 11 * Z.of_nat (length (MayI.players g)) - 1 /\
    Forall2 (dealt 11) (MayI.players g) (MayI.players (MayI.deal rnd g)) /\
    hands (MayI.players (MayI.deal rnd g)) ++ Deck.discarded d ++
      (Some <$> Deck.deck d)
    ≡ₚ hands (MayI.players g) ++ (Some <$> fresh).
Proof.
  intros HN fresh.
  destruct (new_deck_perm rnd) as [Hperm _].
  destruct (deal_state rnd g HN) as (ps & x & pile & E & HF & HP & HL).
  fold fresh in Hperm, HP. clearbody fresh. rewrite E. clear E.
  split; [rewrite Hperm; apply fresh_deck_length|]. split.
  { intros r s. rewrite Hperm. apply fresh_deck_pairs. }
  exists (Deck.mk pile [Some x]).
  cbn [MayI.deck MayI.players MayI.set_deck MayI.set_players Deck.deck
       Deck.discarded length app].
  split; [done|]. split; [done|]. split; [lia|]. split; [done|].
  exact HP.
Qed.

Lemma deal_counts_witness :
  exists d,
    MayI.deck (MayI.deal Crowd.rnd Table.game) = Some d /\
    length (Deck.discarded d) = 1%nat /\
    Z.of_nat (length (Deck.deck d)) = 70.
Proof.
  destruct (deal_counts Crowd.rnd Table.game ltac:(simpl; lia))
    as (_ & _ & d & H1 & H2 & H3 & _).
  exists d. repeat split; [exact H1|exact H2|exact H3].
Defined.

Section Conservation.

Lemma clean_perm l l' : l ≡ₚ l' -> clean l -> clean l'.
Proof.
  intros HP [HF HN]. split.
  - by rewrite <- HP.
  - unfold ids. by rewrite <- HP.
Qed.

Lemma clean_app l1 l2 : clean (l1 ++ l2) -> clean l1 /\ clean l2.
Proof.
  intros [HF HN]. apply Forall_app in HF as [F1 F2].
  unfold ids in HN. rewrite fmap_app in HN.
  apply NoDup_app in HN as (N1 & _ & N2). by repeat split.
Qed.

Lemma clean_cards l :
  clean l -> exists cs, l = Some <$> cs /\ NoDup (card_id <$> cs).
Proof.
  induction l as [|[c|] t IH]; intros [HF HN].
  - exists []. split; [done|constructor].
  - apply Forall_cons in HF as [_ HF]. unfold ids in HN.
    rewrite fmap_cons in HN. apply NoDup_cons in HN as [Hc HN].
    destruct IH as (cs & -> & Hcs); [by split|].
    exists (c :: cs). split; [done|]. rewrite fmap_cons.
    apply NoDup_cons. split; [|done].
    intros Hin. apply Hc. rewrite <- list_fmap_compose.
    apply list_elem_of_fmap in Hin as (y & Hy & Hin).
    apply list_elem_of_fmap. exists y. split; [|done]. simpl. by rewrite Hy.
  - apply Forall_cons in HF as [[? [=]] _].
Qed.

Lemma clean_fresh_deck : clean (Some <$> fresh_deck).
Proof.
  split.
  - apply Forall_fmap, Forall_true. by eexists.
  - apply (bool_decide_unpack _). vm_compute. exact I.
Qed.

Lemma NoDup_ids_take_out cs c :
  NoDup (card_id <$> cs) -> c ∈ cs ->
  cs ≡ₚ c :: List.filter (fun x => negb (card_id x =? card_id c)) cs.
Proof.
  induction cs as [|x t IH]; intros HN Hin.
  - by apply elem_of_nil in Hin.
  - rewrite fmap_cons in HN. apply NoDup_cons in HN as [Hx HN].
    assert (forall y, y ∈ t -> card_id y <> card_id x) as Hne.
    { intros y Hy Heq. apply Hx. rewrite <- Heq.
      by apply list_elem_of_fmap_2. }
    apply elem_of_cons in Hin as [->|Hin]; cbn [List.filter].
    + rewrite Z.eqb_refl. cbn [negb].
      rewrite filter_all; [done|].
      intros y Hy. by apply negb_true_iff, Z.eqb_neq, Hne.
    + assert ((card_id x =? card_id c) = false) as ->.
      { apply Z.eqb_neq. intros Heq. by apply (Hne c). }
      cbn [negb]. rewrite (IH HN Hin) at 1. apply Permutation_swap.
Qed.

Lemma NoDup_ids_take_out_all cs sub :
  NoDup (card_id <$> cs) -> NoDup sub -> (forall c, c ∈ sub -> c ∈ cs) ->
  cs ≡ₚ sub ++
        List.filter
          (fun c => negb (existsb (fun x => card_id x =? card_id c) sub)) cs.
Proof.
  revert cs. induction sub as [|s rest IH]; intros cs HN HS Hin.
  - simpl. by rewrite filter_all.
  - apply NoDup_cons in HS as [Hs HS].
    rewrite (NoDup_ids_take_out cs s HN) at 1 by (apply Hin; by left).
    simpl. f_equiv.
    rewrite (IH (List.filter _ cs)) at 1.
    + f_equiv. clear. induction cs as [|c t IHt]; simpl; [done|].
      rewrite (Z.eqb_sym (card_id s) (card_id c)).
      destruct (card_id c =? card_id s); simpl; [done|].
      destruct (existsb _ rest); simpl; by rewrite IHt.
    + by apply NoDup_filter_ids.
    + done.
    + intros c Hc. apply list_elem_of_In, filter_In. split.
      * apply list_elem_of_In, Hin. by right.
      * apply negb_true_iff, Z.eqb_neq. intros Heq.
        assert (c = s) as ->; [|done].
        assert (c ∈ cs) as Hc1 by (apply Hin; by right).
        assert (s ∈ cs) as Hc2 by (apply Hin; by left).
        clear -HN Heq Hc1 Hc2.
        apply list_elem_of_lookup in Hc1 as [i Hi], Hc2 as [j Hj].
        assert (i = j) as ->; [|congruence].
        eapply (NoDup_lookup _ _ _ _ HN); rewrite list_lookup_fmap.
        -- by rewrite Hi.
        -- rewrite Hj. simpl. by rewrite Heq.
Qed.

Lemma hands_app ps1 ps2 : hands (ps1 ++ ps2) = hands ps1 ++ hands ps2.
Proof. unfold hands. by rewrite fmap_app, concat_app. Qed.

(** The hands apart from the hand of one player. *)
Lemma hands_set ps k p :
  Obj.get ps k = Some p ->
  exists others,
    hands ps ≡ₚ Player.hand p ++ others /\
    forall p', hands (Obj.set ps k p') ≡ₚ Player.hand p' ++ others.
Proof.
  induction ps as [|[k0 p0] t IH]; simpl; [done|].
  destruct (decide (k0 = k)) as [->|Hne].
  - intros [= ->]. exists (hands t). split; [done|]. by intros p'.
  - intros Hg. destruct (IH Hg) as (others & H1 & H2).
    exists (Player.hand p0 ++ others). split.
    + rewrite hands_cons, H1. rewrite !app_assoc. f_equiv.
      apply Permutation_app_comm.
    + intros p'. rewrite hands_cons, H2. rewrite !app_assoc. f_equiv.
      apply Permutation_app_comm.
Qed.

(** The melded cards apart from the cards of one meld. *)
Lemma melds_insert (ms : list Meld.t) k m :
  ms !! k = Some m ->
  exists others,
    concat (Meld.meld_cards <$> ms) ≡ₚ Meld.meld_cards m ++ others /\
    forall m',
      concat (Meld.meld_cards <$> <[k := m']> ms)
      ≡ₚ Meld.meld_cards m' ++ others.
Proof.
  revert k. induction ms as [|m0 t IH]; intros [|k] Hk; simpl in *;
    try done.
  - injection Hk as ->. by exists (concat (Meld.meld_cards <$> t)).
  - destruct (IH k Hk) as (others & H1 & H2).
    exists (Meld.meld_cards m0 ++ others). split.
    + rewrite H1, !app_assoc. f_equiv. apply Permutation_app_comm.
    + intros m'. rewrite H2, !app_assoc. f_equiv.
      apply Permutation_app_comm.
Qed.

Lemma find_meld_lookup ms meldID k m :
  MayI.find_meld ms meldID = Some (k, m) -> ms !! k = Some m.
Proof.
  revert k. induction ms as [|m0 t IH]; intros k; simpl; [done|].
  destruct (bool_decide _).
  - by intros [= <- <-].
  - destruct (MayI.find_meld t meldID) as [[k' m']|]; [|done].
    intros [= <- <-]. by apply IH.
Qed.

Lemma get_keys {V} (o : Obj.t V) k :
  is_Some (Obj.get o k) <-> k ∈ Obj.keys o.
Proof.
  unfold Obj.keys. induction o as [|[k0 v0] t IH]; simpl.
  - split; [by intros []|]. intros H. by apply elem_of_nil in H.
  - destruct (decide (k0 = k)) as [->|Hne].
    + split; [intros _; by left|by eexists].
    + rewrite IH. split; [by right|].
      intros [?|?]%elem_of_cons; [congruence|done].
Qed.

End Conservation.
Section Moves.

Lemma table_cards_clean g d :
  table_cards g d ≡ₚ Some <$> fresh_deck ->
  clean (Deck.discarded d) /\ clean (hands (MayI.players g)) /\
  clean (Some <$> concat (Meld.meld_cards <$> MayI.melds g)).
Proof.
  intros HP. pose proof (clean_perm _ _ (symmetry HP) clean_fresh_deck) as H.
  unfold table_cards in H.
  apply clean_app in H as [_ H]. apply clean_app in H as [H1 H].
  apply clean_app in H as [H2 H3]. done.
Qed.

Lemma hand_clean ps k p :
  clean (hands ps) -> Obj.get ps k = Some p -> clean (Player.hand p).
Proof.
  intros Hc Hg. destruct (hands_set ps k p Hg) as (others & H1 & _).
  apply (clean_perm _ _ H1) in Hc. by apply clean_app in Hc as [? _].
Qed.

Lemma draw_cards player qty g d :
  MayI.deck g = Some d -> (qty <= length (Deck.deck d))%nat ->
  exists d',
    MayI.deck (MayI.draw g player qty).2 = Some d' /\
    table_cards (MayI.draw g player qty).2 d' ≡ₚ table_cards g d /\
    Obj.keys (MayI.players (MayI.draw g player qty).2) =
    Obj.keys (MayI.players g).
Proof.
  revert g d. induction qty as [|n IH]; intros g d Hd Hn; simpl.
  - by exists d.
  - rewrite Hd. destruct (Obj.get (MayI.players g) player) as [p|] eqn:Hp.
    2:{ by exists d. }
    destruct d as [[|x pile] disc]; simpl in Hn; [lia|].
    unfold Deck.drawCard. cbn [Deck.deck Deck.discarded].
    match goal with |- context [MayI.draw ?g1 player n] =>
      destruct (IH g1 (Deck.mk pile disc)) as (d' & H1 & H2 & H3);
        [done|simpl; lia|] end.
    exists d'. split; [done|]. split.
    + rewrite H2. unfold table_cards. fields.
      destruct (hands_set _ _ _ Hp) as (others & E1 & E2).
      rewrite E1, E2. fields. float. done.
    + rewrite H3. fields. apply keys_set_present. by rewrite Hp.
Qed.

Lemma sound_intro g g' d d' :
  MayI.deck g = Some d ->
  table_cards g d ≡ₚ Some <$> fresh_deck ->
  MayI.deck g' = Some d' ->
  table_cards g' d' ≡ₚ table_cards g d ->
  NoDup (Obj.keys (MayI.players g')) ->
  sound g'.
Proof.
  intros Hd HP Hd' HP' HN. split; [done|]. exists d'. split; [done|].
  by rewrite HP'.
Qed.

Lemma elem_of_Some_fmap (c : Card) (cs : list Card) :
  Some c ∈ Some <$> cs -> c ∈ cs.
Proof. by intros (y & [= ->] & Hy)%list_elem_of_fmap. Qed.

Lemma discard_sound g player card :
  sound g -> holds g player card ->
  sound (MayI.discard g player card).2.
Proof.
  intros Hs (p & Hp & Hin). pose proof Hs as [HN (d & Hd & HP)].
  unfold MayI.discard.
  destruct (negb (bool_decide _)); [done|]. rewrite Hp.
  destruct (table_cards_clean g d HP) as (_ & Hh & _).
  destruct (clean_cards _ (hand_clean _ _ _ Hh Hp)) as (cs & Hcs & Hnd).
  rewrite Hcs, remove_loop_NoDup by done. fields. rewrite Hd. fields.
  rewrite Hcs in Hin. apply elem_of_Some_fmap in Hin.
  destruct (hands_set _ _ _ Hp) as (others & E1 & E2).
  assert (forall t, sound (MayI.set_turn
            (MayI.set_deck
               (MayI.set_players g
                  (Obj.set (MayI.players g) player
                     (Player.set_hand p
                        (Some <$> List.filter
                           (fun c => negb (card_id c =? card_id card)) cs))))
               (Some (Deck.discardCard d (Some card)))) t)) as H.
  { intros t. eapply (sound_intro g _ d); [done|done|reflexivity| |].
    - unfold table_cards. fields. rewrite E1, E2. fields. rewrite Hcs.
      pose proof (NoDup_ids_take_out cs card Hnd Hin) as HPc.
      set (kept := List.filter _ cs) in *. rewrite HPc. float. done.
    - fields. rewrite keys_set_present by (by rewrite Hp). done. }
  unfold MayI.incrementTurn. destruct (_ =? _); apply H.
Qed.

Lemma set_set {V} (o : Obj.t V) k v v' :
  Obj.set (Obj.set o k v) k v' = Obj.set o k v'.
Proof.
  induction o as [|[k0 v0] t IH]; simpl.
  - by rewrite decide_True.
  - destruct (decide (k0 = k)) as [->|Hne]; simpl.
    + by rewrite decide_True.
    + by rewrite decide_False, IH.
Qed.

Lemma draw_sound g player qty d :
  sound g -> MayI.deck g = Some d -> (qty <= length (Deck.deck d))%nat ->
  sound (MayI.draw g player qty).2.
Proof.
  intros [HN (d0 & Hd0 & HP)] Hd Hq.
  assert (d0 = d) as -> by congruence.
  destruct (draw_cards player qty g d Hd Hq) as (d' & H1 & H2 & H3).
  eapply (sound_intro g _ d d'); try done. by rewrite H3.
Qed.

Lemma buy_sound g player d :
  sound g -> MayI.deck g = Some d -> Deck.deck d <> [] ->
  Deck.discarded d <> [] ->
  sound (MayI.buy g player).2.
Proof.
  intros Hs Hd Hpile Hdisc. pose proof Hs as [HN (d0 & Hd0 & HP)].
  assert (d0 = d) as -> by congruence. clear Hd0.
  unfold MayI.buy.
  destruct (Obj.get (MayI.players g) player) as [p|] eqn:Hp; [|done].
  destruct (Player.buys p =? 0); [done|]. fields. rewrite Hd.
  destruct (pop (Deck.discarded d)) as [[x rest]|] eqn:Epop.
  2:{ by apply pop_None in Epop. }
  apply pop_Some in Epop. rewrite set_set.
  match goal with |- sound (match MayI.draw ?g2 _ _ with _ => _ end).2 =>
    assert (sound (MayI.draw g2 player 1).2) as H;
      [|by destruct (MayI.draw g2 player 1) as [[] ?]] end.
  eapply draw_sound; [|reflexivity|].
  - destruct (hands_set _ _ _ Hp) as (others & E1 & E2).
    eapply (sound_intro g _ d); [done|done|reflexivity| |].
    + unfold table_cards. fields. rewrite E1, E2, Epop. fields.
      float. done.
    + fields. rewrite keys_set_present by (by rewrite Hp). done.
  - fields. destruct (Deck.deck d); [done|simpl; lia].
Qed.

Lemma new_melds_cards base owner groups :
  concat (Meld.meld_cards <$> new_melds base owner groups) = concat groups.
Proof.
  revert base. induction groups as [|x t IH]; intros base; simpl; [done|].
  by rewrite IH.
Qed.

Lemma meld_sound g player groups :
  sound g -> NoDup (concat groups) ->
  (forall c, c ∈ concat groups -> holds g player c) ->
  sound (MayI.meld g player groups).2.
Proof.
  intros Hs Hnd Hin. pose proof Hs as [HN (d & Hd & HP)].
  unfold MayI.meld. rewrite meld_build_spec.
  destruct (forallb valid_group groups); [|done].
  destruct (Obj.get (MayI.players g) player) as [p|] eqn:Hp; [|done].
  fields. destruct (_ =? _)%nat; [done|].
  destruct (negb _ && negb _); [done|].
  destruct (table_cards_clean g d HP) as (_ & Hh & _).
  destruct (clean_cards _ (hand_clean _ _ _ Hh Hp)) as (cs & Hcs & Hcnd).
  rewrite Hcs, meld_remove_NoDup by done. fields.
  destruct (hands_set _ _ _ Hp) as (others & E1 & E2).
  eapply (sound_intro g _ d); [done|done|exact Hd| |].
  - unfold table_cards. fields. rewrite E1, E2. fields.
    rewrite fmap_app, concat_app, new_melds_cards, Hcs.
    assert (forall c, c ∈ concat groups -> c ∈ cs) as Hsub.
    { intros c Hc. destruct (Hin c Hc) as (p' & Hp' & Hc').
      assert (p' = p) as -> by congruence.
      rewrite Hcs in Hc'. by apply elem_of_Some_fmap. }
    pose proof (NoDup_ids_take_out_all cs (concat groups) Hcnd Hnd Hsub)
      as HPc.
    set (kept := List.filter _ cs) in *. rewrite HPc.
    rewrite !fmap_app, <- !app_assoc.
    do 2 apply Permutation_app_head.
    rewrite (Permutation_app_comm (Some <$> concat groups) _).
    by rewrite <- !app_assoc.
  - fields. rewrite keys_set_present by (by rewrite Hp). done.
Qed.

Lemma set_melds_same g : MayI.set_melds g (MayI.melds g) = g.
Proof. by destruct g. Qed.

Lemma NoDup_ids_inj cs (a b : Card) :
  NoDup (card_id <$> cs) -> a ∈ cs -> b ∈ cs -> card_id a = card_id b ->
  a = b.
Proof.
  intros HN [i Hi]%list_elem_of_lookup [j Hj]%list_elem_of_lookup Heq.
  assert (i = j) as ->; [|congruence].
  eapply (NoDup_lookup _ _ _ _ HN); rewrite list_lookup_fmap.
  - by rewrite Hi.
  - rewrite Hj. simpl. by rewrite Heq.
Qed.

Lemma clean_Some_NoDup (cs : list Card) :
  clean (Some <$> cs) -> NoDup (card_id <$> cs).
Proof.
  intros (cs' & E & HN)%clean_cards.
  apply (inj (fmap Some)) in E. by subst.
Qed.

Lemma meld_cards_NoDup (ms : list Meld.t) k m :
  clean (Some <$> concat (Meld.meld_cards <$> ms)) -> ms !! k = Some m ->
  NoDup (card_id <$> Meld.meld_cards m).
Proof.
  intros Hc Hk. destruct (melds_insert ms k m Hk) as (others & E & _).
  apply clean_Some_NoDup.
  apply (clean_perm _ (Some <$> (Meld.meld_cards m ++ others))) in Hc;
    [|by rewrite E].
  rewrite fmap_app in Hc. by apply clean_app in Hc as [? _].
Qed.

Lemma swap_replace_perm mc pc cards :
  NoDup (card_id <$> cards) -> mc ∈ cards ->
  exists cards',
    Meld.swap_replace (Some mc) pc cards = Some cards' /\
    mc :: cards' ≡ₚ pc :: cards.
Proof.
  induction cards as [|x t IH]; intros HN Hin.
  - by apply elem_of_nil in Hin.
  - simpl. destruct (card_id x =? card_id mc) eqn:E.
    + apply Z.eqb_eq in E.
      assert (x = mc) as ->.
      { apply (NoDup_ids_inj (x :: t)); [done|by left|done|done]. }
      eexists. split; [done|]. apply Permutation_swap.
    + apply Z.eqb_neq in E.
      apply elem_of_cons in Hin as [->|Hin]; [done|].
      rewrite fmap_cons in HN. apply NoDup_cons in HN as [_ HN].
      destruct (IH HN Hin) as (cards' & -> & HP).
      eexists. split; [done|].
      rewrite Permutation_swap, HP, Permutation_swap. done.
Qed.

Lemma swap_hand_loop_perm pc mco cs :
  NoDup (card_id <$> cs) -> pc ∈ cs ->
  exists h',
    MayI.swap_hand_loop (card_id pc) mco (Some <$> cs) = Some h' /\
    Some pc :: h' ≡ₚ mco :: (Some <$> cs).
Proof.
  induction cs as [|x t IH]; intros HN Hin.
  - by apply elem_of_nil in Hin.
  - rewrite fmap_cons. simpl. destruct (card_id x =? card_id pc) eqn:E.
    + apply Z.eqb_eq in E.
      assert (x = pc) as ->.
      { apply (NoDup_ids_inj (x :: t)); [done|by left|done|done]. }
      eexists. split; [done|]. apply Permutation_swap.
    + apply Z.eqb_neq in E.
      apply elem_of_cons in Hin as [->|Hin]; [done|].
      rewrite fmap_cons in HN. apply NoDup_cons in HN as [_ HN].
      destruct (IH HN Hin) as (h' & -> & HP).
      eexists. split; [done|].
      rewrite Permutation_swap, HP, Permutation_swap. done.
Qed.

Lemma swapWithMeld_sound g player card meldID :
  sound g -> holds g player card ->
  (forall k m, MayI.find_meld (MayI.melds g) meldID = Some (k, m) ->
               Meld.meld_cards m <> []) ->
  sound (MayI.swapWithMeld g player card meldID).2.
Proof.
  intros Hs (p & Hp & Hin) Hne. pose proof Hs as [HN (d & Hd & HP)].
  unfold MayI.swapWithMeld.
  destruct (negb (MayI.hasMeld g player)); [done|].
  destruct (MayI.find_meld _ _) as [[k meld]|] eqn:Hf; [|done].
  specialize (Hne _ _ eq_refl). apply find_meld_lookup in Hf.
  destruct (Meld.swap meld _ card) as [r meld'] eqn:Es.
  assert (r <> Return true -> MayI.set_melds g (<[k:=meld']> (MayI.melds g))
                              = g) as Hsame.
  { intros Hr.
    pose proof (swap_rejects meld
                  (List.find is_wild (Meld.meld_cards meld)) card) as H.
    rewrite Es in H. simpl in H. rewrite (H Hr), list_insert_id by done.
    apply set_melds_same. }
  destruct r as [[]|]; fields; [|by rewrite Hsame..].
  clear Hsame. rewrite Hp.
  destruct (table_cards_clean g d HP) as (_ & Hh & Hm).
  destruct (clean_cards _ (hand_clean _ _ _ Hh Hp)) as (cs & Hcs & Hcnd).
  pose proof (meld_cards_NoDup _ _ _ Hm Hf) as Hmnd.
  unfold Meld.swap in Es.
  destruct (List.find is_wild (Meld.meld_cards meld)) as [mc|] eqn:Hw.
  2:{ destruct (Meld.meld_cards meld); [done|]. simpl in Es. done. }
  apply find_some in Hw as [Hmc _]. apply list_elem_of_In in Hmc.
  destruct (Meld.swap_testMeld _ _ _); [|done].
  destruct (Meld.new _ _ _); [|done].
  destruct (swap_replace_perm mc card _ Hmnd Hmc) as (cards' & Hr & HPm).
  rewrite Hr in Es. injection Es as <-.
  rewrite Hcs in Hin |- *. apply elem_of_Some_fmap in Hin.
  destruct (swap_hand_loop_perm card (Some mc) cs Hcnd Hin)
    as (h' & -> & HPh).
  destruct (hands_set _ _ _ Hp) as (oh & E1 & E2).
  destruct (melds_insert _ _ _ Hf) as (om & E3 & E4).
  eapply (sound_intro g _ d); [done|done|exact Hd| |].
  - unfold table_cards. fields. rewrite E1, E2, E3, E4. fields.
    rewrite sort_by_order_perm, Hcs.
    rewrite !fmap_app, <- !app_assoc. do 2 apply Permutation_app_head.
    apply (Permutation_cons_inv (a := Some mc)).
    apply (Permutation_cons_inv (a := Some card)).
    transitivity ((Some card :: h') ++ oh ++ (Some <$> mc :: cards') ++
                  (Some <$> om)); [float; done|].
    rewrite HPh, HPm. float. apply Permutation_swap.
  - fields. rewrite keys_set_present by (by rewrite Hp). done.
Qed.

Lemma addToMeld_sound g player card meldID :
  sound g -> holds g player card ->
  (forall p, Obj.get (MayI.players g) player = Some p ->
             (1 < length (Player.hand p))%nat) ->
  sound (MayI.addToMeld g player card meldID).2.
Proof.
  intros Hs (p & Hp & Hin) Hlen. pose proof Hs as [HN (d & Hd & HP)].
  specialize (Hlen p Hp). unfold MayI.addToMeld.
  destruct (MayI.find_meld _ _) as [[k meld]|] eqn:Hf; [|done].
  apply find_meld_lookup in Hf. unfold Meld.addCard.
  destruct (Meld.new _ _ _); fields; rewrite Hp.
  2:{ rewrite andb_false_r. fields.
      by rewrite list_insert_id, set_melds_same. }
  apply Nat.ltb_lt in Hlen. rewrite Hlen. cbn [andb].
  destruct (table_cards_clean g d HP) as (_ & Hh & _).
  destruct (clean_cards _ (hand_clean _ _ _ Hh Hp)) as (cs & Hcs & Hcnd).
  unfold Player.removeCard. rewrite Hcs, remove_loop_NoDup by done.
  fields. rewrite Hcs in Hin. apply elem_of_Some_fmap in Hin.
  destruct (hands_set _ _ _ Hp) as (oh & E1 & E2).
  destruct (melds_insert _ _ _ Hf) as (om & E3 & E4).
  eapply (sound_intro g _ d); [done|done|exact Hd| |].
  - unfold table_cards. fields. rewrite E1, E2, E3, E4. fields.
    rewrite sort_by_order_perm, Hcs.
    pose proof (NoDup_ids_take_out cs card Hcnd Hin) as HPc.
    set (kept := List.filter _ cs) in *. rewrite HPc. float. done.
  - fields. rewrite keys_set_present by (by rewrite Hp). done.
Qed.

Lemma set_fresh {V} (o : Obj.t V) k v :
  k ∉ Obj.keys o -> Obj.set o k v = o ++ [(k, v)].
Proof.
  unfold Obj.keys. induction o as [|[k0 v0] t IH]; simpl; [done|].
  intros Hk. apply not_elem_of_cons in Hk as [Hne Hk].
  rewrite decide_False by done. by rewrite IH.
Qed.

Lemma del_app_present {V} (o o2 : Obj.t V) k :
  k ∈ Obj.keys o -> Obj.del (o ++ o2) k = Obj.del o k ++ o2.
Proof.
  unfold Obj.keys. induction o as [|[k0 v0] t IH]; simpl.
  - intros H. by apply elem_of_nil in H.
  - destruct (decide (k0 = k)) as [->|Hne]; [done|].
    intros [?|Hk]%elem_of_cons; [congruence|]. by rewrite IH.
Qed.

Lemma hands_del ps k p :
  Obj.get ps k = Some p ->
  hands ps ≡ₚ Player.hand p ++ hands (Obj.del ps k).
Proof.
  induction ps as [|[k0 p0] t IH]; simpl; [done|].
  destruct (decide (k0 = k)) as [->|Hne].
  - by intros [= ->].
  - intros Hg. rewrite !hands_cons, (IH Hg), !app_assoc. f_equiv.
    apply Permutation_app_comm.
Qed.

Lemma keys_del {V} (o : Obj.t V) k :
  NoDup (Obj.keys o) ->
  NoDup (Obj.keys (Obj.del o k)) /\
  (forall x, x ∈ Obj.keys (Obj.del o k) -> x ∈ Obj.keys o).
Proof.
  unfold Obj.keys. induction o as [|[k0 v0] t IH]; simpl; [done|].
  intros [Hk HN]%NoDup_cons. destruct (decide (k0 = k)) as [->|Hne].
  - split; [done|]. intros x Hx. by right.
  - destruct (IH HN) as [H1 H2]. simpl. split.
    + apply NoDup_cons. split; [|done]. intros Hin. by apply Hk, H2.
    + intros x [->|Hx]%elem_of_cons; [by left|]. right. by apply H2.
Qed.

Lemma renamed_melds_cards (f : Meld.t -> Meld.t) ms :
  (forall m, Meld.meld_cards (f m) = Meld.meld_cards m) ->
  concat (Meld.meld_cards <$> map f ms) = concat (Meld.meld_cards <$> ms).
Proof.
  intros Hf. induction ms as [|m t IH]; simpl; [done|].
  rewrite Hf. f_equal. exact IH.
Qed.

Lemma reconnect_sound g player pid sid :
  sound g -> pid ∉ Obj.keys (MayI.players g) ->
  sound (MayI.reconnect g player pid sid).2.
Proof.
  intros Hs Hpid. pose proof Hs as [HN (d & Hd & HP)].
  unfold MayI.reconnect.
  destruct (Obj.get (MayI.players g) player) as [p|] eqn:Hp; [|done].
  set (p' := Player.setSocketId (Player.setPlayerId p pid) sid).
  set (ps1 := Obj.set (MayI.players g) player p').
  assert (Obj.keys ps1 = Obj.keys (MayI.players g)) as Hk1
    by (apply keys_set_present; by rewrite Hp).
  assert (Obj.get ps1 player = Some p') as Hp1 by apply get_set_eq.
  rewrite (set_fresh ps1 pid) by (by rewrite Hk1).
  rewrite del_app_present by (apply get_keys; by rewrite Hp1).
  destruct (keys_del ps1 player) as [HN3 Hsub]; [by rewrite Hk1|].
  fields. eapply (sound_intro g _ d); [done|done|exact Hd| |].
  - unfold table_cards. fields.
    rewrite renamed_melds_cards by (intros m; by destruct (decide _)).
    do 2 apply Permutation_app_head. apply Permutation_app_tail.
    rewrite hands_app. unfold hands at 2. simpl. rewrite app_nil_r.
    pose proof (hands_del ps1 player p' Hp1) as Hdel.
    change (Player.hand p') with (Player.hand p) in Hdel.
    rewrite Permutation_app_comm, <- Hdel.
    destruct (hands_set _ _ _ Hp) as (others & E1 & E2).
    unfold ps1. rewrite E1, E2. done.
  - fields. unfold Obj.keys. rewrite fmap_app. apply NoDup_app.
    split; [done|]. split; [|apply NoDup_singleton].
    intros x Hx Hx'. apply list_elem_of_singleton in Hx'. subst x.
    apply Hpid. rewrite <- Hk1. by apply Hsub.
Qed.

Lemma disconnect_sound g player :
  sound g -> sound (MayI.disconnect g player).2.
Proof.
  intros Hs. pose proof Hs as [HN (d & Hd & HP)].
  unfold MayI.disconnect.
  destruct (Obj.get (MayI.players g) player) as [p|] eqn:Hp; [|done].
  fields. destruct (hands_set _ _ _ Hp) as (others & E1 & E2).
  eapply (sound_intro g _ d); [done|done|exact Hd| |].
  - unfold table_cards. fields. by rewrite E1, E2.
  - fields. rewrite keys_set_present by (by rewrite Hp). done.
Qed.

Lemma deal_sound rnd g : ready g -> sound (MayI.deal rnd g).
Proof.
  intros (HN & Hh & Hm & Hlen).
  destruct (new_deck_perm rnd) as [Hperm _].
  destruct (deal_state rnd g Hlen) as (ps & x & pile & E & HF & HP & _).
  revert Hperm HP.
  generalize (Deck.deck (Deck.new suits ranks 2 true rnd)).
  intros fresh Hperm HP. rewrite E. clear E.
  rewrite Hh, Hperm in HP. split.
  - fields. by rewrite (dealt_keys _ _ _ HF).
  - eexists. split; [reflexivity|]. unfold table_cards. fields.
    rewrite Hm, <- HP. cbn [fmap list_fmap concat app].
    rewrite app_nil_r. float. f_equiv. apply Permutation_app_comm.
Qed.

Lemma fair_move_sound g g' : sound g -> fair_move g g' -> sound g'.
Proof.
  intros Hs Hm. destruct Hm.
  - by eapply draw_sound.
  - by apply discard_sound.
  - by eapply buy_sound.
  - by apply meld_sound.
  - by apply swapWithMeld_sound.
  - by apply addToMeld_sound.
  - by apply reconnect_sound.
  - by apply disconnect_sound.
Qed.

End Moves.

(** C8, counterexample. After the deal, the player in turn discards a card
    that is not in the hand: the card joins the discard pile and the table
    holds 105 cards. *)
Lemma foreign_discard_breaks_conservation :
  let g := (MayI.discard (MayI.deal Crowd.rnd Trio.game) "p0"
                         (card 999 RA Spades)).2 in
  reachable move g /\ ~ conserved g.
Proof.
  split.
  - eapply reachable_step; [|apply move_discard].
    apply reachable_deal. repeat split; [|vm_compute; lia].
    apply (bool_decide_unpack _). vm_compute. exact I.
  - intros (d & Hd & HP). apply Permutation_length in HP.
    vm_compute in Hd. injection Hd as <-. vm_compute in HP. discriminate.
Qed.

(** C8, amended. From the deal of a round to at most nine players, as long
    as every method is called on cards taken from where the rules take
    them, the draw pile, the discard pile, the hands and the melds hold
    together exactly the 104 cards of the deck, each once. *)
Theorem cards_conserved g : reachable fair_move g -> conserved g.
Proof.
  intros Hr. cut (sound g); [by intros [_ ?]|].
  induction Hr as [rnd g Hready|g g' _ IH Hm].
  - by apply deal_sound.
  - by apply (fair_move_sound g).
Qed.

Lemma cards_conserved_witness :
  conserved (MayI.draw (MayI.deal Crowd.rnd Trio.game) "p0" 1).2.
Proof.
  apply cards_conserved.
  apply (reachable_step fair_move (MayI.deal Crowd.rnd Trio.game)).
  - apply reachable_deal. repeat split; [|vm_compute; lia].
    apply (bool_decide_unpack _). vm_compute. exact I.
  - eapply fair_draw; [vm_compute; reflexivity|vm_compute; lia].
Defined.

Section DeckBuilding.

Lemma copies_loop_ids decks s r counter acc :
  (Deck.copies_loop decks s r counter acc).1 = counter + Z.of_nat decks /\
  card_id <$> (Deck.copies_loop decks s r counter acc).2 =
    (card_id <$> acc) ++ seqZ counter (Z.of_nat decks) /\
  (Forall (fun c => card_value c = values (card_rank c) /\
                    card_order c = order (card_rank c)) acc ->
   Forall (fun c => card_value c = values (card_rank c) /\
                    card_order c = order (card_rank c))
          (Deck.copies_loop decks s r counter acc).2).
Proof.
  revert counter acc. induction decks as [|n IH]; intros counter acc.
  - simpl. rewrite seqZ_nil, app_nil_r by lia. split; [lia|done].
  - cbn [Deck.copies_loop].
    destruct (IH (counter + 1)
                (acc ++ [mkCard counter r s (values r) (order r)]))
      as (H1 & H2 & H3).
    rewrite H1, H2. split; [lia|]. split.
    + rewrite fmap_app, <- app_assoc. f_equal. simpl.
      rewrite (seqZ_cons counter) by lia. do 2 f_equal; lia.
    + intros HF. apply H3, Forall_app. split; [done|]. by repeat constructor.
Qed.

Lemma ranks_loop_ids rs decks s counter acc :
  (Deck.ranks_loop rs decks s counter acc).1 =
    counter + Z.of_nat (length rs * decks) /\
  card_id <$> (Deck.ranks_loop rs decks s counter acc).2 =
    (card_id <$> acc) ++ seqZ counter (Z.of_nat (length rs * decks)) /\
  (Forall (fun c => card_value c = values (card_rank c) /\
                    card_order c = order (card_rank c)) acc ->
   Forall (fun c => card_value c = values (card_rank c) /\
                    card_order c = order (card_rank c))
          (Deck.ranks_loop rs decks s counter acc).2).
Proof.
  revert counter acc. induction rs as [|r rs IH]; intros counter acc.
  - simpl. rewrite app_nil_r. split; [lia|done].
  - cbn [Deck.ranks_loop].
    destruct (copies_loop_ids decks s r counter acc) as (H1 & H2 & H3).
    destruct (Deck.copies_loop decks s r counter acc) as [c1 a1].
    simpl in H1, H2, H3. subst c1.
    destruct (IH (counter + Z.of_nat decks) a1) as (G1 & G2 & G3).
    rewrite G1, G2, H2. split; [simpl; lia|]. split; [|by auto].
    rewrite <- app_assoc. f_equal.
    replace (Z.of_nat (length (r :: rs) * decks))
      with (Z.of_nat decks + Z.of_nat (length rs * decks)) by (simpl; lia).
    by rewrite seqZ_app by lia.
Qed.

Lemma suits_loop_ids ss rs decks counter acc :
  (Deck.suits_loop ss rs decks counter acc).1 =
    counter + Z.of_nat (length ss * (length rs * decks)) /\
  card_id <$> (Deck.suits_loop ss rs decks counter acc).2 =
    (card_id <$> acc) ++
    seqZ counter (Z.of_nat (length ss * (length rs * decks))) /\
  (Forall (fun c => card_value c = values (card_rank c) /\
                    card_order c = order (card_rank c)) acc ->
   Forall (fun c => card_value c = values (card_rank c) /\
                    card_order c = order (card_rank c))
          (Deck.suits_loop ss rs decks counter acc).2).
Proof.
  revert counter acc. induction ss as [|s ss IH]; intros counter acc.
  - simpl. rewrite app_nil_r. split; [lia|done].
  - cbn [Deck.suits_loop].
    destruct (ranks_loop_ids rs decks s counter acc) as (H1 & H2 & H3).
    destruct (Deck.ranks_loop rs decks s counter acc) as [c1 a1].
    simpl in H1, H2, H3. subst c1.
    destruct (IH (counter + Z.of_nat (length rs * decks)) a1)
      as (G1 & G2 & G3).
    rewrite G1, G2, H2. split; [simpl; lia|]. split; [|by auto].
    rewrite <- app_assoc. f_equal.
    replace (Z.of_nat (length (s :: ss) * (length rs * decks)))
      with (Z.of_nat (length rs * decks) +
            Z.of_nat (length ss * (length rs * decks))) by (simpl; lia).
    by rewrite seqZ_app by lia.
Qed.

End DeckBuilding.

(** X2. Whatever the suits, the ranks and the number of copies, the deck
    the constructor builds numbers its cards 1, 2, ... without a gap:
    unshuffled the ids read in that order, shuffled they are the same ids
    in some order. Every card carries the value and the order that the two
    tables give its rank, and the discard pile starts empty. *)
Theorem new_deck_ids ss rs decks do_shuffle rnd :
  let d := Deck.new ss rs decks do_shuffle rnd in
  let n := Z.of_nat (length ss * (length rs * decks)) in
  card_id <$> Deck.deck d ≡ₚ seqZ 1 n /\
  (do_shuffle = false -> card_id <$> Deck.deck d = seqZ 1 n) /\
  NoDup (card_id <$> Deck.deck d) /\
  Forall (fun c => card_value c = values (card_rank c) /\
                   card_order c = order (card_rank c)) (Deck.deck d) /\
  Deck.discarded d = [].
Proof.
  intros d n.
  destruct (suits_loop_ids ss rs decks 1 []) as (_ & Hids & Htab).
  simpl in Hids. specialize (Htab (Forall_nil_2 _)).
  assert (card_id <$> Deck.deck d ≡ₚ seqZ 1 n) as HP.
  { unfold d, Deck.new. destruct do_shuffle; simpl.
    - by rewrite shuffle_loop_perm, Hids.
    - by rewrite Hids. }
  split; [done|]. split.
  { intros ->. unfold d, Deck.new. simpl. exact Hids. }
  split; [rewrite HP; apply NoDup_seqZ|].
  split; [|unfold d, Deck.new; by destruct do_shuffle].
  unfold d, Deck.new. destruct do_shuffle; simpl; [|done].
  by rewrite shuffle_loop_perm.
Qed.

(** X1. [shuffle] rearranges the draw pile and nothing else: the pile holds
    the same cards as before, as many as before, and the discard pile is
    left alone. *)
Theorem shuffle_permutes rnd d :
  Deck.deck (Deck.shuffle rnd d) ≡ₚ Deck.deck d /\
  length (Deck.deck (Deck.shuffle rnd d)) = length (Deck.deck d) /\
  Deck.discarded (Deck.shuffle rnd d) = Deck.discarded d.
Proof.
  assert (Deck.deck (Deck.shuffle rnd d) ≡ₚ Deck.deck d) as HP
    by apply shuffle_loop_perm.
  split; [done|]. split; [by rewrite HP|done].
Qed.
Section Validator.

Lemma isSet_loop_val val cards :
  val <> 0 ->
  (forall c, c ∈ cards -> card_order c <> 0) ->
  Meld.isSet_loop val cards = true <->
  (forall c, c ∈ cards -> is_wild c = false -> card_order c = val).
Proof.
  intros Hval. induction cards as [|c rest IH]; intros Hnz.
  - simpl. split; [|done]. intros _ c Hc. by apply elem_of_nil in Hc.
  - assert (forall c, c ∈ rest -> card_order c <> 0) as Hnz'
      by (intros; apply Hnz; by right).
    specialize (IH Hnz'). cbn [Meld.isSet_loop].
    destruct (card_order c =? 2) eqn:Hw.
    + rewrite IH. split.
      * intros H x Hx Hx'. apply elem_of_cons in Hx as [->|Hx]; [|by auto].
        unfold is_wild in Hx'. congruence.
      * intros H x Hx. apply H. by right.
    + destruct (val =? 0) eqn:Hz; [lia|].
      destruct (val =? card_order c) eqn:He; simpl.
      * rewrite IH. split.
        -- intros H x Hx Hx'. apply elem_of_cons in Hx as [->|Hx]; [lia|auto].
        -- intros H x Hx. apply H. by right.
      * split; [done|]. intros H.
        specialize (H c (list_elem_of_here _ _) Hw). lia.
Qed.

Lemma isSet_loop_zero cards :
  (forall c, c ∈ cards -> card_order c <> 0) ->
  Meld.isSet_loop 0 cards = true <->
  (forall a b, a ∈ cards -> b ∈ cards ->
               is_wild a = false -> is_wild b = false ->
               card_order a = card_order b).
Proof.
  induction cards as [|c rest IH]; intros Hnz.
  - simpl. split; [|done]. intros _ a b Ha. by apply elem_of_nil in Ha.
  - assert (forall c, c ∈ rest -> card_order c <> 0) as Hnz'
      by (intros; apply Hnz; by right).
    cbn [Meld.isSet_loop]. destruct (card_order c =? 2) eqn:Hw.
    + rewrite (IH Hnz'). split.
      * intros H a b Ha Hb Hwa Hwb.
        apply elem_of_cons in Ha as [->|Ha];
          [unfold is_wild in Hwa; congruence|].
        apply elem_of_cons in Hb as [->|Hb];
          [unfold is_wild in Hwb; congruence|]. by apply H.
      * intros H a b Ha Hb. apply H; by right.
    + replace (0 =? 0) with true by done.
      rewrite isSet_loop_val; [|apply Hnz; by left|done]. split.
      * intros H a b Ha Hb Hwa Hwb.
        apply elem_of_cons in Ha as [->|Ha];
          apply elem_of_cons in Hb as [->|Hb]; try done.
        -- symmetry. by apply H.
        -- by apply H.
        -- rewrite (H a), (H b); done.
      * intros H x Hx Hwx. apply H; [by right|by left|done|done].
Qed.

Lemma isSet_perm l l' :
  (forall c, c ∈ l -> card_order c <> 0) ->
  l ≡ₚ l' -> Meld.isSet l = Meld.isSet l'.
Proof.
  intros Hnz HP.
  assert (forall c, c ∈ l' -> card_order c <> 0) as Hnz'
    by (intros c Hc; apply Hnz; by rewrite HP).
  apply eq_true_iff_eq. unfold Meld.isSet.
  rewrite !isSet_loop_zero by done.
  split; intros H a b Ha Hb; apply H; by rewrite ?HP in *.
Qed.

Lemma filter_Permutation {A} (P : A -> bool) l l' :
  l ≡ₚ l' -> List.filter P l ≡ₚ List.filter P l'.
Proof.
  induction 1 as [|x l l' _ IH|x y l|l l' l'' _ IH1 _ IH2]; simpl.
  - done.
  - destruct (P x); by rewrite IH.
  - destruct (P x), (P y); try done. apply perm_swap.
  - by rewrite IH1.
Qed.

Lemma sorted_orders_perm l l' :
  l ≡ₚ l' ->
  card_order <$> sort_by_order l = card_order <$> sort_by_order l'.
Proof.
  intros HP.
  apply (StronglySorted_unique Z.le).
  - apply (StronglySorted_fmap card_order le_order Z.le);
      [by intros a b|apply sort_by_order_sorted].
  - apply (StronglySorted_fmap card_order le_order Z.le);
      [by intros a b|apply sort_by_order_sorted].
  - by rewrite !sort_by_order_perm, HP.
Qed.

Lemma run_rule_perm l l' : l ≡ₚ l' -> run_rule l -> run_rule l'.
Proof.
  intros HP [Hsuit Hfill]. unfold run_rule.
  assert (List.filter not_wild l ≡ₚ List.filter not_wild l') as HPn
    by by apply filter_Permutation.
  assert (List.filter is_wild l ≡ₚ List.filter is_wild l') as HPw
    by by apply filter_Permutation.
  split.
  - intros a b Ha Hb.
    assert (sort_by_order (List.filter not_wild l')
              ≡ₚ sort_by_order (List.filter not_wild l)) as HPs
      by (by rewrite !sort_by_order_perm).
    apply Hsuit; by apply (elem_of_Permutation_proper _ _ _ HPs).
  - rewrite <- (sorted_orders_perm _ _ HPn), <- (Permutation_length HPw).
    exact Hfill.
Qed.

Lemma isRun_perm l l' : l ≡ₚ l' -> Meld.isRun l = Meld.isRun l'.
Proof.
  intros HP. apply eq_true_iff_eq. rewrite !isRun_iff.
  split; apply run_rule_perm; done.
Qed.

Lemma isRun_all_wild cards :
  (forall c, c ∈ cards -> is_wild c = true) -> Meld.isRun cards = true.
Proof.
  intros Hw. apply isRun_iff. unfold run_rule.
  rewrite (filter_none not_wild).
  - simpl. split; [|done]. intros a b Ha. by apply elem_of_nil in Ha.
  - intros x Hx. unfold not_wild. by rewrite (Hw x Hx).
Qed.

Lemma isSet_loop_all_wild val cards :
  (forall c, c ∈ cards -> is_wild c = true) ->
  Meld.isSet_loop val cards = true.
Proof.
  induction cards as [|c rest IH]; intros Hw; [done|].
  cbn [Meld.isSet_loop].
  pose proof (Hw c (list_elem_of_here _ _)) as Hc. unfold is_wild in Hc.
  rewrite Hc. apply IH. intros; apply Hw; by right.
Qed.

End Validator.

(** X3. What [isSet] decides, for cards whose order is never 0 (no card of
    a deck has order 0): the group is a set exactly when all its cards
    that are not wild have the same order. Suits and the number of cards
    play no part. *)
Theorem isSet_same_order cards :
  (forall c, c ∈ cards -> card_order c <> 0) ->
  Meld.isSet cards = true <->
  (forall a b, a ∈ cards -> b ∈ cards ->
               is_wild a = false -> is_wild b = false ->
               card_order a = card_order b).
Proof. apply isSet_loop_zero. Qed.

Lemma isSet_same_order_witness :
  Meld.isSet [card 1 R7 Hearts; card 2 R2 Clubs; card 3 R7 Spades] = true <->
  (forall a b,
     a ∈ [card 1 R7 Hearts; card 2 R2 Clubs; card 3 R7 Spades] ->
     b ∈ [card 1 R7 Hearts; card 2 R2 Clubs; card 3 R7 Spades] ->
     is_wild a = false -> is_wild b = false ->
     card_order a = card_order b).
Proof.
  apply (isSet_same_order
           [card 1 R7 Hearts; card 2 R2 Clubs; card 3 R7 Spades]).
  intros c Hc. repeat (apply elem_of_cons in Hc as [->|Hc]; [done|]).
  by apply elem_of_nil in Hc.
Defined.

(** X4. A group made of wild cards only, the empty group among them, passes
    both checks: the constructor never throws on it and types the meld
    EITHER. *)
Theorem new_all_wild id cards p :
  (forall c, c ∈ cards -> is_wild c = true) ->
  Meld.new id cards p = Some (Meld.mk id cards Meld.EITHER p).
Proof.
  intros Hw. unfold Meld.new, Meld.isSet.
  by rewrite isRun_all_wild, isSet_loop_all_wild.
Qed.

Lemma new_all_wild_witness :
  Meld.new (Some 4) [card 5 R2 Hearts; card 57 R2 Clubs] None =
  Some (Meld.mk (Some 4) [card 5 R2 Hearts; card 57 R2 Clubs]
          Meld.EITHER None).
Proof.
  apply (new_all_wild (Some 4) [card 5 R2 Hearts; card 57 R2 Clubs] None).
  intros c Hc. repeat (apply elem_of_cons in Hc as [->|Hc]; [done|]).
  by apply elem_of_nil in Hc.
Defined.

(** X5. The verdicts do not depend on the sequence the cards are handed
    over in: two arrangements of the same cards are both runs or both not,
    and, when no card has order 0, both sets or both not. The constructor
    then accepts both or throws on both, and gives both the same type. *)
Theorem validation_order_free l l' :
  l ≡ₚ l' ->
  Meld.isRun l = Meld.isRun l' /\
  ((forall c, c ∈ l -> card_order c <> 0) ->
   Meld.isSet l = Meld.isSet l' /\
   forall id p,
     Meld.meld_type <$> Meld.new id l p = Meld.meld_type <$> Meld.new id l' p).
Proof.
  intros HP. split; [by apply isRun_perm|]. intros Hnz.
  pose proof (isRun_perm _ _ HP) as HR.
  pose proof (isSet_perm _ _ Hnz HP) as HS.
  split; [done|]. intros id p. unfold Meld.new. rewrite <- HR, <- HS.
  by destruct (Meld.isRun l), (Meld.isSet l).
Qed.

Lemma validation_order_free_witness :
  Meld.isRun [card 9 R9 Hearts; card 5 R2 Clubs; card 7 R7 Hearts] =
  Meld.isRun [card 7 R7 Hearts; card 9 R9 Hearts; card 5 R2 Clubs] /\
  ((forall c, c ∈ [card 9 R9 Hearts; card 5 R2 Clubs; card 7 R7 Hearts] ->
              card_order c <> 0) ->
   Meld.isSet [card 9 R9 Hearts; card 5 R2 Clubs; card 7 R7 Hearts] =
   Meld.isSet [card 7 R7 Hearts; card 9 R9 Hearts; card 5 R2 Clubs] /\
   forall id p,
     Meld.meld_type <$>
       Meld.new id [card 9 R9 Hearts; card 5 R2 Clubs; card 7 R7 Hearts] p =
     Meld.meld_type <$>
       Meld.new id [card 7 R7 Hearts; card 9 R9 Hearts; card 5 R2 Clubs] p).
Proof.
  apply (validation_order_free
           [card 9 R9 Hearts; card 5 R2 Clubs; card 7 R7 Hearts]
           [card 7 R7 Hearts; card 9 R9 Hearts; card 5 R2 Clubs]).
  apply (bool_decide_unpack _). vm_compute. exact I.
Defined.

(** X6. [addCard] takes the card exactly when the cards of the meld with
    the new card after them make a valid group. A refused card leaves the
    meld as it was. An accepted card joins the cards of the meld, which
    are then sorted by order; id, type and owner of the meld stay, and,
    when no card has order 0, the cards of the meld are still a valid
    group. *)
Theorem addCard_effect m c :
  let r := Meld.addCard m c in
  (r.1 = true <-> valid_group (Meld.meld_cards m ++ [c]) = true) /\
  (r.1 = false -> r.2 = m) /\
  (r.1 = true ->
   Meld.meld_cards r.2 ≡ₚ c :: Meld.meld_cards m /\
   StronglySorted le_order (Meld.meld_cards r.2) /\
   Meld.meld_id r.2 = Meld.meld_id m /\
   Meld.meld_type r.2 = Meld.meld_type m /\
   Meld.meld_playerID r.2 = Meld.meld_playerID m /\
   ((forall x, x ∈ c :: Meld.meld_cards m -> card_order x <> 0) ->
    valid_group (Meld.meld_cards r.2) = true)).
Proof.
  intros r. unfold r, Meld.addCard.
  pose proof (new_is_Some None (Meld.meld_cards m ++ [c]) None) as HN.
  destruct (Meld.new None (Meld.meld_cards m ++ [c]) None) as [m'|]; simpl.
  - assert (valid_group (Meld.meld_cards m ++ [c]) = true) as Hv
      by (apply HN; eauto).
    split; [done|]. split; [done|]. intros _.
    assert (sort_by_order (Meld.meld_cards m ++ [c])
              ≡ₚ c :: Meld.meld_cards m) as HP.
    { rewrite sort_by_order_perm. by rewrite Permutation_app_comm. }
    split; [done|]. split; [apply sort_by_order_sorted|].
    do 3 (split; [done|]). intros Hnz.
    pose proof (sort_by_order_perm (Meld.meld_cards m ++ [c])) as HP'.
    assert (forall x, x ∈ sort_by_order (Meld.meld_cards m ++ [c]) ->
                      card_order x <> 0) as Hnz'.
    { intros x Hx. apply Hnz.
      by apply (elem_of_Permutation_proper _ _ _ HP). }
    unfold valid_group in *.
    rewrite (isRun_perm _ _ HP'), (isSet_perm _ _ Hnz' HP'). done.
  - split; [|done]. split; [done|]. intros Hv. apply HN in Hv.
    by destruct Hv.
Qed.
Section Seats.

Lemma filter_drop_id (cs l1 l2 : list Card) (x : Card) :
  NoDup (card_id <$> cs) -> cs = l1 ++ x :: l2 ->
  List.filter (fun c => negb (card_id c =? card_id x)) cs = l1 ++ l2.
Proof.
  intros HN ->. rewrite fmap_app, fmap_cons in HN.
  apply NoDup_app in HN as (HN1 & Hdis & HN2).
  apply NoDup_cons in HN2 as [Hx _].
  rewrite List.filter_app. cbn [List.filter].
  rewrite Z.eqb_refl. cbn [negb]. f_equal; apply filter_all.
  - intros c Hc. apply negb_true_iff, Z.eqb_neq. intros He.
    apply (Hdis (card_id c)); [by apply list_elem_of_fmap_2|].
    rewrite He. by left.
  - intros c Hc. apply negb_true_iff, Z.eqb_neq. intros He.
    apply Hx. rewrite <- He. by apply list_elem_of_fmap_2.
Qed.

Lemma iter_incrementTurn_fields k g :
  let g' := Nat.iter k MayI.incrementTurn g in
  MayI.players g' = MayI.players g /\
  MayI.connectedPlayerCount g' = MayI.connectedPlayerCount g /\
  MayI.deck g' = MayI.deck g /\ MayI.round g' = MayI.round g /\
  MayI.turnOrder g' = MayI.turnOrder g /\ MayI.melds g' = MayI.melds g.
Proof.
  cbv zeta. induction k as [|k IH]; [done|]. rewrite !Nat.iter_succ.
  destruct IH as (H1 & H2 & H3 & H4 & H5 & H6).
  generalize dependent (Nat.iter k MayI.incrementTurn g). intros g1.
  intros. unfold MayI.incrementTurn.
  by destruct (Z.of_nat (MayI.turn g1) =? _); cbn.
Qed.

Lemma incrementTurn_turn g :
  let n := length (Obj.keys (MayI.players g)) in
  (MayI.turn g < n)%nat ->
  MayI.turn (MayI.incrementTurn g) = ((MayI.turn g + 1) mod n)%nat.
Proof.
  intros n Hlt. unfold MayI.incrementTurn. fold n.
  destruct (Z.of_nat (MayI.turn g) =? Z.of_nat n - 1) eqn:He; cbn.
  - apply Z.eqb_eq in He.
    replace (MayI.turn g + 1)%nat with n by lia.
    by rewrite Nat.Div0.mod_same.
  - apply Z.eqb_neq in He. rewrite Nat.mod_small; lia.
Qed.

Lemma iter_incrementTurn_turn k g :
  let n := length (Obj.keys (MayI.players g)) in
  (MayI.turn g < n)%nat ->
  MayI.turn (Nat.iter k MayI.incrementTurn g) = ((MayI.turn g + k) mod n)%nat.
Proof.
  intros n Hlt. induction k as [|k IH].
  - change (Nat.iter 0 MayI.incrementTurn g) with g.
    rewrite Nat.add_0_r, Nat.mod_small; lia.
  - rewrite Nat.iter_succ.
    destruct (iter_incrementTurn_fields k g) as (Hp & _).
    rewrite incrementTurn_turn; rewrite Hp; fold n.
    + rewrite IH. rewrite Nat.Div0.add_mod_idemp_l. f_equal; lia.
    + rewrite IH. apply Nat.mod_upper_bound. lia.
Qed.

Lemma iter_incrementTurn_past k g :
  (length (Obj.keys (MayI.players g)) <= MayI.turn g)%nat ->
  MayI.turn (Nat.iter k MayI.incrementTurn g) = (MayI.turn g + k)%nat.
Proof.
  intros Hge. induction k as [|k IH].
  { change (Nat.iter 0 MayI.incrementTurn g) with g. lia. }
  rewrite Nat.iter_succ.
  destruct (iter_incrementTurn_fields k g) as (Hp & _).
  unfold MayI.incrementTurn at 1. rewrite Hp, IH.
  destruct (Z.of_nat (MayI.turn g + k) =? _) eqn:He;
    [apply Z.eqb_eq in He; lia|cbn; lia].
Qed.

Lemma keys_set_absent {V} (o : Obj.t V) k v :
  Obj.get o k = None -> Obj.keys (Obj.set o k v) = Obj.keys o ++ [k].
Proof.
  induction o as [|[k' v'] o IH]; simpl; [done|].
  destruct (decide (k' = k)); [done|]. intros H. simpl. by rewrite IH.
Qed.

Lemma get_None_keys {V} (o : Obj.t V) k :
  Obj.get o k = None <-> k ∉ Obj.keys o.
Proof.
  induction o as [|[k' v'] o IH]; simpl.
  - split; [intros _ H; by apply elem_of_nil in H|done].
  - destruct (decide (k' = k)) as [->|Hne].
    + split; [done|]. intros H. destruct H. by left.
    + rewrite IH, not_elem_of_cons.
      split; [intros; split; [congruence|done]|by intros [_ ?]].
Qed.

End Seats.

(** X7. [removeCard] on a hand of cards with distinct ids and no empty slot
    never throws. When a card of the hand has the id of the argument, that
    one card leaves the hand and the other cards keep their places in
    sequence; when none has, the hand is left as it was. Nothing else of
    the player changes. *)
Theorem removeCard_effect p c cs :
  Player.hand p = Some <$> cs ->
  NoDup (card_id <$> cs) ->
  (forall l1 x l2,
     cs = l1 ++ x :: l2 -> card_id x = card_id c ->
     Player.removeCard p c =
       (Return tt, Player.set_hand p (Some <$> (l1 ++ l2)))) /\
  ((forall x, x ∈ cs -> card_id x <> card_id c) ->
   Player.removeCard p c = (Return tt, p)).
Proof.
  intros Hh HN. unfold Player.removeCard. rewrite Hh.
  rewrite remove_loop_NoDup by done. split.
  - intros l1 x l2 Hcs Hid. rewrite <- Hid.
    by rewrite (filter_drop_id cs l1 l2 x).
  - intros Hno. rewrite filter_all.
    + rewrite <- Hh. by destruct p.
    + intros x Hx. apply negb_true_iff, Z.eqb_neq. by apply Hno.
Qed.

Lemma removeCard_effect_witness :
  (forall l1 x l2,
     [card 4 R4 Hearts; card 9 R9 Clubs; card 11 RJ Spades]
       = l1 ++ x :: l2 ->
     card_id x = card_id (card 9 R9 Clubs) ->
     Player.removeCard
       (Player.mk "ann" None "Ann" 6 0
          (Some <$> [card 4 R4 Hearts; card 9 R9 Clubs; card 11 RJ Spades]))
       (card 9 R9 Clubs) =
       (Return tt,
        Player.set_hand
          (Player.mk "ann" None "Ann" 6 0
             (Some <$> [card 4 R4 Hearts; card 9 R9 Clubs;
                        card 11 RJ Spades]))
          (Some <$> (l1 ++ l2)))) /\
  ((forall x, x ∈ [card 4 R4 Hearts; card 9 R9 Clubs; card 11 RJ Spades] ->
              card_id x <> card_id (card 9 R9 Clubs)) ->
   Player.removeCard
     (Player.mk "ann" None "Ann" 6 0
        (Some <$> [card 4 R4 Hearts; card 9 R9 Clubs; card 11 RJ Spades]))
     (card 9 R9 Clubs) =
     (Return tt,
      Player.mk "ann" None "Ann" 6 0
        (Some <$> [card 4 R4 Hearts; card 9 R9 Clubs; card 11 RJ Spades]))).
Proof.
  apply (removeCard_effect
           (Player.mk "ann" None "Ann" 6 0
              (Some <$> [card 4 R4 Hearts; card 9 R9 Clubs;
                         card 11 RJ Spades]))
           (card 9 R9 Clubs)
           [card 4 R4 Hearts; card 9 R9 Clubs; card 11 RJ Spades]).
  - reflexivity.
  - apply (bool_decide_unpack _). vm_compute. exact I.
Defined.

(** X8. While the turn index points at a seat, [incrementTurn] moves it to
    the next seat and from the last seat back to the first, and touches
    nothing else: as many calls as there are players bring the game back
    to where it was. *)
Theorem incrementTurn_cycle g :
  let n := length (Obj.keys (MayI.players g)) in
  (MayI.turn g < n)%nat ->
  MayI.turn (MayI.incrementTurn g) = ((MayI.turn g + 1) mod n)%nat /\
  (MayI.turn (MayI.incrementTurn g) < n)%nat /\
  Nat.iter n MayI.incrementTurn g = g.
Proof.
  intros n Hlt. split; [by apply incrementTurn_turn|]. split.
  - rewrite incrementTurn_turn by done. apply Nat.mod_upper_bound. lia.
  - pose proof (iter_incrementTurn_turn n g Hlt) as Ht. fold n in Ht.
    destruct (iter_incrementTurn_fields n g) as (H1 & H2 & H3 & H4 & H5 & H6).
    replace ((MayI.turn g + n) mod n)%nat with (MayI.turn g) in Ht.
    2:{ rewrite <- Nat.Div0.add_mod_idemp_r, Nat.Div0.mod_same, Nat.add_0_r.
        by rewrite Nat.mod_small. }
    destruct (Nat.iter n MayI.incrementTurn g), g. cbn in *. congruence.
Qed.

Lemma incrementTurn_cycle_witness :
  MayI.turn (MayI.incrementTurn Table.game) =
    ((MayI.turn Table.game + 1)
       mod length (Obj.keys (MayI.players Table.game)))%nat /\
  (MayI.turn (MayI.incrementTurn Table.game) <
     length (Obj.keys (MayI.players Table.game)))%nat /\
  Nat.iter (length (Obj.keys (MayI.players Table.game)))
    MayI.incrementTurn Table.game = Table.game.
Proof. apply (incrementTurn_cycle Table.game). vm_compute. lia. Defined.

(** X9. Once the turn index is at or past the number of players (a game
    without players, or one that lost a player record), [incrementTurn]
    only counts up: after k calls the index is k higher, and from the call
    on that takes it past the end of the turn order no player is in turn
    any more. *)
Theorem incrementTurn_runs_away g k :
  (length (Obj.keys (MayI.players g)) <= MayI.turn g)%nat ->
  let g' := Nat.iter k MayI.incrementTurn g in
  MayI.turn g' = (MayI.turn g + k)%nat /\
  MayI.turnOrder g' = MayI.turnOrder g /\
  ((length (MayI.turnOrder g) <= MayI.turn g + k)%nat ->
   MayI.turnOrder g' !! MayI.turn g' = None).
Proof.
  intros Hge g'. unfold g'.
  rewrite iter_incrementTurn_past by done. split; [done|].
  destruct (iter_incrementTurn_fields k g) as (_ & _ & _ & _ & Ho & _).
  rewrite Ho. split; [done|]. intros Hlen. by apply lookup_ge_None.
Qed.

Lemma incrementTurn_runs_away_witness :
  MayI.turn (Nat.iter 5 MayI.incrementTurn MayI.new) = (0 + 5)%nat /\
  MayI.turnOrder (Nat.iter 5 MayI.incrementTurn MayI.new) = [] /\
  ((length (MayI.turnOrder MayI.new) <= 0 + 5)%nat ->
   MayI.turnOrder (Nat.iter 5 MayI.incrementTurn MayI.new)
     !! MayI.turn (Nat.iter 5 MayI.incrementTurn MayI.new) = None).
Proof.
  apply (incrementTurn_runs_away MayI.new 5). vm_compute. lia.
Defined.

(** X10. Joining under an id that is already seated changes nothing: the
    socket id and the name of the second call are dropped and the first
    player record stays. *)
Theorem addPlayer_twice g id sid name sid' name' :
  MayI.addPlayer (MayI.addPlayer g id sid name) id sid' name' =
  MayI.addPlayer g id sid name.
Proof.
  destruct (Obj.get (MayI.players g) id) as [p|] eqn:Hg.
  - assert (MayI.addPlayer g id sid name = g) as ->
      by (unfold MayI.addPlayer; by rewrite Hg).
    unfold MayI.addPlayer. by rewrite Hg.
  - unfold MayI.addPlayer. rewrite Hg. cbn [MayI.players].
    by rewrite get_set_eq.
Qed.

Lemma lobby_shape g :
  lobby g ->
  MayI.turnOrder g = Obj.keys (MayI.players g) /\
  NoDup (MayI.turnOrder g) /\
  MayI.connectedPlayerCount g = Z.of_nat (length (MayI.turnOrder g)) /\
  (forall k p, Obj.get (MayI.players g) k = Some p ->
     Player.id p = k /\ Player.buys p = 6 /\ Player.points p = 0 /\
     Player.hand p = []) /\
  MayI.deck g = None /\ MayI.melds g = [] /\
  MayI.round g = 1 /\ MayI.turn g = 0%nat.
Proof.
  induction 1 as [|g id sid name _ IH].
  - cbn. split; [done|]. split; [constructor|]. done.
  - destruct IH as (Hk & HN & Hc & Hp & Hd & Hm & Hr & Ht).
    unfold MayI.addPlayer.
    destruct (Obj.get (MayI.players g) id) as [p|] eqn:Hg; [done|].
    cbn [MayI.players MayI.turnOrder MayI.connectedPlayerCount MayI.deck
         MayI.melds MayI.round MayI.turn].
    split; [by rewrite keys_set_absent, Hk|]. split.
    { apply NoDup_app. split; [done|]. split; [|apply NoDup_singleton].
      intros x Hx Hx'. apply list_elem_of_singleton in Hx' as ->.
      rewrite Hk in Hx. by apply get_None_keys in Hg. }
    split; [rewrite length_app; simpl; lia|].
    split; [|done].
    intros k p. destruct (decide (k = id)) as [->|Hne].
    + rewrite get_set_eq. by intros [= <-].
    + rewrite get_set_ne by done. apply Hp.
Qed.

(** X11. In every game built from a new game by [addPlayer] calls, the
    turn order holds the keys of the player table, each once; the
    connection count is the number of players; every player sits under
    their own id with six buys, no points and an empty hand; and there is
    no deck, no meld, the round is 1 and the turn 0. *)
Theorem lobby_invariant g :
  lobby g ->
  MayI.turnOrder g ≡ₚ Obj.keys (MayI.players g) /\
  NoDup (MayI.turnOrder g) /\
  MayI.connectedPlayerCount g = Z.of_nat (length (MayI.turnOrder g)) /\
  (forall k p, Obj.get (MayI.players g) k = Some p ->
     Player.id p = k /\ Player.buys p = 6 /\ Player.points p = 0 /\
     Player.hand p = []) /\
  MayI.deck g = None /\ MayI.melds g = [] /\
  MayI.round g = 1 /\ MayI.turn g = 0%nat.
Proof.
  intros Hl. destruct (lobby_shape g Hl) as (Hk & H). by rewrite <- Hk.
Qed.

Lemma lobby_invariant_witness :
  MayI.turnOrder Trio.game ≡ₚ Obj.keys (MayI.players Trio.game) /\
  NoDup (MayI.turnOrder Trio.game) /\
  MayI.connectedPlayerCount Trio.game =
    Z.of_nat (length (MayI.turnOrder Trio.game)) /\
  (forall k p, Obj.get (MayI.players Trio.game) k = Some p ->
     Player.id p = k /\ Player.buys p = 6 /\ Player.points p = 0 /\
     Player.hand p = []) /\
  MayI.deck Trio.game = None /\ MayI.melds Trio.game = [] /\
  MayI.round Trio.game = 1 /\ MayI.turn Trio.game = 0%nat.
Proof.
  apply (lobby_invariant Trio.game).
  unfold Trio.game. cbn [foldl]. repeat apply lobby_join. apply lobby_new.
Defined.
Section Buying.

Lemma pop_snoc {A} (l : list A) x : pop (l ++ [x]) = Some (x, l).
Proof.
  induction l as [|y t IH]; simpl; [done|]. by rewrite IH.
Qed.

Lemma draw_one g x q d :
  Obj.get (MayI.players g) x = Some q -> MayI.deck g = Some d ->
  MayI.draw g x 1 =
    (Return tt,
     MayI.set_deck
       (MayI.set_players g
          (Obj.set (MayI.players g) x
             (Player.addCard q (head (Deck.deck d)))))
       (Some (Deck.mk (tail (Deck.deck d)) (Deck.discarded d)))).
Proof.
  intros Hq Hd. cbn [MayI.draw]. rewrite Hq, Hd. unfold Deck.drawCard.
  destruct d as [[|c pile] disc]; reflexivity.
Qed.

Lemma buy_step g x q d rest top :
  Obj.get (MayI.players g) x = Some q -> Player.buys q <> 0 ->
  MayI.deck g = Some d -> Deck.discarded d = rest ++ [top] ->
  MayI.buy g x =
    (Return None,
     MayI.mk
       (Obj.set (MayI.players g) x
          (Player.mk (Player.id q) (Player.socketId q) (Player.name q)
             (Player.buys q - 1) (Player.points q)
             (Player.hand q ++ [top; head (Deck.deck d)])))
       (MayI.connectedPlayerCount g)
       (Some (Deck.mk (tail (Deck.deck d)) rest))
       (MayI.round g) (MayI.turn g) (MayI.turnOrder g) (MayI.melds g)).
Proof.
  intros Hq Hb Hd Hdisc. unfold MayI.buy. rewrite Hq.
  destruct (Player.buys q =? 0) eqn:E; [apply Z.eqb_eq in E; done|].
  cbn [MayI.deck MayI.set_players]. rewrite Hd, Hdisc, pop_snoc.
  erewrite draw_one;
    [|cbn [MayI.players MayI.set_deck MayI.set_players];
      by rewrite get_set_eq|reflexivity].
  cbn [MayI.players MayI.set_deck MayI.set_players MayI.connectedPlayerCount
       MayI.deck MayI.round MayI.turn MayI.turnOrder MayI.melds
       Deck.deck Deck.discarded].
  rewrite !set_set. unfold Player.addCard, Player.set_hand, Player.set_buys.
  cbn [Player.id Player.socketId Player.name Player.buys Player.points
       Player.hand].
  by rewrite <- app_assoc.
Qed.

Lemma determineBuy_loop_Some g cands buyOrder len x :
  MayI.determineBuy_loop g cands buyOrder len = Return (Some x) ->
  x ∈ cands /\ x ∈ buyOrder /\
  exists p, Obj.get (MayI.players g) x = Some p /\ 0 < Player.buys p.
Proof.
  revert len. induction buyOrder as [|y t IH]; intros len.
  - by destruct len.
  - destruct len as [|n]; [done|]. cbn [MayI.determineBuy_loop].
    destruct (bool_decide (y ∈ cands)) eqn:Hin.
    + destruct (Obj.get (MayI.players g) y) as [p|] eqn:Hp; [|done].
      destruct (Player.buys p >? 0) eqn:Hb.
      * intros [= <-]. apply bool_decide_eq_true in Hin.
        split; [done|]. split; [by left|]. exists p. split; [done|lia].
      * intros H. destruct (IH _ H) as (? & ? & ?).
        split; [done|]. split; [by right|done].
    + intros H. destruct (IH _ H) as (? & ? & ?).
      split; [done|]. split; [by right|done].
Qed.









Lemma incrementTurn_players g :
  MayI.players (MayI.incrementTurn g) = MayI.players g.
Proof.
  unfold MayI.incrementTurn.
  by destruct (Z.of_nat (MayI.turn g) =? _).
Qed.



End Buying.

(** X12. [draw] for a player of the game, with a deck in place, never
    throws: the cards leave the front of the draw pile and go in that
    sequence to the end of the hand. When the pile has fewer cards than
    asked for, every missing card is an empty slot in the hand. No other
    player and no other part of the game changes. *)
Theorem draw_effect g x p d qty :
  Obj.get (MayI.players g) x = Some p -> MayI.deck g = Some d ->
  MayI.draw g x qty =
    (Return tt,
     MayI.set_deck
       (MayI.set_players g
          (Obj.set (MayI.players g) x
             (Player.set_hand p
                (Player.hand p ++ (Some <$> take qty (Deck.deck d)) ++
                 replicate (qty - length (Deck.deck d)) None))))
       (Some (Deck.mk (drop qty (Deck.deck d)) (Deck.discarded d)))).
Proof.
  revert g p d. induction qty as [|n IH]; intros g p d Hp Hd.
  - cbn [MayI.draw]. rewrite take_0, drop_0. simpl. rewrite app_nil_r.
    rewrite set_hand_same, (set_same _ _ _ Hp).
    destruct g, d. cbn in *. by rewrite Hd.
  - cbn [MayI.draw]. rewrite Hp, Hd.
    destruct (Deck.drawCard d) as [c d'] eqn:Hdraw.
    erewrite IH;
      [|cbn [MayI.players MayI.set_deck MayI.set_players];
        apply get_set_eq|reflexivity].
    cbn [MayI.players MayI.set_deck MayI.set_players
         MayI.connectedPlayerCount MayI.deck MayI.round MayI.turn
         MayI.turnOrder MayI.melds].
    rewrite set_set. unfold Deck.drawCard in Hdraw.
    destruct d as [[|y pile] disc]; cbn [Deck.deck Deck.discarded] in *;
      injection Hdraw as <- <-; cbn [Deck.deck Deck.discarded];
      unfold Player.addCard, Player.set_hand;
      cbn [Player.id Player.socketId Player.name Player.buys Player.points
           Player.hand].
    + rewrite take_nil, drop_nil. cbn [fmap list_fmap length app].
      rewrite !Nat.sub_0_r. by rewrite <- app_assoc.
    + rewrite firstn_cons, skipn_cons, fmap_cons. cbn [length Nat.sub].
      by rewrite <- app_assoc.
Qed.

Lemma draw_effect_witness :
  MayI.draw Table.game "carol" 2 =
    (Return tt,
     MayI.set_deck
       (MayI.set_players Table.game
          (Obj.set (MayI.players Table.game) "carol"
             (Player.set_hand (Player.mk "carol" (Some "s3"%string) "Carol" 4 0
                                 Table.carol_hand)
                (Player.hand (Player.mk "carol" (Some "s3"%string) "Carol" 4 0
                                Table.carol_hand) ++
                 (Some <$> take 2 (Deck.deck Table.pile)) ++
                 replicate (2 - length (Deck.deck Table.pile)) None))))
       (Some (Deck.mk (drop 2 (Deck.deck Table.pile))
                (Deck.discarded Table.pile)))).
Proof.
  apply (draw_effect Table.game "carol"
           (Player.mk "carol" (Some "s3"%string) "Carol" 4 0 Table.carol_hand)
           Table.pile 2); reflexivity.
Defined.

(** X13. [buy] for a player of the game, with a deck in place. With no buy
    left it returns false and changes nothing. With a buy left it takes
    one buy, moves the card on top of the discard pile to the end of the
    hand and the card at the front of the draw pile after it; an empty
    draw pile leaves an empty slot in the hand instead. With an empty
    discard pile the call goes through all the same: the buy is spent
    and the slot of the bought card is empty. *)
Theorem buy_effect g x q d :
  Obj.get (MayI.players g) x = Some q -> MayI.deck g = Some d ->
  (Player.buys q = 0 -> MayI.buy g x = (Return (Some false), g)) /\
  (Player.buys q <> 0 ->
   forall rest top, Deck.discarded d = rest ++ [top] ->
   MayI.buy g x =
     (Return None,
      MayI.mk
        (Obj.set (MayI.players g) x
           (Player.mk (Player.id q) (Player.socketId q) (Player.name q)
              (Player.buys q - 1) (Player.points q)
              (Player.hand q ++ [top; head (Deck.deck d)])))
        (MayI.connectedPlayerCount g)
        (Some (Deck.mk (tail (Deck.deck d)) rest))
        (MayI.round g) (MayI.turn g) (MayI.turnOrder g) (MayI.melds g))) /\
  (Player.buys q <> 0 -> Deck.discarded d = [] ->
   exists g',
     MayI.buy g x = (Return None, g') /\
     exists q', Obj.get (MayI.players g') x = Some q' /\
       Player.hand q' = Player.hand q ++ [None; head (Deck.deck d)]).
Proof.
  intros Hq Hd. split; [|split].
  - intros Hb. unfold MayI.buy. by rewrite Hq, Hb.
  - intros Hb rest top Hdisc. by apply buy_step.
  - intros Hb Hdisc. unfold MayI.buy. rewrite Hq.
    destruct (Player.buys q =? 0) eqn:E; [apply Z.eqb_eq in E; done|].
    cbn [MayI.deck MayI.set_players]. rewrite Hd, Hdisc. cbn [pop].
    erewrite draw_one;
      [|cbn [MayI.players MayI.set_deck MayI.set_players];
        by rewrite get_set_eq|reflexivity].
    eexists. split; [reflexivity|].
    cbn [MayI.players MayI.set_deck MayI.set_players].
    rewrite get_set_eq. eexists. split; [reflexivity|].
    unfold Player.addCard, Player.set_hand, Player.set_buys.
    cbn [Player.id Player.socketId Player.name Player.buys Player.points
         Player.hand Deck.deck].
    by rewrite <- app_assoc.
Qed.

Lemma buy_effect_witness :
  (Player.buys (Player.mk "bob" (Some "s2"%string) "Bob" 5 0 Table.bob_hand)
     = 0 ->
   MayI.buy Table.game "bob" = (Return (Some false), Table.game)) /\
  (Player.buys (Player.mk "bob" (Some "s2"%string) "Bob" 5 0 Table.bob_hand)
     <> 0 ->
   forall rest top, Deck.discarded Table.pile = rest ++ [top] ->
   MayI.buy Table.game "bob" =
     (Return None,
      MayI.mk
        (Obj.set (MayI.players Table.game) "bob"
           (Player.mk "bob" (Some "s2"%string) "Bob" (5 - 1) 0
              (Table.bob_hand ++ [top; head (Deck.deck Table.pile)])))
        (MayI.connectedPlayerCount Table.game)
        (Some (Deck.mk (tail (Deck.deck Table.pile)) rest))
        (MayI.round Table.game) (MayI.turn Table.game)
        (MayI.turnOrder Table.game) (MayI.melds Table.game))) /\
  (Player.buys (Player.mk "bob" (Some "s2"%string) "Bob" 5 0 Table.bob_hand)
     <> 0 ->
   Deck.discarded Table.pile = [] ->
   exists g',
     MayI.buy Table.game "bob" = (Return None, g') /\
     exists q', Obj.get (MayI.players g') "bob" = Some q' /\
       Player.hand q' =
       Table.bob_hand ++ [None; head (Deck.deck Table.pile)]).
Proof.
  apply (buy_effect Table.game "bob"
           (Player.mk "bob" (Some "s2"%string) "Bob" 5 0 Table.bob_hand)
           Table.pile); reflexivity.
Defined.

(** X14. The player [determineBuy] names can buy: the name is one of the
    candidates handed in, has a seat in the turn order and a player
    record with at least one buy left, so the [buy] that the server makes
    for that player next is not refused; with a card on the discard pile
    it returns and hands that card over. *)
Theorem determineBuy_then_buy g cands x :
  MayI.determineBuy g cands = Return (Some x) ->
  x ∈ cands /\ x ∈ MayI.turnOrder g /\
  (exists p, Obj.get (MayI.players g) x = Some p /\ 0 < Player.buys p) /\
  (MayI.buy g x).1 <> Return (Some false) /\
  (forall d rest top,
     MayI.deck g = Some d -> Deck.discarded d = rest ++ [top] ->
     (MayI.buy g x).1 = Return None /\
     exists q, Obj.get (MayI.players (MayI.buy g x).2) x = Some q /\
               top ∈ Player.hand q).
Proof.
  unfold MayI.determineBuy. destruct (MayI.deck g) as [d|] eqn:Hd; [|done].
  intros H. apply determineBuy_loop_Some in H as (Hc & Hw & p & Hp & Hb).
  split; [done|]. split.
  { apply elem_of_app in Hw as [Hw|Hw].
    - by apply (subseteq_drop (MayI.turn g)).
    - by apply (subseteq_take (MayI.turn g)). }
  split; [by exists p|]. split.
  - unfold MayI.buy. rewrite Hp.
    destruct (Player.buys p =? 0) eqn:E; [apply Z.eqb_eq in E; lia|].
    cbn [MayI.deck MayI.set_players]. rewrite Hd.
    destruct (pop (Deck.discarded d)) as [[??]|]; cbv beta iota zeta.
    all: match goal with
         | |- context [MayI.draw ?g2 ?y 1] =>
             by destruct (MayI.draw g2 y 1) as [[]?]
         end.
  - intros d' rest top [= <-] Hdisc.
    rewrite (buy_step g x p d rest top) by (done || lia).
    split; [done|]. cbn [snd MayI.players]. rewrite get_set_eq.
    eexists. split; [reflexivity|]. cbn [Player.hand].
    apply elem_of_app. right. by left.
Qed.

Lemma determineBuy_then_buy_witness :
  "bob"%string ∈ ["carol"; "bob"]%string /\
  "bob"%string ∈ MayI.turnOrder (MayI.incrementTurn Table.game) /\
  (exists p,
     Obj.get (MayI.players (MayI.incrementTurn Table.game)) "bob" = Some p /\
     0 < Player.buys p) /\
  (MayI.buy (MayI.incrementTurn Table.game) "bob").1
    <> Return (Some false) /\
  (forall d rest top,
     MayI.deck (MayI.incrementTurn Table.game) = Some d ->
     Deck.discarded d = rest ++ [top] ->
     (MayI.buy (MayI.incrementTurn Table.game) "bob").1 = Return None /\
     exists q,
       Obj.get (MayI.players
                  (MayI.buy (MayI.incrementTurn Table.game) "bob").2) "bob"
         = Some q /\
       top ∈ Player.hand q).
Proof.
  apply (determineBuy_then_buy (MayI.incrementTurn Table.game)
           ["carol"; "bob"]%string "bob"%string).
  reflexivity.
Defined.

(** X15. A card just discarded is the card the next buyer gets: after a
    [discard] that returned true, a [buy] by any player with a buy left
    returns, and the hand of the buyer is the hand from before with the
    discarded card and then the front card of the draw pile at its end. *)
Theorem discard_then_buy g x c g1 y q d1 :
  MayI.discard g x c = (Return (Some true), g1) ->
  Obj.get (MayI.players g1) y = Some q -> Player.buys q <> 0 ->
  MayI.deck g1 = Some d1 ->
  (MayI.buy g1 y).1 = Return None /\
  exists q',
    Obj.get (MayI.players (MayI.buy g1 y).2) y = Some q' /\
    Player.hand q' = Player.hand q ++ [Some c; head (Deck.deck d1)] /\
    Player.buys q' = Player.buys q - 1.
Proof.
  intros Hdis Hq Hb Hd1.
  assert (exists rest, Deck.discarded d1 = rest ++ [Some c]) as [rest Hrest].
  { unfold MayI.discard in Hdis. destruct (negb _); [done|].
    destruct (Obj.get (MayI.players g) x) as [p|]; [|done].
    destruct (Player.remove_loop _ _) as [h ok]. destruct ok; [|done].
    cbn [negb MayI.deck MayI.set_players] in Hdis.
    destruct (MayI.deck g) as [d|]; [|done].
    injection Hdis as <-. revert Hd1. unfold MayI.incrementTurn.
    destruct (Z.of_nat _ =? _); cbn; intros [= <-]; by eexists. }
  rewrite (buy_step g1 y q d1 rest (Some c)) by done.
  split; [done|]. cbn [snd MayI.players]. rewrite get_set_eq.
  eexists. split; [reflexivity|]. done.
Qed.

Lemma discard_then_buy_witness :
  (MayI.buy (MayI.discard Table.game "ann" (card 25 RK Clubs)).2 "carol").1
    = Return None /\
  exists q',
    Obj.get (MayI.players
               (MayI.buy (MayI.discard Table.game "ann"
                            (card 25 RK Clubs)).2 "carol").2) "carol"
      = Some q' /\
    Player.hand q' =
      Table.carol_hand ++
      [Some (card 25 RK Clubs); head [card 7 R4 Clubs; card 8 R4 Clubs;
                                      card 100 RJ Spades]] /\
    Player.buys q' = 4 - 1.
Proof.
  apply (discard_then_buy Table.game "ann" (card 25 RK Clubs)
           (MayI.discard Table.game "ann" (card 25 RK Clubs)).2
           "carol"
           (Player.mk "carol" (Some "s3"%string) "Carol" 4 0 Table.carol_hand)
           (Deck.mk [card 7 R4 Clubs; card 8 R4 Clubs; card 100 RJ Spades]
              [Some (card 75 RQ Hearts); Some (card 1 RA Clubs);
               Some (card 25 RK Clubs)]));
    [reflexivity|reflexivity|vm_compute; lia|reflexivity].
Defined.


Section Seats2.

Lemma get_del_eq {V} (o : Obj.t V) k :
  NoDup (Obj.keys o) -> Obj.get (Obj.del o k) k = None.
Proof.
  unfold Obj.keys. induction o as [|[k0 v0] t IH]; simpl; [done|].
  intros HN. apply NoDup_cons in HN as [Hk HN].
  destruct (decide (k0 = k)) as [->|Hne].
  - apply get_None_keys. done.
  - simpl. rewrite decide_False by done. by apply IH.
Qed.

Lemma get_del_ne {V} (o : Obj.t V) k k' :
  k <> k' -> Obj.get (Obj.del o k) k' = Obj.get o k'.
Proof.
  intros Hne. induction o as [|[k0 v0] t IH]; simpl; [done|].
  destruct (decide (k0 = k)) as [->|Hk].
  - by rewrite decide_False.
  - simpl. by rewrite IH.
Qed.

Lemma replace_first_id_fmap player pid o :
  NoDup o ->
  MayI.replace_first_id player pid o =
  (fun k => if decide (k = player) then pid else k) <$> o.
Proof.
  induction o as [|x t IH]; [done|]. intros HN.
  apply NoDup_cons in HN as [Hx HN]. cbn [MayI.replace_first_id].
  rewrite fmap_cons. destruct (decide (x = player)) as [->|Hne].
  - f_equal. clear IH. induction t as [|y t IH]; [done|].
    apply not_elem_of_cons in Hx as [Hy Hx]. apply NoDup_cons in HN as [_ HN].
    rewrite fmap_cons, decide_False by done. f_equal. by apply IH.
  - f_equal. by apply IH.
Qed.

Lemma replace_first_id_same player o :
  MayI.replace_first_id player player o = o.
Proof.
  induction o as [|x t IH]; [done|]. cbn [MayI.replace_first_id].
  destruct (decide (x = player)) as [->|Hne]; [done|]. by rewrite IH.
Qed.

End Seats2.

Lemma reconnect_seat g player pid sid p :
  NoDup (Obj.keys (MayI.players g)) ->
  Obj.get (MayI.players g) player = Some p ->
  pid ∉ Obj.keys (MayI.players g) ->
  let r := MayI.reconnect g player pid sid in
  r.1 = Return tt /\
  Obj.get (MayI.players r.2) pid =
    Some (Player.mk pid sid (Player.name p) (Player.buys p)
            (Player.points p) (Player.hand p)) /\
  Obj.get (MayI.players r.2) player = None /\
  (forall k, k <> player -> k <> pid ->
             Obj.get (MayI.players r.2) k = Obj.get (MayI.players g) k) /\
  MayI.connectedPlayerCount r.2 = MayI.connectedPlayerCount g + 1.
Proof.
  intros HN Hp Hpid r. unfold r, MayI.reconnect. rewrite Hp.
  cbn [fst snd MayI.players MayI.connectedPlayerCount].
  assert (player <> pid) as Hne.
  { intros ->. apply Hpid. apply get_keys. by eexists. }
  set (p' := Player.setSocketId (Player.setPlayerId p pid) sid).
  set (ps1 := Obj.set (MayI.players g) player p').
  assert (Obj.keys ps1 = Obj.keys (MayI.players g)) as Hk1
    by (apply keys_set_present; by eexists).
  assert (Obj.get ps1 pid = None) as Hnone
    by (apply get_None_keys; by rewrite Hk1).
  assert (NoDup (Obj.keys (Obj.set ps1 pid p'))) as HN2.
  { rewrite keys_set_absent by done. rewrite Hk1.
    apply NoDup_app. split; [done|]. split; [|apply NoDup_singleton].
    intros x Hx Hx'. apply list_elem_of_singleton in Hx' as ->. done. }
  split; [done|]. split.
  { rewrite get_del_ne by done. by rewrite get_set_eq. }
  split; [by apply get_del_eq|]. split; [|done].
  intros k Hk Hk'. rewrite get_del_ne by done.
  rewrite get_set_ne by done. unfold ps1. by rewrite get_set_ne.
Qed.

(** X17. [reconnect] of a seated player under an id nobody uses hands the
    seat over: the record, with the new id and socket id and the old name,
    buys, points and hand, is found under the new id and no longer under
    the old one; the other players are untouched; the connection count
    goes up by one; the old id is replaced in the turn order; and the
    melds of the old id count for the new id. *)
Theorem reconnect_moves_seat g player pid sid p :
  NoDup (Obj.keys (MayI.players g)) ->
  Obj.get (MayI.players g) player = Some p ->
  pid ∉ Obj.keys (MayI.players g) ->
  let r := MayI.reconnect g player pid sid in
  r.1 = Return tt /\
  Obj.get (MayI.players r.2) pid =
    Some (Player.mk pid sid (Player.name p) (Player.buys p)
            (Player.points p) (Player.hand p)) /\
  Obj.get (MayI.players r.2) player = None /\
  (forall k, k <> player -> k <> pid ->
             Obj.get (MayI.players r.2) k = Obj.get (MayI.players g) k) /\
  MayI.connectedPlayerCount r.2 = MayI.connectedPlayerCount g + 1 /\
  (NoDup (MayI.turnOrder g) ->
   MayI.turnOrder r.2 =
   (fun k => if decide (k = player) then pid else k) <$> MayI.turnOrder g) /\
  ((forall m, m ∈ MayI.melds g -> Meld.meld_playerID m <> Some pid) ->
   MayI.hasMeld r.2 pid = MayI.hasMeld g player) /\
  MayI.deck r.2 = MayI.deck g /\ MayI.round r.2 = MayI.round g /\
  MayI.turn r.2 = MayI.turn g.
Proof.
  intros HN Hp Hpid r.
  destruct (reconnect_seat g player pid sid p HN Hp Hpid)
    as (H1 & H2 & H3 & H4 & H5).
  do 5 (split; [done|]). unfold r, MayI.reconnect. rewrite Hp.
  cbn [snd MayI.turnOrder MayI.deck MayI.round MayI.turn].
  split; [intros; by apply replace_first_id_fmap|].
  split; [|done]. intros Hm. unfold MayI.hasMeld. cbn [MayI.melds].
  induction (MayI.melds g) as [|m ms IH]; [done|]. cbn [map existsb].
  rewrite IH by (intros; apply Hm; by right). f_equal.
  specialize (Hm m (list_elem_of_here _ _)).
  destruct (decide (Meld.meld_playerID m = Some player)) as [He|He].
  - cbn [Meld.set_playerID Meld.meld_playerID].
    by rewrite !bool_decide_eq_true_2.
  - by rewrite !bool_decide_eq_false_2.
Qed.

Lemma reconnect_moves_seat_witness :
  (MayI.reconnect Table.game "bob" "bobby" (Some "s9"%string)).1
    = Return tt /\
  Obj.get (MayI.players
             (MayI.reconnect Table.game "bob" "bobby" (Some "s9"%string)).2)
          "bobby" =
    Some (Player.mk "bobby" (Some "s9"%string) "Bob" 5 0 Table.bob_hand) /\
  Obj.get (MayI.players
             (MayI.reconnect Table.game "bob" "bobby" (Some "s9"%string)).2)
          "bob" = None /\
  (forall k, k <> "bob"%string -> k <> "bobby"%string ->
     Obj.get (MayI.players
                (MayI.reconnect Table.game "bob" "bobby"
                   (Some "s9"%string)).2) k =
     Obj.get (MayI.players Table.game) k) /\
  MayI.connectedPlayerCount
    (MayI.reconnect Table.game "bob" "bobby" (Some "s9"%string)).2 = 3 + 1 /\
  (NoDup (MayI.turnOrder Table.game) ->
   MayI.turnOrder
     (MayI.reconnect Table.game "bob" "bobby" (Some "s9"%string)).2 =
   (fun k => if decide (k = "bob"%string) then "bobby"%string else k)
     <$> MayI.turnOrder Table.game) /\
  ((forall m, m ∈ MayI.melds Table.game ->
              Meld.meld_playerID m <> Some "bobby"%string) ->
   MayI.hasMeld
     (MayI.reconnect Table.game "bob" "bobby" (Some "s9"%string)).2 "bobby"
   = MayI.hasMeld Table.game "bob") /\
  MayI.deck (MayI.reconnect Table.game "bob" "bobby" (Some "s9"%string)).2
    = MayI.deck Table.game /\
  MayI.round (MayI.reconnect Table.game "bob" "bobby" (Some "s9"%string)).2
    = MayI.round Table.game /\
  MayI.turn (MayI.reconnect Table.game "bob" "bobby" (Some "s9"%string)).2
    = MayI.turn Table.game.
Proof.
  apply (reconnect_moves_seat Table.game "bob" "bobby" (Some "s9"%string)
           (Player.mk "bob" (Some "s2"%string) "Bob" 5 0 Table.bob_hand)).
  - apply (bool_decide_unpack _). vm_compute. exact I.
  - reflexivity.
  - apply (bool_decide_unpack _). vm_compute. exact I.
Defined.

Lemma reconnect_own g player sid p :
  NoDup (Obj.keys (MayI.players g)) ->
  Obj.get (MayI.players g) player = Some p ->
  let r := MayI.reconnect g player player sid in
  r.1 = Return tt /\
  Obj.get (MayI.players r.2) player = None /\
  MayI.turnOrder r.2 = MayI.turnOrder g /\
  MayI.connectedPlayerCount r.2 = MayI.connectedPlayerCount g + 1 /\
  MayI.turn r.2 = MayI.turn g.
Proof.
  intros HN Hp r. unfold r, MayI.reconnect. rewrite Hp.
  cbn [fst snd].
  set (p' := Player.setSocketId (Player.setPlayerId p player) sid).
  rewrite set_set.
  assert (NoDup (Obj.keys (Obj.set (MayI.players g) player p'))) as HN1
    by (rewrite keys_set_present; [done|by eexists]).
  pose proof (get_del_eq _ player HN1) as Hnone.
  by rewrite replace_first_id_same.
Qed.

(** X18. [reconnect] of a seated player under that player's own id returns
    normally and deletes the record: the id stays in the turn order with
    no player behind it. From then on a [draw] for that id throws, and
    once the turn is at that seat it stays there, since the [discard] of
    that player throws and the [discard] of anybody else is turned away
    without a change. *)
Theorem reconnect_same_id g player sid p :
  NoDup (Obj.keys (MayI.players g)) ->
  Obj.get (MayI.players g) player = Some p ->
  let r := MayI.reconnect g player player sid in
  r.1 = Return tt /\
  Obj.get (MayI.players r.2) player = None /\
  MayI.turnOrder r.2 = MayI.turnOrder g /\
  MayI.connectedPlayerCount r.2 = MayI.connectedPlayerCount g + 1 /\
  (forall n, MayI.draw r.2 player (S n) = (Throw, r.2)) /\
  (MayI.turnOrder g !! MayI.turn g = Some player ->
   forall y c,
     MayI.discard r.2 y c =
     (if decide (y = player) then Throw else Return None, r.2)).
Proof.
  intros HN Hp r.
  destruct (reconnect_own g player sid p HN Hp) as (H1 & H2 & H3 & H4 & H5).
  fold r in H1, H2, H3, H4, H5. do 4 (split; [done|]). split.
  - intros n. cbn [MayI.draw]. by rewrite H2.
  - intros Hturn y c. unfold MayI.discard. rewrite H3, H5, Hturn.
    destruct (decide (y = player)) as [->|Hne].
    + rewrite bool_decide_eq_true_2 by done. cbn [negb]. by rewrite H2.
    + rewrite bool_decide_eq_false_2; [done|]. intros [= ->]. done.
Qed.

Lemma reconnect_same_id_witness :
  (MayI.reconnect Table.game "ann" "ann" (Some "s9"%string)).1 = Return tt /\
  Obj.get (MayI.players
             (MayI.reconnect Table.game "ann" "ann" (Some "s9"%string)).2)
          "ann" = None /\
  MayI.turnOrder (MayI.reconnect Table.game "ann" "ann" (Some "s9"%string)).2
    = MayI.turnOrder Table.game /\
  MayI.connectedPlayerCount
    (MayI.reconnect Table.game "ann" "ann" (Some "s9"%string)).2
    = MayI.connectedPlayerCount Table.game + 1 /\
  (forall n,
     MayI.draw (MayI.reconnect Table.game "ann" "ann" (Some "s9"%string)).2
       "ann" (S n) =
     (Throw, (MayI.reconnect Table.game "ann" "ann" (Some "s9"%string)).2)) /\
  (MayI.turnOrder Table.game !! MayI.turn Table.game = Some "ann"%string ->
   forall y c,
     MayI.discard
       (MayI.reconnect Table.game "ann" "ann" (Some "s9"%string)).2 y c =
     (if decide (y = "ann"%string) then Throw else Return None,
      (MayI.reconnect Table.game "ann" "ann" (Some "s9"%string)).2)).
Proof.
  apply (reconnect_same_id Table.game "ann" (Some "s9"%string)
           (Player.mk "ann" (Some "s1"%string) "Ann" 6 0 Table.ann_hand)).
  - apply (bool_decide_unpack _). vm_compute. exact I.
  - reflexivity.
Defined.
Section Scoring.

Lemma score_loop_defined pts h :
  Forall is_Some h -> MayI.score_loop pts h = (pts + hand_value h, true).
Proof.
  intros H. revert pts. induction H as [|x h Hx _ IH]; intros pts.
  - simpl. f_equal. lia.
  - destruct Hx as [c ->]. cbn [MayI.score_loop hand_value foldr].
    rewrite IH. f_equal. unfold hand_value. lia.
Qed.

Lemma endRound_loop_defined ps :
  Forall (fun kp : string * Player.t => Forall is_Some (Player.hand kp.2)) ps ->
  MayI.endRound_loop ps =
  ((fun kp : string * Player.t =>
      (kp.1,
       Player.set_hand
         (Player.set_points kp.2
            (Player.points kp.2 + hand_value (Player.hand kp.2))) []))
     <$> ps, true).
Proof.
  induction 1 as [|[k p] t Hp _ IH]; [done|].
  cbn [MayI.endRound_loop]. rewrite score_loop_defined by done.
  by rewrite IH.
Qed.

Lemma get_fmap_val (f : Player.t -> Player.t)
    (ps : list (string * Player.t)) k :
  Obj.get ((fun kp : string * Player.t => (kp.1, f kp.2)) <$> ps) k =
  f <$> Obj.get ps k.
Proof.
  induction ps as [|[k0 p0] t IH]; [done|]. rewrite fmap_cons.
  cbn [Obj.get fst snd]. by destruct (decide (k0 = k)).
Qed.

Lemma keys_fmap_val (f : Player.t -> Player.t)
    (ps : list (string * Player.t)) :
  Obj.keys ((fun kp : string * Player.t => (kp.1, f kp.2)) <$> ps) =
  Obj.keys ps.
Proof.
  unfold Obj.keys. induction ps as [|[k0 p0] t IH]; [done|].
  rewrite fmap_cons. cbn [map fst]. by rewrite IH.
Qed.

Lemma get_dealt n ps ps' k p' :
  Forall2 (dealt n) ps ps' -> Obj.get ps' k = Some p' ->
  exists p given,
    Obj.get ps k = Some p /\ length given = n /\
    p' = Player.set_hand p (Player.hand p ++ (Some <$> given)).
Proof.
  induction 1 as [|[k0 p0] [k1 p1] t t' Hd _ IH]; [done|].
  destruct Hd as [Hk (given & Hlen & Hp)]. cbn [fst snd] in Hk, Hp.
  subst k1. cbn [Obj.get]. destruct (decide (k0 = k)); [|done].
  intros [= <-]. by exists p0, given.
Qed.

Lemma same_seat_trans a b c : same_seat a b -> same_seat b c -> same_seat a c.
Proof.
  intros [E1 [h1 H1]] [E2 [h2 H2]]. split; [congruence|].
  exists h2. rewrite H2, H1. by destruct a.2.
Qed.

Lemma deal_pass_seats ps d : Forall2 same_seat ps (MayI.deal_pass ps d).1.
Proof.
  revert d. induction ps as [|[k p] t IH]; intros d; [constructor|].
  cbn [MayI.deal_pass]. destruct (Deck.drawCard d) as [c d1].
  specialize (IH d1). destruct (MayI.deal_pass t d1) as [t' d2].
  constructor; [|done]. split; [done|]. by eexists.
Qed.

Lemma deal_loop_seats n ps d : Forall2 same_seat ps (MayI.deal_loop n ps d).1.
Proof.
  revert ps d. induction n as [|n IH]; intros ps d.
  - apply Forall2_same_length_lookup_2; [done|].
    intros i x y Hx Hy. simpl in Hy. assert (x = y) as -> by congruence.
    split; [done|]. exists (Player.hand y.2). by rewrite set_hand_same.
  - cbn [MayI.deal_loop]. pose proof (deal_pass_seats ps d) as H1.
    destruct (MayI.deal_pass ps d) as [ps1 d1]. cbn [fst] in H1.
    specialize (IH ps1 d1).
    eapply Forall2_trans; [|exact H1|exact IH].
    intros a b c. apply same_seat_trans.
Qed.

Lemma deal_seats rnd g :
  exists ps d,
    MayI.deal rnd g = MayI.set_deck (MayI.set_players g ps) (Some d) /\
    Forall2 same_seat (MayI.players g) ps.
Proof.
  unfold MayI.deal. generalize (Deck.new suits ranks 2 true rnd). intros d0.
  pose proof (deal_loop_seats 11 (MayI.players g) d0) as H.
  destruct (MayI.deal_loop 11 (MayI.players g) d0) as [ps d1].
  destruct (Deck.drawCard d1) as [c d2]. by eexists _, _.
Qed.

Lemma get_same_seat ps ps' k :
  Forall2 same_seat ps ps' ->
  match Obj.get ps k, Obj.get ps' k with
  | Some p, Some p' => exists h, p' = Player.set_hand p h
  | None, None => True
  | _, _ => False
  end.
Proof.
  induction 1 as [|[k0 p0] [k1 p1] t t' [Hk Hh] _ IH]; [done|].
  cbn [fst snd] in Hk, Hh. subst k1. cbn [Obj.get].
  by destruct (decide (k0 = k)).
Qed.

End Scoring.

Lemma endRound_defined rnd g :
  Forall (fun kp : string * Player.t => Forall is_Some (Player.hand kp.2))
         (MayI.players g) ->
  let r := MayI.endRound rnd g in
  r.1 = Return tt /\
  MayI.round r.2 = MayI.round g + 1 /\
  MayI.melds r.2 = [] /\
  MayI.turn r.2 = MayI.turn g /\
  MayI.turnOrder r.2 = MayI.turnOrder g /\
  (forall k,
     match Obj.get (MayI.players g) k, Obj.get (MayI.players r.2) k with
     | Some p, Some p' =>
         Player.points p' = Player.points p + hand_value (Player.hand p) /\
         Player.buys p' = Player.buys p /\ Player.id p' = Player.id p /\
         Player.name p' = Player.name p
     | None, None => True
     | _, _ => False
     end) /\
  (6 < MayI.round g + 1 ->
   MayI.deck r.2 = MayI.deck g /\
   forall k p', Obj.get (MayI.players r.2) k = Some p' ->
                Player.hand p' = []) /\
  (MayI.round g + 1 <= 6 ->
   (11 * length (MayI.players g) + 1 <= 104)%nat ->
   (exists d, MayI.deck r.2 = Some d /\
      length (Deck.deck d) =
        (104 - 11 * length (MayI.players g) - 1)%nat /\
      length (Deck.discarded d) = 1%nat) /\
   forall k p', Obj.get (MayI.players r.2) k = Some p' ->
                length (Player.hand p') = 11%nat /\
                Forall is_Some (Player.hand p')).
Proof.
  intros Hdef r. unfold r, MayI.endRound.
  rewrite endRound_loop_defined by done. cbn [negb].
  set (score := fun p : Player.t =>
         Player.set_hand
           (Player.set_points p
              (Player.points p + hand_value (Player.hand p))) []).
  change (fun kp : string * Player.t =>
            (kp.1, Player.set_hand
                     (Player.set_points kp.2
                        (Player.points kp.2 + hand_value (Player.hand kp.2)))
                     []))
    with (fun kp : string * Player.t => (kp.1, score kp.2)).
  set (ps := (fun kp : string * Player.t => (kp.1, score kp.2))
               <$> MayI.players g).
  set (g1 := MayI.mk ps (MayI.connectedPlayerCount g) (MayI.deck g)
               (MayI.round g + 1) (MayI.turn g) (MayI.turnOrder g) []).
  assert (forall k, Obj.get ps k = score <$> Obj.get (MayI.players g) k)
    as Hget by (intros; apply get_fmap_val).
  assert (length ps = length (MayI.players g)) as Hlen
    by (unfold ps; by rewrite length_fmap).
  change (MayI.round g1) with (MayI.round g + 1).
  destruct (MayI.round g + 1 <=? 6) eqn:Hr.
  - apply Z.leb_le in Hr. cbn [fst snd].
    destruct (deal_seats rnd g1) as (ps' & d' & Hdeal & Hseats).
    split; [done|]. rewrite Hdeal. unfold g1 in Hseats |- *.
    cbn [MayI.players MayI.set_deck MayI.set_players MayI.round MayI.melds
         MayI.turn MayI.turnOrder MayI.deck] in *.
    do 4 (split; [done|]). split.
    { intros k. pose proof (get_same_seat _ _ k Hseats) as Hk.
      rewrite Hget in Hk.
      destruct (Obj.get (MayI.players g) k) as [p|],
               (Obj.get ps' k) as [p'|]; try done.
      cbn in Hk. destruct Hk as [h ->]. done. }
    split; [lia|]. intros _ Hfit.
    destruct (deal_state rnd g1) as (ps2 & x & pile & Hdeal2 & Hd & _ & Hpile).
    { unfold g1. cbn [MayI.players]. by rewrite Hlen. }
    rewrite Hdeal in Hdeal2. unfold g1 in Hdeal2, Hd, Hpile.
    cbn [MayI.players MayI.set_deck MayI.set_players] in *.
    injection Hdeal2 as -> ->. split.
    { eexists. split; [reflexivity|]. cbn [Deck.deck Deck.discarded].
      split; [by rewrite Hpile, Hlen|done]. }
    intros k p' Hp'.
    destruct (get_dealt _ _ _ _ _ Hd Hp') as (q & given & Hq & Hg & ->).
    rewrite Hget in Hq. destruct (Obj.get (MayI.players g) k) as [p|];
      [|done]. injection Hq as <-.
    cbn [score Player.set_hand Player.set_points Player.hand app].
    rewrite length_fmap. split; [done|].
    apply Forall_fmap, Forall_true. intros c. by eexists.
  - apply Z.leb_gt in Hr. cbn [fst snd]. unfold g1.
    cbn [MayI.players MayI.set_deck MayI.set_players MayI.round MayI.melds
         MayI.turn MayI.turnOrder MayI.deck].
    do 5 (split; [done|]). split.
    { intros k. rewrite Hget.
      by destruct (Obj.get (MayI.players g) k) as [p|]. }
    split; [|lia]. intros _. split; [done|].
    intros k p'. rewrite Hget.
    destruct (Obj.get (MayI.players g) k) as [p|]; [|done].
    by intros [= <-].
Qed.

(** X19. [endRound] on hands without empty slots returns. Every player is
    charged the values of the cards still in hand, on top of the points
    from before, and keeps id, name and buys; the round number goes up by
    one, the melds are cleared, turn and turn order stay. When the new
    round number is over 6 the hands are left empty and the deck is not
    touched; otherwise, with at most nine players, a new round is dealt:
    eleven cards to every player and one card on the discard pile. *)
Theorem endRound_effect rnd g :
  Forall (fun kp : string * Player.t => Forall is_Some (Player.hand kp.2))
         (MayI.players g) ->
  let r := MayI.endRound rnd g in
  r.1 = Return tt /\
  MayI.round r.2 = MayI.round g + 1 /\
  MayI.melds r.2 = [] /\
  MayI.turn r.2 = MayI.turn g /\
  MayI.turnOrder r.2 = MayI.turnOrder g /\
  (forall k,
     match Obj.get (MayI.players g) k, Obj.get (MayI.players r.2) k with
     | Some p, Some p' =>
         Player.points p' = Player.points p + hand_value (Player.hand p) /\
         Player.buys p' = Player.buys p /\ Player.id p' = Player.id p /\
         Player.name p' = Player.name p
     | None, None => True
     | _, _ => False
     end) /\
  (6 < MayI.round g + 1 ->
   MayI.deck r.2 = MayI.deck g /\
   forall k p', Obj.get (MayI.players r.2) k = Some p' ->
                Player.hand p' = []) /\
  (MayI.round g + 1 <= 6 ->
   (11 * length (MayI.players g) + 1 <= 104)%nat ->
   (exists d, MayI.deck r.2 = Some d /\
      length (Deck.deck d) =
        (104 - 11 * length (MayI.players g) - 1)%nat /\
      length (Deck.discarded d) = 1%nat) /\
   forall k p', Obj.get (MayI.players r.2) k = Some p' ->
                length (Player.hand p') = 11%nat /\
                Forall is_Some (Player.hand p')).
Proof. apply endRound_defined. Qed.

Lemma endRound_effect_witness :
  (MayI.endRound Crowd.rnd Table.game).1 = Return tt /\
  MayI.round (MayI.endRound Crowd.rnd Table.game).2 = 1 + 1 /\
  MayI.melds (MayI.endRound Crowd.rnd Table.game).2 = [] /\
  MayI.turn (MayI.endRound Crowd.rnd Table.game).2 = 0%nat /\
  MayI.turnOrder (MayI.endRound Crowd.rnd Table.game).2 =
    MayI.turnOrder Table.game /\
  (forall k,
     match Obj.get (MayI.players Table.game) k,
           Obj.get (MayI.players (MayI.endRound Crowd.rnd Table.game).2) k with
     | Some p, Some p' =>
         Player.points p' = Player.points p + hand_value (Player.hand p) /\
         Player.buys p' = Player.buys p /\ Player.id p' = Player.id p /\
         Player.name p' = Player.name p
     | None, None => True
     | _, _ => False
     end) /\
  (6 < 1 + 1 ->
   MayI.deck (MayI.endRound Crowd.rnd Table.game).2 = MayI.deck Table.game /\
   forall k p',
     Obj.get (MayI.players (MayI.endRound Crowd.rnd Table.game).2) k
       = Some p' ->
     Player.hand p' = []) /\
  (1 + 1 <= 6 ->
   (11 * 3 + 1 <= 104)%nat ->
   (exists d, MayI.deck (MayI.endRound Crowd.rnd Table.game).2 = Some d /\
      length (Deck.deck d) = (104 - 11 * 3 - 1)%nat /\
      length (Deck.discarded d) = 1%nat) /\
   forall k p',
     Obj.get (MayI.players (MayI.endRound Crowd.rnd Table.game).2) k
       = Some p' ->
     length (Player.hand p') = 11%nat /\ Forall is_Some (Player.hand p')).
Proof.
  apply (endRound_effect Crowd.rnd Table.game).
  repeat constructor; by eexists.
Defined.
Section Table2.

Lemma round_sets_positive k rm :
  index Rounds.melds k = Some rm -> (0 < Rounds.rm_sets rm)%nat.
Proof.
  unfold index. destruct (k <? 0); [done|]. intros H.
  apply list_elem_of_lookup_2 in H. unfold Rounds.melds in H.
  repeat (apply elem_of_cons in H as [->|H]; [simpl; lia|]).
  by apply elem_of_nil in H.
Qed.

Lemma new_melds_lookup base owner groups j m :
  new_melds base owner groups !! j = Some m ->
  Meld.meld_id m = Some (Z.of_nat (base + j)) /\
  Meld.meld_playerID m = owner.
Proof.
  revert base j. induction groups as [|cards rest IH]; intros base j; [done|].
  destruct j as [|j]; cbn [new_melds lookup list_lookup].
  - intros [= <-]. cbn. split; [|done]. do 2 f_equal. lia.
  - intros H. apply IH in H as [H1 H2]. split; [|done].
    rewrite H1. do 2 f_equal. lia.
Qed.

Lemma ids_in_place_app ms base owner groups :
  ids_in_place ms -> base = length ms ->
  ids_in_place (ms ++ new_melds base owner groups).
Proof.
  intros Hms -> i m Hi. apply lookup_app_Some in Hi as [Hi|[Hge Hi]].
  - by apply Hms.
  - apply new_melds_lookup in Hi as [Hi _]. rewrite Hi. do 2 f_equal. lia.
Qed.

Lemma ids_in_place_insert ms k m m' :
  ids_in_place ms -> ms !! k = Some m -> Meld.meld_id m' = Meld.meld_id m ->
  ids_in_place (<[k := m']> ms).
Proof.
  intros Hms Hk Hid i x Hi.
  destruct (decide (i = k)) as [->|Hne].
  - rewrite list_lookup_insert_eq in Hi by (by eapply lookup_lt_Some).
    injection Hi as <-. rewrite Hid. by apply Hms.
  - rewrite list_lookup_insert_ne in Hi by done. by apply Hms.
Qed.

Lemma find_meld_offset ms base i m :
  (forall j x, ms !! j = Some x -> Meld.meld_id x = Some (base + Z.of_nat j)) ->
  ms !! i = Some m ->
  MayI.find_meld ms (base + Z.of_nat i) = Some (i, m).
Proof.
  revert base i. induction ms as [|m0 t IH]; intros base i Hids Hi; [done|].
  cbn [MayI.find_meld]. pose proof (Hids 0%nat m0 eq_refl) as H0.
  destruct i as [|i].
  - injection Hi as ->. rewrite H0, bool_decide_eq_true_2; [done|].
    do 2 f_equal.
  - rewrite H0, bool_decide_eq_false_2 by (intros [=]; lia).
    replace (base + Z.of_nat (S i)) with ((base + 1) + Z.of_nat i) by lia.
    rewrite (IH (base + 1) i); [done| |done].
    intros j x Hj. rewrite (Hids (S j) x Hj). f_equal. lia.
Qed.

Lemma find_meld_id ms meldID k m :
  MayI.find_meld ms meldID = Some (k, m) -> Meld.meld_id m = Some meldID.
Proof.
  revert k. induction ms as [|m0 t IH]; intros k; [done|].
  cbn [MayI.find_meld].
  destruct (bool_decide (Meld.meld_id m0 = Some meldID)) eqn:E.
  - intros [= <- <-]. by apply bool_decide_eq_true in E.
  - destruct (MayI.find_meld t meldID) as [[k' m']|]; [|done].
    intros [= <- <-]. by eapply IH.
Qed.

Lemma draw_melds g x qty : MayI.melds (MayI.draw g x qty).2 = MayI.melds g.
Proof.
  revert g. induction qty as [|n IH]; intros g; [done|]. cbn [MayI.draw].
  destruct (Obj.get (MayI.players g) x) as [p|]; [|done].
  destruct (MayI.deck g) as [d|]; [|done].
  destruct (Deck.drawCard d) as [c d']. by rewrite IH.
Qed.

Lemma incrementTurn_melds g :
  MayI.melds (MayI.incrementTurn g) = MayI.melds g.
Proof.
  unfold MayI.incrementTurn. by destruct (Z.of_nat (MayI.turn g) =? _).
Qed.

Lemma deal_melds rnd g : MayI.melds (MayI.deal rnd g) = MayI.melds g.
Proof.
  destruct (deal_seats rnd g) as (ps & d & -> & _). done.
Qed.

Lemma addCard_id m c : Meld.meld_id (Meld.addCard m c).2 = Meld.meld_id m.
Proof.
  unfold Meld.addCard. by destruct (Meld.new _ _ _).
Qed.

Lemma swap_id m mc pc : Meld.meld_id (Meld.swap m mc pc).2 = Meld.meld_id m.
Proof.
  unfold Meld.swap. destruct (Meld.swap_testMeld _ _ _); [|done].
  destruct (Meld.new _ _ _); [|done]. by destruct (Meld.swap_replace _ _ _).
Qed.

Lemma ids_in_place_move g g' :
  move g g' -> ids_in_place (MayI.melds g) -> ids_in_place (MayI.melds g').
Proof.
  intros Hm H. destruct Hm as [g x qty|g x c|g x|g x groups|g x c mid
                               |g x c mid|g x pid sid|g x].
  - by rewrite draw_melds.
  - unfold MayI.discard. destruct (negb _); [done|].
    destruct (Obj.get (MayI.players g) x) as [p|]; [|done].
    destruct (Player.remove_loop _ _) as [h ok]. destruct ok; [|done].
    cbn [negb MayI.deck MayI.set_players]. destruct (MayI.deck g); [|done].
    cbn [snd]. by rewrite incrementTurn_melds.
  - unfold MayI.buy.
    destruct (Obj.get (MayI.players g) x) as [p|]; [|done].
    destruct (Player.buys p =? 0); [done|].
    cbn [MayI.deck MayI.set_players]. destruct (MayI.deck g) as [d|]; [|done].
    destruct (pop (Deck.discarded d)) as [[??]|]; cbv beta iota zeta.
    all: match goal with
         | |- context [MayI.draw ?g2 ?y 1] =>
             pose proof (draw_melds g2 y 1) as H2;
             destruct (MayI.draw g2 y 1) as [[]?]; cbn [snd] in *;
             by rewrite H2
         end.
  - unfold MayI.meld. rewrite meld_build_spec.
    destruct (forallb valid_group groups); [|done].
    destruct (Obj.get (MayI.players g) x) as [p|]; [|done].
    destruct (_ =? _)%nat; [done|]. destruct (_ && _); [done|].
    destruct (MayI.meld_remove _ _) as [h ok]. destruct ok; [|done].
    cbn [snd MayI.melds MayI.set_melds MayI.set_players].
    apply ids_in_place_app; [done|lia].
  - unfold MayI.swapWithMeld. destruct (negb _); [done|].
    destruct (MayI.find_meld _ _) as [[k m]|] eqn:Hf; [|done].
    pose proof (swap_id m (List.find is_wild (Meld.meld_cards m)) c) as Hid.
    destruct (Meld.swap _ _ _) as [r m']. cbn [snd] in Hid.
    assert (ids_in_place (<[k := m']> (MayI.melds g))) as H'
      by (eapply ids_in_place_insert; eauto using find_meld_lookup).
    destruct r as [[]|]; try done.
    cbn [MayI.players MayI.set_melds].
    destruct (Obj.get (MayI.players g) x) as [p|]; [|done].
    by destruct (MayI.swap_hand_loop _ _ _).
  - unfold MayI.addToMeld.
    destruct (MayI.find_meld _ _) as [[k m]|] eqn:Hf; [|done].
    pose proof (addCard_id m c) as Hid.
    destruct (Meld.addCard m c) as [b m']. cbn [snd] in Hid.
    assert (ids_in_place (<[k := m']> (MayI.melds g))) as H'
      by (eapply ids_in_place_insert; eauto using find_meld_lookup).
    cbn [MayI.players MayI.set_melds].
    destruct (Obj.get (MayI.players g) x) as [p|]; [|done].
    destruct (_ && _); [|done]. destruct (Player.removeCard p c) as [r p'].
    by destruct r.
  - unfold MayI.reconnect.
    destruct (Obj.get (MayI.players g) x) as [p|]; [|done].
    cbn [snd MayI.melds]. intros i m Hi.
    change (map ?f ?l) with (f <$> l) in Hi.
    rewrite list_lookup_fmap in Hi.
    destruct (MayI.melds g !! i) as [m0|] eqn:H0; [|done].
    injection Hi as <-. rewrite <- (H i m0 H0). by destruct (decide _).
  - unfold MayI.disconnect.
    by destruct (Obj.get (MayI.players g) x) as [p|].
Qed.

Lemma ids_in_place_call g g' :
  call g g' -> ids_in_place (MayI.melds g) -> ids_in_place (MayI.melds g').
Proof.
  intros Hc H. destruct Hc as [g g' Hm|g id sid name|rnd g|rnd g|g].
  - by apply (ids_in_place_move g).
  - unfold MayI.addPlayer. by destruct (Obj.get _ _).
  - by rewrite deal_melds.
  - unfold MayI.endRound.
    destruct (MayI.endRound_loop (MayI.players g)) as [ps ok].
    destruct ok; cbn [negb]; [|done].
    destruct (_ <=? 6); cbn [snd]; [rewrite deal_melds|]; by intros [|?] ?.
  - by rewrite incrementTurn_melds.
Qed.

End Table2.

Lemma meld_owner g player groups g' :
  MayI.meld g player groups = (true, g') ->
  exists p,
    Obj.get (MayI.players g) player = Some p /\
    (MayI.hasMeld g player = true \/
     existsb (fun m => bool_decide (Meld.meld_playerID m = Some (Player.id p)))
             (MayI.melds g') = true) /\
    (MayI.hasMeld g player = true -> MayI.hasMeld g' player = true).
Proof.
  unfold MayI.meld. rewrite meld_build_spec.
  destruct (forallb valid_group groups); [|done].
  destruct (Obj.get (MayI.players g) player) as [p|] eqn:Hp; [|done].
  destruct (_ =? _)%nat; [done|].
  destruct (MayI.hasMeld g player) eqn:Hhas; cbn [negb andb].
  - destruct (MayI.meld_remove _ _) as [h ok]. destruct ok; [|done].
    intros [= <-]. exists p. split; [done|]. split; [by left|].
    intros _. unfold MayI.hasMeld in *.
    cbn [MayI.melds MayI.set_melds MayI.set_players].
    by rewrite existsb_app, Hhas.
  - destruct (MayI.meld_round_check _ _) eqn:Hcheck; [|done]. cbn [negb].
    destruct (MayI.meld_remove _ _) as [h ok]. destruct ok; [|done].
    intros [= <-]. exists p. split; [done|]. split; [|done]. right.
    cbn [MayI.melds MayI.set_melds MayI.set_players].
    rewrite existsb_app. apply orb_true_iff. right.
    unfold MayI.meld_round_check in Hcheck.
    destruct (index Rounds.melds (MayI.round g - 1)) as [rm|] eqn:Hrm;
      [|done].
    apply round_sets_positive in Hrm.
    destruct (length _ =? Rounds.rm_sets rm)%nat eqn:Hlen; [|done].
    apply Nat.eqb_eq in Hlen. rewrite new_melds_length in Hlen.
    destruct groups as [|cards rest]; [simpl in Hlen; lia|].
    cbn [new_melds existsb Meld.meld_playerID option_fmap option_map fmap].
    by rewrite bool_decide_eq_true_2.
Qed.

(** X20. After a [meld] that returned true the player counts as having
    melded: [hasMeld] is true for that player, provided the player record
    carries the id it is stored under. The round requirement is therefore
    asked of a player once a round. *)
Theorem meld_then_hasMeld g player groups g' :
  MayI.meld g player groups = (true, g') ->
  (forall p, Obj.get (MayI.players g) player = Some p ->
             Player.id p = player) ->
  MayI.hasMeld g' player = true.
Proof.
  intros Hm Hid.
  destruct (meld_owner g player groups g' Hm) as (p & Hp & [Hhas|Hnew] & Hkeep).
  - by apply Hkeep.
  - unfold MayI.hasMeld. by rewrite <- (Hid p Hp).
Qed.

Lemma meld_then_hasMeld_witness :
  MayI.hasMeld (MayI.meld Opening.game "dave" Opening.two_threes).2 "dave"
  = true.
Proof.
  apply (meld_then_hasMeld Opening.game "dave" Opening.two_threes
           (MayI.meld Opening.game "dave" Opening.two_threes).2).
  - reflexivity.
  - intros p [= <-]. reflexivity.
Defined.

(** X21. Whatever calls are made on a game, every meld on the table sits
    in the slot that its id names: the ids of a round are 0, 1, 2, ...
    without a gap and none twice, so the lookup by id that [addToMeld]
    and [swapWithMeld] start with finds the meld with that id and no
    other. *)
Theorem meld_ids_in_place g :
  history g ->
  (forall i m, MayI.melds g !! i = Some m ->
     Meld.meld_id m = Some (Z.of_nat i) /\
     MayI.find_meld (MayI.melds g) (Z.of_nat i) = Some (i, m)) /\
  (forall meldID k m,
     MayI.find_meld (MayI.melds g) meldID = Some (k, m) ->
     meldID = Z.of_nat k /\ MayI.melds g !! k = Some m) /\
  NoDup (Meld.meld_id <$> MayI.melds g).
Proof.
  intros Hh. assert (ids_in_place (MayI.melds g)) as HI.
  { induction Hh as [|g g' _ IH Hc]; [by intros [|?] ?|].
    by apply (ids_in_place_call g). }
  split; [|split].
  - intros i m Hi. split; [by apply HI|].
    apply (find_meld_offset _ 0 i m); [|done]. intros j x Hj.
    rewrite (HI j x Hj). do 2 f_equal.
  - intros meldID k m Hf. pose proof (find_meld_lookup _ _ _ _ Hf) as Hk.
    split; [|done]. apply find_meld_id in Hf. rewrite (HI k m Hk) in Hf.
    congruence.
  - apply NoDup_alt. intros i j x Hi Hj.
    rewrite list_lookup_fmap in Hi, Hj.
    destruct (MayI.melds g !! i) as [mi|] eqn:Ei; [|done].
    destruct (MayI.melds g !! j) as [mj|] eqn:Ej; [|done].
    cbn in Hi, Hj. rewrite (HI i mi Ei) in Hi. rewrite (HI j mj Ej) in Hj.
    assert (Some (Z.of_nat i) = Some (Z.of_nat j)) as [=] by congruence. lia.
Qed.
Lemma meld_ids_in_place_witness :
  (forall i m,
     MayI.melds (MayI.meld (MayI.deal Crowd.rnd Trio.game) "p0"
                   Opening.two_threes).2 !! i = Some m ->
     Meld.meld_id m = Some (Z.of_nat i) /\
     MayI.find_meld
       (MayI.melds (MayI.meld (MayI.deal Crowd.rnd Trio.game) "p0"
                      Opening.two_threes).2) (Z.of_nat i) = Some (i, m)) /\
  (forall meldID k m,
     MayI.find_meld
       (MayI.melds (MayI.meld (MayI.deal Crowd.rnd Trio.game) "p0"
                      Opening.two_threes).2) meldID = Some (k, m) ->
     meldID = Z.of_nat k /\
     MayI.melds (MayI.meld (MayI.deal Crowd.rnd Trio.game) "p0"
                   Opening.two_threes).2 !! k = Some m) /\
  NoDup (Meld.meld_id <$>
         MayI.melds (MayI.meld (MayI.deal Crowd.rnd Trio.game) "p0"
                       Opening.two_threes).2).
Proof.
  apply (meld_ids_in_place
           (MayI.meld (MayI.deal Crowd.rnd Trio.game) "p0"
              Opening.two_threes).2).
  apply (history_call (MayI.deal Crowd.rnd Trio.game)).
  - apply (history_call Trio.game); [|apply call_deal].
    unfold Trio.game. cbn [foldl].
    repeat (eapply history_call; [|apply call_addPlayer]).
    apply history_new.
  - apply call_move, move_meld.
Defined.

Section Laying.

Lemma swap_replace_split mc pc c1 c2 :
  (forall y, y ∈ c1 -> card_id y <> card_id mc) ->
  Meld.swap_replace (Some mc) pc (c1 ++ mc :: c2) = Some (c1 ++ pc :: c2).
Proof.
  induction c1 as [|y t IH]; intros Hno.
  - cbn. by rewrite Z.eqb_refl.
  - cbn [app Meld.swap_replace].
    destruct (card_id y =? card_id mc) eqn:E.
    + apply Z.eqb_eq in E. destruct (Hno y); [by left|done].
    + rewrite IH by (intros; apply Hno; by right). done.
Qed.

Lemma swap_hand_loop_split cid mco l1 x l2 :
  (forall y, y ∈ l1 -> card_id y <> cid) -> card_id x = cid ->
  MayI.swap_hand_loop cid mco (Some <$> (l1 ++ x :: l2)) =
  Some ((Some <$> l1) ++ mco :: (Some <$> l2)).
Proof.
  intros Hno Hx. induction l1 as [|y t IH].
  - cbn. by rewrite Hx, Z.eqb_refl.
  - rewrite <- app_comm_cons, !fmap_cons. cbn [MayI.swap_hand_loop].
    destruct (card_id y =? cid) eqn:E.
    + apply Z.eqb_eq in E. destruct (Hno y); [by left|done].
    + rewrite IH by (intros; apply Hno; by right). done.
Qed.

End Laying.

(** X22. What [addToMeld] answers for a meld on the table and a player of
    the game whose hand has no empty slot: true exactly when the player
    holds more than one card and the cards of the meld with the new card
    are a valid group. Whether the player has melded, whose meld it is and
    whether the card is in the hand play no part. On true, the meld holds
    its cards and the new one, sorted by order, and a hand of distinct
    ids has lost the cards with the id of the new card. *)
Theorem addToMeld_verdict g player card meldID k m p :
  MayI.find_meld (MayI.melds g) meldID = Some (k, m) ->
  Obj.get (MayI.players g) player = Some p ->
  Forall is_Some (Player.hand p) ->
  (MayI.addToMeld g player card meldID).1 =
    Return ((1 <? length (Player.hand p))%nat &&
            valid_group (Meld.meld_cards m ++ [card])) /\
  (forall cs,
     (MayI.addToMeld g player card meldID).1 = Return true ->
     Player.hand p = Some <$> cs -> NoDup (card_id <$> cs) ->
     (MayI.addToMeld g player card meldID).2 =
     MayI.set_players
       (MayI.set_melds g
          (<[k := Meld.set_cards m
                    (sort_by_order (Meld.meld_cards m ++ [card]))]>
             (MayI.melds g)))
       (Obj.set (MayI.players g) player
          (Player.set_hand p
             (Some <$> List.filter
                         (fun c => negb (card_id c =? card_id card)) cs)))).
Proof.
  intros Hf Hp Hdef. unfold MayI.addToMeld. rewrite Hf.
  unfold Meld.addCard.
  pose proof (new_is_Some None (Meld.meld_cards m ++ [card]) None) as HN.
  destruct (Meld.new None (Meld.meld_cards m ++ [card]) None) as [m'|].
  - assert (valid_group (Meld.meld_cards m ++ [card]) = true) as ->
      by (apply HN; eauto).
    cbn [MayI.players MayI.set_melds]. rewrite Hp.
    destruct (1 <? length (Player.hand p))%nat; cbn [andb].
    + unfold Player.removeCard.
      pose proof (remove_loop_ok (card_id card) _ Hdef) as Hok.
      destruct (Player.remove_loop (card_id card) (Player.hand p))
        as [h ok] eqn:Hloop.
      cbn [snd] in Hok. subst ok. split; [done|].
      intros cs _ Hcs HNd. rewrite Hcs, remove_loop_NoDup in Hloop by done.
      by injection Hloop as <-.
    + split; [done|]. by intros cs [=].
  - assert (valid_group (Meld.meld_cards m ++ [card]) = false) as ->.
    { destruct (valid_group _); [|done].
      by destruct (proj2 HN eq_refl). }
    cbn [MayI.players MayI.set_melds]. rewrite Hp, andb_false_r.
    split; [done|]. by intros cs [=].
Qed.

Lemma addToMeld_verdict_witness :
  (MayI.addToMeld Table.game "carol" (card 91 R7 Spades) 0).1 =
    Return ((1 <? length Table.carol_hand)%nat &&
            valid_group (Meld.meld_cards Table.sevens
                           ++ [card 91 R7 Spades])) /\
  (forall cs,
     (MayI.addToMeld Table.game "carol" (card 91 R7 Spades) 0).1
       = Return true ->
     Table.carol_hand = Some <$> cs -> NoDup (card_id <$> cs) ->
     (MayI.addToMeld Table.game "carol" (card 91 R7 Spades) 0).2 =
     MayI.set_players
       (MayI.set_melds Table.game
          (<[0%nat := Meld.set_cards Table.sevens
                    (sort_by_order (Meld.meld_cards Table.sevens
                                      ++ [card 91 R7 Spades]))]>
             (MayI.melds Table.game)))
       (Obj.set (MayI.players Table.game) "carol"
          (Player.set_hand
             (Player.mk "carol" (Some "s3"%string) "Carol" 4 0
                Table.carol_hand)
             (Some <$> List.filter
                         (fun c => negb (card_id c
                                         =? card_id (card 91 R7 Spades)))
                         cs)))).
Proof.
  apply (addToMeld_verdict Table.game "carol" (card 91 R7 Spades) 0
           0%nat Table.sevens
           (Player.mk "carol" (Some "s3"%string) "Carol" 4 0
              Table.carol_hand)).
  - reflexivity.
  - reflexivity.
  - repeat constructor; by eexists.
Defined.

(** X23. A swap that goes through. The player has melded, the meld has a
    first wild card, and the cards of the meld with the offered card in
    place of the wild card are a valid group: then [swapWithMeld] returns
    true, the meld holds the offered card in place of the wild card, sorted
    by order again, and the wild card sits in the hand in the slot of the
    first card with the id of the offered card. Whose meld it is plays no
    part: a player can swap with a meld of their own. *)
Theorem swapWithMeld_effect g player pc meldID k m mc c1 c2 p l1 x l2 :
  MayI.hasMeld g player = true ->
  MayI.find_meld (MayI.melds g) meldID = Some (k, m) ->
  Meld.meld_cards m = c1 ++ mc :: c2 ->
  is_wild mc = true ->
  (forall y, y ∈ c1 -> is_wild y = false /\ card_id y <> card_id mc) ->
  valid_group
    (pc :: List.filter (fun y => negb (card_id y =? card_id mc))
                       (Meld.meld_cards m)) = true ->
  Obj.get (MayI.players g) player = Some p ->
  Player.hand p = Some <$> (l1 ++ x :: l2) ->
  card_id x = card_id pc ->
  (forall y, y ∈ l1 -> card_id y <> card_id pc) ->
  MayI.swapWithMeld g player pc meldID =
  (Return true,
   MayI.set_players
     (MayI.set_melds g
        (<[k := Meld.set_cards m (sort_by_order (c1 ++ pc :: c2))]>
           (MayI.melds g)))
     (Obj.set (MayI.players g) player
        (Player.set_hand p ((Some <$> l1) ++ Some mc :: (Some <$> l2))))).
Proof.
  intros Hhas Hf Hcards Hw Hc1 Hvalid Hp Hhand Hx Hl1.
  unfold MayI.swapWithMeld. rewrite Hhas, Hf. cbn [negb].
  assert (List.find is_wild (Meld.meld_cards m) = Some mc) as ->.
  { rewrite Hcards. clear -Hw Hc1. induction c1 as [|y t IH].
    - cbn. by rewrite Hw.
    - cbn [app List.find].
      destruct (Hc1 y (list_elem_of_here _ _)) as [-> _].
      apply IH. intros; apply Hc1; by right. }
  unfold Meld.swap. rewrite swap_testMeld_spec.
  pose proof (new_is_Some None
                ([pc] ++ List.filter
                           (fun y => negb (card_id y =? card_id mc))
                           (Meld.meld_cards m)) None) as HN.
  destruct (Meld.new None _ None) as [m'|];
    [|destruct (proj2 HN Hvalid); done].
  rewrite Hcards, swap_replace_split by (intros; by apply Hc1).
  cbn [MayI.players MayI.set_melds]. rewrite Hp, Hhand.
  by rewrite swap_hand_loop_split.
Qed.

Lemma swapWithMeld_effect_witness :
  MayI.swapWithMeld
    (MayI.set_melds Table.game
       [Meld.set_playerID Table.sevens (Some "ann"%string); Table.threes])
    "ann" (card 91 R7 Spades) 0 =
  (Return true,
   MayI.set_players
     (MayI.set_melds
        (MayI.set_melds Table.game
           [Meld.set_playerID Table.sevens (Some "ann"%string);
            Table.threes])
        (<[0%nat := Meld.set_cards
                  (Meld.set_playerID Table.sevens (Some "ann"%string))
                  (sort_by_order
                     ([card 13 R7 Clubs] ++
                      card 91 R7 Spades :: [card 65 R7 Hearts]))]>
           [Meld.set_playerID Table.sevens (Some "ann"%string);
            Table.threes]))
     (Obj.set (MayI.players Table.game) "ann"
        (Player.set_hand
           (Player.mk "ann" (Some "s1"%string) "Ann" 6 0 Table.ann_hand)
           ((Some <$> []) ++ Some (card 29 R2 Diamonds)
              :: (Some <$> [card 25 RK Clubs]))))).
Proof.
  apply (swapWithMeld_effect
           (MayI.set_melds Table.game
              [Meld.set_playerID Table.sevens (Some "ann"%string);
               Table.threes])
           "ann" (card 91 R7 Spades) 0 0%nat
           (Meld.set_playerID Table.sevens (Some "ann"%string))
           (card 29 R2 Diamonds) [card 13 R7 Clubs] [card 65 R7 Hearts]
           (Player.mk "ann" (Some "s1"%string) "Ann" 6 0 Table.ann_hand)
           [] (card 91 R7 Spades) [card 25 RK Clubs]).
  - reflexivity.
  - reflexivity.
  - reflexivity.
  - reflexivity.
  - intros y Hy. apply list_elem_of_singleton in Hy as ->.
    split; [reflexivity|]. vm_compute. discriminate.
  - reflexivity.
  - reflexivity.
  - reflexivity.
  - reflexivity.
  - intros y Hy. by apply elem_of_nil in Hy.
Defined.

Section Rooms.









End Rooms.


Section Rejoin.

Lemma find_only (f : string -> bool) (l : list string) x :
  x ∈ l -> f x = true -> (forall y, y ∈ l -> y <> x -> f y = false) ->
  List.find f l = Some x.
Proof.
  induction l as [|y t IH]; intros Hin Hx Hothers.
  - by apply elem_of_nil in Hin.
  - cbn [List.find]. destruct (decide (y = x)) as [->|Hne].
    + by rewrite Hx.
    + rewrite (Hothers y (list_elem_of_here _ _) Hne).
      apply elem_of_cons in Hin as [->|Hin]; [done|].
      apply IH; [done|done|]. intros z Hz. apply Hothers. by right.
Qed.

Lemma disconnect_seat g x p :
  Obj.get (MayI.players g) x = Some p ->
  MayI.disconnect g x =
  (Return tt,
   MayI.mk (Obj.set (MayI.players g) x (Player.setSocketId p None))
     (MayI.connectedPlayerCount g - 1) (MayI.deck g) (MayI.round g)
     (MayI.turn g) (MayI.turnOrder g) (MayI.melds g)).
Proof. intros H. unfold MayI.disconnect. by rewrite H. Qed.

Lemma disconnectedPlayer_only g x p :
  Obj.get (MayI.players g) x = Some p ->
  (forall y q, Obj.get (MayI.players g) y = Some q -> y <> x ->
               Player.socketId q <> None) ->
  Server.disconnectedPlayer (MayI.disconnect g x).2 = Some x.
Proof.
  intros Hp Hothers. rewrite (disconnect_seat _ _ _ Hp).
  unfold Server.disconnectedPlayer. cbn [snd MayI.players].
  apply find_only.
  - rewrite keys_set_present by (by eexists). apply get_keys. by eexists.
  - by rewrite get_set_eq.
  - intros y Hy Hne. rewrite get_set_ne by done.
    rewrite keys_set_present in Hy by (by eexists).
    apply get_keys in Hy as [q Hq]. rewrite Hq.
    apply bool_decide_eq_false. by apply (Hothers y q).
Qed.

Lemma length_keys_del {V} (o : Obj.t V) k :
  k ∈ Obj.keys o -> S (length (Obj.keys (Obj.del o k))) = length (Obj.keys o).
Proof.
  unfold Obj.keys. induction o as [|[k0 v0] t IH]; simpl.
  - intros H. by apply elem_of_nil in H.
  - destruct (decide (k0 = k)) as [->|Hne]; [done|]. intros H.
    apply elem_of_cons in H as [->|H]; [done|]. simpl. by rewrite IH.
Qed.

End Rejoin.

(** X25. Coming back to a full room. One player of a full room, and only
    that one, has lost the connection. A [joinRoom] under an id nobody
    uses takes over the seat: the record of the lost player, with hand,
    buys, points and the old name, is now under the new id, and the
    connection count is what it was before the loss. A [joinRoom] under
    the id of the lost player is answered with success as well, but the
    record is deleted: the table has one player less, and the id stays
    in the turn order with no player behind it. *)
Theorem joinRoom_full_room rnd n g x p sid name :
  NoDup (Obj.keys (MayI.players g)) ->
  n <= Z.of_nat (length (Obj.keys (MayI.players g))) ->
  Obj.get (MayI.players g) x = Some p ->
  x <> EmptyString ->
  (forall y q, Obj.get (MayI.players g) y = Some q -> y <> x ->
               Player.socketId q <> None) ->
  let lost := (MayI.disconnect g x).2 in
  (forall y, y ∉ Obj.keys (MayI.players g) ->
     let r := Server.joinRoom rnd n lost y sid name in
     r.1 = Return true /\
     Obj.get (MayI.players r.2) y =
       Some (Player.mk y (Some sid) (Player.name p) (Player.buys p)
               (Player.points p) (Player.hand p)) /\
     Obj.get (MayI.players r.2) x = None /\
     MayI.connectedPlayerCount r.2 = MayI.connectedPlayerCount g) /\
  (let r := Server.joinRoom rnd n lost x sid name in
   r.1 = Return true /\
   Obj.get (MayI.players r.2) x = None /\
   MayI.turnOrder r.2 = MayI.turnOrder g /\
   S (length (Obj.keys (MayI.players r.2))) =
     length (Obj.keys (MayI.players g))).
Proof.
  intros HN Hn Hp Hx Hothers lost.
  pose proof (disconnectedPlayer_only g x p Hp Hothers) as Hfind.
  fold lost in Hfind.
  assert (lost =
          MayI.mk (Obj.set (MayI.players g) x (Player.setSocketId p None))
            (MayI.connectedPlayerCount g - 1) (MayI.deck g) (MayI.round g)
            (MayI.turn g) (MayI.turnOrder g) (MayI.melds g)) as Hlost
    by (unfold lost; by rewrite (disconnect_seat _ _ _ Hp)).
  assert (Obj.keys (MayI.players lost) = Obj.keys (MayI.players g)) as Hkeys.
  { rewrite Hlost. cbn [MayI.players]. apply keys_set_present. by eexists. }
  assert (Obj.get (MayI.players lost) x = Some (Player.setSocketId p None))
    as Hget by (rewrite Hlost; cbn [MayI.players]; apply get_set_eq).
  assert (forall y,
            Server.joinRoom rnd n lost y sid name =
            match MayI.reconnect lost x y (Some sid) with
            | (Return _, g') => (Return true, g')
            | (Throw, g') => (Throw, g')
            end) as Hjoin.
  { intros y. unfold Server.joinRoom. rewrite Hkeys, Hfind.
    destruct (_ >=? n) eqn:E; [|lia]. by rewrite decide_False. }
  split.
  - intros y Hy r. unfold r. rewrite Hjoin.
    destruct (reconnect_seat lost x y (Some sid) _
                ltac:(by rewrite Hkeys) Hget ltac:(by rewrite Hkeys))
      as (H1 & H2 & H3 & _ & H5).
    destruct (MayI.reconnect lost x y (Some sid)) as [o g'].
    cbn [fst snd] in *. subst o. cbn [fst snd].
    split; [done|]. split; [done|]. split; [done|].
    rewrite H5, Hlost. cbn [MayI.connectedPlayerCount]. lia.
  - intros r. unfold r. rewrite Hjoin.
    destruct (reconnect_own lost x (Some sid) _
                ltac:(by rewrite Hkeys) Hget) as (H1 & H2 & H3 & _).
    assert (S (length (Obj.keys
                         (MayI.players
                            (MayI.reconnect lost x x (Some sid)).2))) =
            length (Obj.keys (MayI.players g))) as Hlen.
    { unfold MayI.reconnect. rewrite Hget. cbn [snd MayI.players].
      rewrite set_set, length_keys_del.
      - rewrite keys_set_present by (by eexists). by rewrite Hkeys.
      - rewrite keys_set_present by (by eexists). apply get_keys.
        by eexists. }
    destruct (MayI.reconnect lost x x (Some sid)) as [o g'].
    cbn [fst snd] in *. subst o. cbn [fst snd].
    split; [done|]. split; [done|]. split; [|done].
    rewrite H3, Hlost. done.
Qed.

Lemma joinRoom_full_room_witness :
  (forall y, y ∉ Obj.keys (MayI.players Table.game) ->
     (Server.joinRoom Crowd.rnd 3 (MayI.disconnect Table.game "bob").2
        y "s9" "Robert").1 = Return true /\
     Obj.get
       (MayI.players
          (Server.joinRoom Crowd.rnd 3 (MayI.disconnect Table.game "bob").2
             y "s9" "Robert").2) y =
       Some (Player.mk y (Some "s9"%string) "Bob" 5 0 Table.bob_hand) /\
     Obj.get
       (MayI.players
          (Server.joinRoom Crowd.rnd 3 (MayI.disconnect Table.game "bob").2
             y "s9" "Robert").2) "bob" = None /\
     MayI.connectedPlayerCount
       (Server.joinRoom Crowd.rnd 3 (MayI.disconnect Table.game "bob").2
          y "s9" "Robert").2 = 3) /\
  ((Server.joinRoom Crowd.rnd 3 (MayI.disconnect Table.game "bob").2
      "bob" "s9" "Robert").1 = Return true /\
   Obj.get
     (MayI.players
        (Server.joinRoom Crowd.rnd 3 (MayI.disconnect Table.game "bob").2
           "bob" "s9" "Robert").2) "bob" = None /\
   MayI.turnOrder
     (Server.joinRoom Crowd.rnd 3 (MayI.disconnect Table.game "bob").2
        "bob" "s9" "Robert").2 = MayI.turnOrder Table.game /\
   S (length (Obj.keys
                (MayI.players
                   (Server.joinRoom Crowd.rnd 3
                      (MayI.disconnect Table.game "bob").2
                      "bob" "s9" "Robert").2))) =
     length (Obj.keys (MayI.players Table.game))).
Proof.
  apply (joinRoom_full_room Crowd.rnd 3 Table.game "bob"
           (Player.mk "bob" (Some "s2"%string) "Bob" 5 0 Table.bob_hand)
           "s9" "Robert").
  - apply (bool_decide_unpack _). vm_compute. exact I.
  - vm_compute. discriminate.
  - reflexivity.
  - discriminate.
  - intros y q Hq Hy. unfold Table.game in Hq.
    cbn [MayI.players Obj.get] in Hq.
    repeat case_decide; simplify_eq; cbn; done.
Defined.
(** X26. Leaving the lobby. [leaveRoom] of the only player deletes the
    room. With two or more players seated it removes the record of the
    player who leaves and nothing else: the id keeps its seat in the turn
    order and the connection count is not lowered. The turn order is then
    one longer than the player table, the length [incrementTurn] goes by,
    so passing the turn on never reaches the last seat. *)
Theorem leaveRoom_keeps_seat g user p :
  lobby g ->
  Obj.get (MayI.players g) user = Some p ->
  (length (MayI.turnOrder g) = 1%nat -> Server.leaveRoom g user = None) /\
  ((2 <= length (MayI.turnOrder g))%nat ->
   exists g',
     Server.leaveRoom g user = Some g' /\
     Obj.get (MayI.players g') user = None /\
     user ∈ MayI.turnOrder g' /\
     MayI.turnOrder g' = MayI.turnOrder g /\
     MayI.connectedPlayerCount g' = MayI.connectedPlayerCount g /\
     S (length (Obj.keys (MayI.players g'))) = length (MayI.turnOrder g') /\
     forall k,
       (MayI.turn (Nat.iter k MayI.incrementTurn g') + 1
        < length (MayI.turnOrder g'))%nat).
Proof.
  intros Hl Hp.
  destruct (lobby_shape g Hl) as (Hk & HN & _ & _ & _ & _ & _ & Ht).
  assert (user ∈ Obj.keys (MayI.players g)) as Hin
    by (apply get_keys; by eexists).
  pose proof (length_keys_del (MayI.players g) user Hin) as Hlen.
  unfold Server.leaveRoom. cbn [MayI.players MayI.set_players].
  split.
  - intros H1. rewrite Hk in H1. rewrite H1 in Hlen.
    injection Hlen as ->. done.
  - intros H2. rewrite Hk in H2.
    destruct (length (Obj.keys (Obj.del (MayI.players g) user))) as [|m]
      eqn:E; [lia|]. cbn [Nat.eqb].
    eexists. split; [reflexivity|].
    cbn [MayI.players MayI.set_players MayI.turnOrder
         MayI.connectedPlayerCount].
    split; [apply get_del_eq; by rewrite <- Hk|].
    split; [by rewrite Hk|]. split; [done|]. split; [done|].
    split; [rewrite E, Hk; lia|].
    intros k. rewrite iter_incrementTurn_turn;
      cbn [MayI.players MayI.set_players MayI.turn MayI.turnOrder];
      rewrite ?E, ?Ht; [|lia].
    pose proof (Nat.mod_upper_bound (0 + k) (S m)). rewrite Hk. lia.
Qed.

Lemma leaveRoom_keeps_seat_witness :
  (length (MayI.turnOrder Trio.game) = 1%nat ->
   Server.leaveRoom Trio.game "p1" = None) /\
  ((2 <= length (MayI.turnOrder Trio.game))%nat ->
   exists g',
     Server.leaveRoom Trio.game "p1" = Some g' /\
     Obj.get (MayI.players g') "p1" = None /\
     "p1"%string ∈ MayI.turnOrder g' /\
     MayI.turnOrder g' = MayI.turnOrder Trio.game /\
     MayI.connectedPlayerCount g' = MayI.connectedPlayerCount Trio.game /\
     S (length (Obj.keys (MayI.players g'))) = length (MayI.turnOrder g') /\
     forall k,
       (MayI.turn (Nat.iter k MayI.incrementTurn g') + 1
        < length (MayI.turnOrder g'))%nat).
Proof.
  apply (leaveRoom_keeps_seat Trio.game "p1" (Player.new "p1" None "guest")).
  - unfold Trio.game. cbn [foldl]. repeat apply lobby_join. apply lobby_new.
  - reflexivity.
Defined.

Section GoingOut.

Lemma defined_set ps k (v : Player.t) :
  Forall (fun kp : string * Player.t => Forall is_Some (Player.hand kp.2)) ps ->
  Forall is_Some (Player.hand v) ->
  Forall (fun kp : string * Player.t => Forall is_Some (Player.hand kp.2))
         (Obj.set ps k v).
Proof.
  intros H Hv. induction H as [|[k0 v0] t H0 Ht IH]; simpl.
  - constructor; [done|constructor].
  - destruct (decide (k0 = k)); constructor; auto.
Qed.

Lemma incrementTurn_turn_eq g g' :
  MayI.turn g' = MayI.turn g ->
  length (Obj.keys (MayI.players g')) = length (Obj.keys (MayI.players g)) ->
  MayI.turn (MayI.incrementTurn g') = MayI.turn (MayI.incrementTurn g).
Proof.
  intros Ht Hk. unfold MayI.incrementTurn. rewrite Ht, Hk.
  by destruct (Z.of_nat (MayI.turn g) =? _).
Qed.

Lemma incrementTurn_deck g : MayI.deck (MayI.incrementTurn g) = MayI.deck g.
Proof.
  unfold MayI.incrementTurn. by destruct (Z.of_nat (MayI.turn g) =? _).
Qed.

Lemma incrementTurn_round g :
  MayI.round (MayI.incrementTurn g) = MayI.round g.
Proof.
  unfold MayI.incrementTurn. by destruct (Z.of_nat (MayI.turn g) =? _).
Qed.

End GoingOut.

(** X27. Going out. The player in turn holds one card and discards it
    through the [discardCard] message (all hands free of empty slots, a
    deck in place): the handler returns, and with the discard it ends the
    round. The player who went out is charged nothing, every other
    player the values of the cards in hand; buys stay; the round number
    goes up by one, the melds are cleared, and the turn has moved on to
    the next seat. *)
Theorem discardCard_goes_out rnd g user c p x d :
  MayI.turnOrder g !! MayI.turn g = Some user ->
  Obj.get (MayI.players g) user = Some p ->
  Player.hand p = [Some x] -> card_id x = card_id c ->
  MayI.deck g = Some d ->
  Forall (fun kp : string * Player.t => Forall is_Some (Player.hand kp.2))
         (MayI.players g) ->
  let r := Server.discardCard rnd g user c in
  r.1 = Return tt /\
  MayI.round r.2 = MayI.round g + 1 /\
  MayI.melds r.2 = [] /\
  MayI.turn r.2 = MayI.turn (MayI.incrementTurn g) /\
  (forall k q, Obj.get (MayI.players g) k = Some q ->
     exists q', Obj.get (MayI.players r.2) k = Some q' /\
       Player.points q' =
         Player.points q +
         (if decide (k = user) then 0 else hand_value (Player.hand q)) /\
       Player.buys q' = Player.buys q).
Proof.
  intros Hturn Hp Hhand Hx Hd Hdef r. unfold r, Server.discardCard.
  unfold MayI.discard. rewrite Hturn, bool_decide_eq_true_2 by done.
  cbn [negb]. rewrite Hp, Hhand. cbn [Player.remove_loop].
  rewrite Hx, Z.eqb_refl. cbn [negb MayI.deck MayI.set_players].
  rewrite Hd.
  set (ps1 := Obj.set (MayI.players g) user (Player.set_hand p [])).
  set (g0 := MayI.set_deck (MayI.set_players g ps1)
               (Some (Deck.discardCard d (Some c)))).
  set (g1 := MayI.incrementTurn g0).
  assert (MayI.players g1 = ps1) as Hps1
    by (unfold g1; by rewrite incrementTurn_players).
  assert (Obj.get (MayI.players g1) user = Some (Player.set_hand p []))
    as Hget1 by (rewrite Hps1; apply get_set_eq).
  rewrite (incrementTurn_deck g0 : MayI.deck g1 = _).
  cbn [g0 MayI.deck MayI.set_deck]. rewrite Hget1.
  cbn [Player.set_hand Player.hand length Nat.eqb].
  assert (Forall (fun kp : string * Player.t =>
                    Forall is_Some (Player.hand kp.2)) (MayI.players g1))
    as Hdef1 by (rewrite Hps1; by apply defined_set).
  destruct (endRound_defined rnd g1 Hdef1)
    as (H1 & H2 & H3 & H4 & _ & H6 & _).
  destruct (MayI.endRound rnd g1) as [o g2]. cbn [fst snd] in *. subst o.
  pose proof (H6 user) as Huser. rewrite Hget1 in Huser.
  destruct (Obj.get (MayI.players g2) user) as [pu|] eqn:Hpu; [|done].
  cbn [fst snd]. split; [done|]. split.
  { rewrite H2. unfold g1. by rewrite incrementTurn_round. }
  split; [done|]. split.
  { rewrite H4. unfold g1. apply incrementTurn_turn_eq; [done|].
    cbn [g0 MayI.players MayI.set_deck MayI.set_players]. unfold ps1.
    rewrite keys_set_present; [done|by eexists]. }
  intros k q Hq. pose proof (H6 k) as Hk. rewrite Hps1 in Hk.
  destruct (decide (k = user)) as [->|Hne].
  - unfold ps1 in Hk. rewrite get_set_eq in Hk.
    destruct (Obj.get (MayI.players g2) user) as [q'|]; [|done].
    assert (q = p) as -> by congruence.
    exists q'. split; [done|]. destruct Hk as (Hpts & Hb & _).
    cbn in Hpts, Hb. split; [lia|done].
  - unfold ps1 in Hk. rewrite get_set_ne, Hq in Hk by done.
    destruct (Obj.get (MayI.players g2) k) as [q'|]; [|done].
    exists q'. split; [done|]. by destruct Hk as (Hpts & Hb & _).
Qed.

Lemma discardCard_goes_out_witness :
  (Server.discardCard Crowd.rnd
     (MayI.set_turn Table.game 2) "carol" (card 92 R7 Spades)).1
    = Return tt /\
  MayI.round
    (Server.discardCard Crowd.rnd
       (MayI.set_turn Table.game 2) "carol" (card 92 R7 Spades)).2
    = MayI.round (MayI.set_turn Table.game 2) + 1 /\
  MayI.melds
    (Server.discardCard Crowd.rnd
       (MayI.set_turn Table.game 2) "carol" (card 92 R7 Spades)).2 = [] /\
  MayI.turn
    (Server.discardCard Crowd.rnd
       (MayI.set_turn Table.game 2) "carol" (card 92 R7 Spades)).2
    = MayI.turn (MayI.incrementTurn (MayI.set_turn Table.game 2)) /\
  (forall k q,
     Obj.get (MayI.players (MayI.set_turn Table.game 2)) k = Some q ->
     exists q',
       Obj.get
         (MayI.players
            (Server.discardCard Crowd.rnd
               (MayI.set_turn Table.game 2) "carol" (card 92 R7 Spades)).2)
         k = Some q' /\
       Player.points q' =
         Player.points q +
         (if decide (k = "carol"%string) then 0
          else hand_value (Player.hand q)) /\
       Player.buys q' = Player.buys q).
Proof.
  apply (discardCard_goes_out Crowd.rnd (MayI.set_turn Table.game 2)
           "carol" (card 92 R7 Spades)
           (Player.mk "carol" (Some "s3"%string) "Carol" 4 0
              Table.carol_hand)
           (card 92 R7 Spades) Table.pile).
  - reflexivity.
  - reflexivity.
  - reflexivity.
  - reflexivity.
  - reflexivity.
  - repeat constructor; by eexists.
Defined.
Section Probing.

Lemma findIndex_split {A} (f : A -> bool) (l : list A) i :
  Server.findIndex f l = Some i ->
  exists l1 x l2,
    l = l1 ++ x :: l2 /\ length l1 = i /\ f x = true /\
    (forall y, y ∈ l1 -> f y = false).
Proof.
  revert i. induction l as [|y t IH]; intros i; [done|].
  cbn [Server.findIndex]. destruct (f y) eqn:Hy.
  - intros [= <-]. exists [], y, t. split; [done|]. split; [done|].
    split; [done|]. intros z Hz. by apply elem_of_nil in Hz.
  - destruct (Server.findIndex f t) as [j|]; [|done]. intros [= <-].
    destruct (IH j eq_refl) as (l1 & x & l2 & -> & Hlen & Hx & Hl1).
    exists (y :: l1), x, l2. split; [done|]. split; [by rewrite <- Hlen|].
    split; [done|]. intros z Hz.
    apply elem_of_cons in Hz as [->|Hz]; [done|by apply Hl1].
Qed.

Lemma find_split {A} (f : A -> bool) (l1 : list A) x l2 :
  f x = true -> (forall y, y ∈ l1 -> f y = false) ->
  List.find f (l1 ++ x :: l2) = Some x.
Proof.
  intros Hx Hl1. induction l1 as [|y t IH]; cbn [app List.find].
  - by rewrite Hx.
  - rewrite (Hl1 y (list_elem_of_here _ _)). apply IH.
    intros; apply Hl1; by right.
Qed.

Lemma swap_hand_loop_defined cid mco h :
  Forall is_Some h -> is_Some (MayI.swap_hand_loop cid mco h).
Proof.
  induction 1 as [|x t [c ->] _ IH]; cbn [MayI.swap_hand_loop]; [by eexists|].
  destruct (card_id c =? cid); [by eexists|].
  destruct IH as [h' ->]. by eexists.
Qed.

Lemma valid_group_perm l l' :
  (forall c, c ∈ l -> card_order c <> 0) ->
  l ≡ₚ l' -> valid_group l = valid_group l'.
Proof.
  intros Hnz HP. unfold valid_group.
  by rewrite (isRun_perm _ _ HP), (isSet_perm _ _ Hnz HP).
Qed.

Lemma isValidMeld_valid cards : MayI.isValidMeld cards = valid_group cards.
Proof.
  unfold MayI.isValidMeld.
  pose proof (new_is_Some (Some (-1)) cards None) as H.
  destruct (Meld.new (Some (-1)) cards None).
  - symmetry. apply H. by eexists.
  - destruct (valid_group cards); [|done]. by destruct (proj2 H eq_refl).
Qed.

End Probing.

(** X28. What [canSwapWithMeld] promises, [swapWithMeld] keeps. When the
    server answers a client that a card can be swapped into a meld, and
    the player has melded, the [swapWithMeld] that follows with the same
    card and meld returns true (cards of the meld with distinct ids, no
    order 0 among them and the offered card, hand free of empty slots).
    The two checks are made on different arrangements of the cards; the
    verdict does not depend on the arrangement. *)
Theorem canSwap_then_swap g user meldID c k m p :
  Server.canSwapWithMeld g user meldID c = Return true ->
  MayI.hasMeld g user = true ->
  MayI.find_meld (MayI.melds g) meldID = Some (k, m) ->
  NoDup (card_id <$> Meld.meld_cards m) ->
  (forall y, y ∈ c :: Meld.meld_cards m -> card_order y <> 0) ->
  Obj.get (MayI.players g) user = Some p ->
  Forall is_Some (Player.hand p) ->
  (MayI.swapWithMeld g user c meldID).1 = Return true /\
  Meld.meld_playerID m <> Some user.
Proof.
  intros Hcan Hhas Hf HN Hnz Hp Hdef. unfold Server.canSwapWithMeld in Hcan.
  rewrite Hf in Hcan.
  destruct (bool_decide (Meld.meld_playerID m = Some user)) eqn:Hown;
    [done|]. cbn [negb] in Hcan. apply bool_decide_eq_false in Hown.
  split; [|done].
  destruct (Server.findIndex is_wild (Meld.meld_cards m)) as [idx|] eqn:Hidx;
    [|done].
  destruct (findIndex_split _ _ _ Hidx)
    as (c1 & mc & c2 & Hcards & Hlen & Hw & Hc1).
  injection Hcan as Hvalid. rewrite isValidMeld_valid in Hvalid.
  rewrite Hcards in Hvalid.
  assert (<[idx := c]> (c1 ++ mc :: c2) = c1 ++ c :: c2) as Hins.
  { rewrite <- Hlen. rewrite insert_app_r_alt by lia.
    by rewrite Nat.sub_diag. }
  rewrite Hins in Hvalid.
  assert (valid_group
            (c :: List.filter (fun y => negb (card_id y =? card_id mc))
                              (Meld.meld_cards m)) = true) as Hswap.
  { rewrite (filter_drop_id _ c1 c2 mc HN Hcards).
    rewrite <- Hvalid. apply valid_group_perm.
    - intros y Hy. apply Hnz. rewrite Hcards.
      apply elem_of_cons in Hy as [->|Hy]; [by left|right].
      apply elem_of_app in Hy as [Hy|Hy]; apply elem_of_app;
        [by left|right; by right].
    - by rewrite Permutation_middle. }
  unfold MayI.swapWithMeld. rewrite Hhas, Hf. cbn [negb].
  assert (List.find is_wild (Meld.meld_cards m) = Some mc) as ->
    by (rewrite Hcards; by apply find_split).
  pose proof (proj2 (swap_accepts m mc c) Hswap) as Hacc.
  destruct (Meld.swap m (Some mc) c) as [o m']. cbn [fst] in Hacc. subst o.
  cbv beta iota zeta. cbn [MayI.players MayI.set_melds]. rewrite Hp.
  destruct (swap_hand_loop_defined (card_id c) (Some mc) _ Hdef) as [h ->].
  done.
Qed.

Lemma canSwap_then_swap_witness :
  (MayI.swapWithMeld Table.game "ann" (card 91 R7 Spades) 0).1
    = Return true /\
  Meld.meld_playerID Table.sevens <> Some "ann"%string.
Proof.
  apply (canSwap_then_swap Table.game "ann" 0 (card 91 R7 Spades) 0%nat
           Table.sevens
           (Player.mk "ann" (Some "s1"%string) "Ann" 6 0 Table.ann_hand)).
  - reflexivity.
  - reflexivity.
  - reflexivity.
  - apply (bool_decide_unpack _). vm_compute. exact I.
  - intros y Hy. repeat (apply elem_of_cons in Hy as [->|Hy]; [done|]).
    by apply elem_of_nil in Hy.
  - reflexivity.
  - repeat constructor; by eexists.
Defined.

Section BuyWindow.

Lemma draw_others g x qty k :
  k <> x ->
  Obj.get (MayI.players (MayI.draw g x qty).2) k = Obj.get (MayI.players g) k.
Proof.
  intros Hne. revert g. induction qty as [|n IH]; intros g; [done|].
  cbn [MayI.draw].
  destruct (Obj.get (MayI.players g) x) as [p|]; [|done].
  destruct (MayI.deck g) as [d|]; [|done].
  destruct (Deck.drawCard d) as [c d']. rewrite IH.
  cbn [MayI.players MayI.set_deck MayI.set_players]. by rewrite get_set_ne.
Qed.

Lemma buy_others g x k :
  k <> x ->
  Obj.get (MayI.players (MayI.buy g x).2) k = Obj.get (MayI.players g) k.
Proof.
  intros Hne. unfold MayI.buy.
  destruct (Obj.get (MayI.players g) x) as [p|]; [|done].
  destruct (Player.buys p =? 0); [done|].
  cbn [MayI.deck MayI.set_players].
  destruct (MayI.deck g) as [d|];
    [|cbn [snd MayI.players MayI.set_players]; by rewrite get_set_ne].
  destruct (pop (Deck.discarded d)) as [[??]|]; cbv beta iota zeta.
  all: match goal with
       | |- context [MayI.draw ?g2 ?y 1] =>
           pose proof (draw_others g2 y 1 k Hne) as H2;
           destruct (MayI.draw g2 y 1) as [[]?]; cbn [snd] in *;
           rewrite H2
       end.
  all: cbn [MayI.players MayI.set_deck MayI.set_players];
    by rewrite !get_set_ne.
Qed.

Lemma draw_buys g x qty q :
  Obj.get (MayI.players g) x = Some q ->
  exists q', Obj.get (MayI.players (MayI.draw g x qty).2) x = Some q' /\
             Player.buys q' = Player.buys q.
Proof.
  revert g q. induction qty as [|n IH]; intros g q Hq; [by exists q|].
  cbn [MayI.draw]. rewrite Hq.
  destruct (MayI.deck g) as [d|]; [|by exists q].
  destruct (Deck.drawCard d) as [c d'].
  destruct (IH (MayI.set_deck
                  (MayI.set_players g
                     (Obj.set (MayI.players g) x (Player.addCard q c)))
                  (Some d')) (Player.addCard q c)) as (q' & Hq' & Hb).
  { cbn [MayI.players MayI.set_deck MayI.set_players]. apply get_set_eq. }
  by exists q'.
Qed.

Lemma buy_spends g x q :
  Obj.get (MayI.players g) x = Some q -> Player.buys q <> 0 ->
  exists q', Obj.get (MayI.players (MayI.buy g x).2) x = Some q' /\
             Player.buys q' = Player.buys q - 1.
Proof.
  intros Hq Hb. unfold MayI.buy. rewrite Hq.
  destruct (Player.buys q =? 0) eqn:E; [apply Z.eqb_eq in E; done|].
  cbn [MayI.deck MayI.set_players].
  destruct (MayI.deck g) as [d|].
  2:{ cbn [snd MayI.players MayI.set_players]. rewrite get_set_eq.
      by eexists. }
  destruct (pop (Deck.discarded d)) as [[top rest]|]; cbv beta iota zeta.
  all: match goal with
       | |- context [MayI.draw ?g2 ?y 1] =>
           destruct (draw_buys g2 y 1
                       (Player.addCard
                          (Player.set_buys q (Player.buys q - 1)) 
                          ltac:(first [exact top | exact None])))
             as (q' & Hq' & Hb');
           [cbn [MayI.players MayI.set_deck MayI.set_players];
            rewrite get_set_eq; reflexivity|];
           destruct (MayI.draw g2 y 1) as [[]?]; cbn [snd] in *;
           by exists q'
       end.
Qed.

End BuyWindow.

(** X29. One buy window, at most one buy. When [handleCardBuyProcess]
    closes a window, whoever asked and however often, every player
    record is as it was, but for at most one: the player that
    [determineBuy] names, who is among those who asked, had a buy left
    and has one buy less. With nobody asking the game is not touched. *)
Theorem buy_window g buyers :
  let r := Server.handleCardBuyProcess g buyers in
  (buyers = [] -> r = (Return tt, g)) /\
  (forall k,
     Obj.get (MayI.players r.2) k = Obj.get (MayI.players g) k \/
     (k ∈ buyers /\ MayI.determineBuy g buyers = Return (Some k) /\
      exists q q',
        Obj.get (MayI.players g) k = Some q /\
        Obj.get (MayI.players r.2) k = Some q' /\
        0 < Player.buys q /\ Player.buys q' = Player.buys q - 1)).
Proof.
  intros r. unfold r, Server.handleCardBuyProcess.
  split; [by intros ->|]. intros k.
  destruct buyers as [|b0 rest]; [by left|].
  destruct (MayI.determineBuy g (b0 :: rest)) as [[x|]|] eqn:Hdet;
    [|by left|by left].
  destruct (decide (x = EmptyString)); [by left|].
  assert ((match MayI.buy g x with
           | (Return _, g') =>
               match Obj.get (MayI.players g') x with
               | Some _ => (Return tt, g')
               | None => (Throw, g')
               end
           | (Throw, g') => (Throw, g')
           end).2 = (MayI.buy g x).2) as ->.
  { destruct (MayI.buy g x) as [[?|] g']; [|done].
    by destruct (Obj.get (MayI.players g') x). }
  destruct (decide (k = x)) as [->|Hne]; [|left; by apply buy_others].
  right. unfold MayI.determineBuy in Hdet.
  destruct (MayI.deck g) as [d|]; [|done].
  apply determineBuy_loop_Some in Hdet as (Hc & _ & q & Hq & Hb).
  split; [done|]. split; [done|].
  destruct (buy_spends g x q Hq ltac:(lia)) as (q' & Hq' & Hb').
  by exists q, q'.
Qed.

Section OwnIds.

Lemma ids_match_set ps k v :
  ids_match ps -> Player.id v = k -> ids_match (Obj.set ps k v).
Proof.
  unfold ids_match. intros H Hv.
  induction H as [|[k0 v0] t H0 Ht IH]; simpl.
  - constructor; [done|constructor].
  - destruct (decide (k0 = k)); constructor; auto.
Qed.

Lemma ids_match_get ps k p :
  ids_match ps -> Obj.get ps k = Some p -> Player.id p = k.
Proof.
  unfold ids_match. intros H Hg. apply get_Some_elem in Hg.
  rewrite Forall_forall in H. apply (H _ Hg).
Qed.

Lemma ids_match_del_set ps a v :
  ids_match ps -> ids_match (Obj.del (Obj.set ps a v) a).
Proof.
  unfold ids_match. intros H.
  induction H as [|[k0 v0] t H0 Ht IH]; simpl.
  - rewrite decide_True by done. constructor.
  - destruct (decide (k0 = a)) as [->|Hne]; simpl.
    + by rewrite decide_True.
    + rewrite decide_False by done. constructor; auto.
Qed.

Lemma ids_match_rename ps a v b w :
  ids_match ps -> Player.id w = b ->
  ids_match (Obj.del (Obj.set (Obj.set ps a v) b w) a).
Proof.
  unfold ids_match. intros H Hw.
  induction H as [|[k0 v0] t H0 Ht IH]; simpl.
  - destruct (decide (a = b)) as [->|Hne]; simpl.
    + rewrite decide_True by done. constructor.
    + rewrite decide_True by done. constructor; [done|constructor].
  - destruct (decide (k0 = a)) as [->|Hne]; simpl.
    + destruct (decide (a = b)) as [->|Hab]; simpl.
      * by rewrite decide_True.
      * rewrite decide_True by done. by apply ids_match_set.
    + destruct (decide (k0 = b)) as [->|Hkb]; simpl.
      * rewrite decide_False by done. constructor; [done|].
        by apply ids_match_del_set.
      * rewrite decide_False by done. constructor; auto.
Qed.

Lemma ids_match_draw g x qty :
  ids_match (MayI.players g) -> ids_match (MayI.players (MayI.draw g x qty).2).
Proof.
  revert g. induction qty as [|n IH]; intros g H; [done|].
  cbn [MayI.draw].
  destruct (Obj.get (MayI.players g) x) as [p|] eqn:Hp; [|done].
  destruct (MayI.deck g) as [d|]; [|done].
  destruct (Deck.drawCard d) as [c d']. apply IH.
  cbn [MayI.players MayI.set_deck MayI.set_players].
  apply ids_match_set; [done|]. apply (ids_match_get _ _ _ H Hp).
Qed.

Lemma ids_match_seats ps ps' :
  Forall2 same_seat ps ps' -> ids_match ps -> ids_match ps'.
Proof.
  unfold ids_match. induction 1 as [|[k p] [k' p'] t t' [Hk [h Hh]] _ IH].
  - done.
  - intros H. apply Forall_cons in H as [H0 Ht]. cbn [fst snd] in *.
    subst. constructor; [done|auto].
Qed.

Lemma ids_match_endRound_loop ps :
  ids_match ps -> ids_match (MayI.endRound_loop ps).1.
Proof.
  unfold ids_match. induction ps as [|[k p] t IH]; intros H; [done|].
  apply Forall_cons in H as [H0 Ht]. cbn [MayI.endRound_loop].
  destruct (MayI.score_loop (Player.points p) (Player.hand p)) as [pts ok].
  destruct ok.
  - specialize (IH Ht). destruct (MayI.endRound_loop t) as [t' ok'].
    constructor; done.
  - constructor; done.
Qed.

Lemma ids_match_deal rnd g :
  ids_match (MayI.players g) -> ids_match (MayI.players (MayI.deal rnd g)).
Proof.
  intros H. destruct (deal_seats rnd g) as (ps & d & -> & Hs).
  by apply (ids_match_seats (MayI.players g)).
Qed.

Lemma ids_match_move g g' :
  move g g' -> ids_match (MayI.players g) -> ids_match (MayI.players g').
Proof.
  intros Hm H. destruct Hm as [g x qty|g x c|g x|g x groups|g x c mid
                               |g x c mid|g x pid sid|g x].
  - by apply ids_match_draw.
  - unfold MayI.discard.
    destruct (negb _); [done|].
    destruct (Obj.get (MayI.players g) x) as [p|] eqn:Hp; [|done].
    pose proof (ids_match_get _ _ _ H Hp) as Hb.
    destruct (Player.remove_loop (card_id c) (Player.hand p)) as [h ok].
    assert (ids_match (Obj.set (MayI.players g) x (Player.set_hand p h)))
      by by apply ids_match_set.
    destruct ok; [|done]. cbn [negb MayI.deck MayI.set_players].
    destruct (MayI.deck g); [|done]. cbn [snd].
    by rewrite incrementTurn_players.
  - unfold MayI.buy.
    destruct (Obj.get (MayI.players g) x) as [p|] eqn:Hp; [|done].
    pose proof (ids_match_get _ _ _ H Hp) as Hb.
    destruct (Player.buys p =? 0); [done|].
    assert (ids_match
              (Obj.set (MayI.players g) x
                 (Player.set_buys p (Player.buys p - 1)))) as H1
      by by apply ids_match_set.
    cbn [MayI.deck MayI.set_players]. destruct (MayI.deck g) as [d|]; [|done].
    destruct (pop (Deck.discarded d)) as [[??]|]; cbv beta iota zeta.
    all: match goal with
         | |- context [MayI.draw ?g2 ?y 1] =>
             pose proof (ids_match_draw g2 y 1) as H2;
             destruct (MayI.draw g2 y 1) as [[]?]; apply H2
         end.
    all: cbn [MayI.players MayI.set_deck MayI.set_players];
      by apply ids_match_set.
  - unfold MayI.meld.
    destruct (MayI.meld_build g x groups 0); [|done].
    destruct (Obj.get (MayI.players g) x) as [p|] eqn:Hp; [|done].
    pose proof (ids_match_get _ _ _ H Hp) as Hb.
    destruct (_ =? _)%nat; [done|]. destruct (_ && _); [done|].
    destruct (MayI.meld_remove _ _) as [h ok].
    assert (ids_match (Obj.set (MayI.players g) x (Player.set_hand p h)))
      by by apply ids_match_set.
    by destruct ok.
  - unfold MayI.swapWithMeld. destruct (negb _); [done|].
    destruct (MayI.find_meld _ _) as [[k m]|]; [|done].
    destruct (Meld.swap _ _ _) as [r m']. destruct r as [[]|]; try done.
    cbn [MayI.players MayI.set_melds].
    destruct (Obj.get (MayI.players g) x) as [p|] eqn:Hp; [|done].
    pose proof (ids_match_get _ _ _ H Hp) as Hb.
    destruct (MayI.swap_hand_loop _ _ _); [|done].
    by apply ids_match_set.
  - unfold MayI.addToMeld.
    destruct (MayI.find_meld _ _) as [[k m]|]; [|done].
    destruct (Meld.addCard m c) as [b m'].
    cbn [MayI.players MayI.set_melds].
    destruct (Obj.get (MayI.players g) x) as [p|] eqn:Hp; [|done].
    pose proof (ids_match_get _ _ _ H Hp) as Hb.
    destruct (_ && _); [|done]. unfold Player.removeCard.
    destruct (Player.remove_loop _ _) as [h ok].
    assert (ids_match (Obj.set (MayI.players g) x (Player.set_hand p h)))
      by by apply ids_match_set.
    by destruct ok.
  - unfold MayI.reconnect.
    destruct (Obj.get (MayI.players g) x) as [p|] eqn:Hp; [|done].
    cbn [snd MayI.players]. by apply ids_match_rename.
  - unfold MayI.disconnect.
    destruct (Obj.get (MayI.players g) x) as [p|] eqn:Hp; [|done].
    pose proof (ids_match_get _ _ _ H Hp) as Hb.
    by apply ids_match_set.
Qed.

Lemma ids_match_call g g' :
  call g g' -> ids_match (MayI.players g) -> ids_match (MayI.players g').
Proof.
  intros Hc H. destruct Hc as [g g' Hm|g id sid name|rnd g|rnd g|g].
  - by apply (ids_match_move g).
  - unfold MayI.addPlayer. destruct (Obj.get _ _); [done|].
    by apply ids_match_set.
  - by apply ids_match_deal.
  - unfold MayI.endRound.
    pose proof (ids_match_endRound_loop _ H) as H1.
    destruct (MayI.endRound_loop (MayI.players g)) as [ps ok].
    destruct ok; cbn [negb]; [|done].
    destruct (_ <=? 6); [|done]. by apply ids_match_deal.
  - by rewrite incrementTurn_players.
Qed.

End OwnIds.

(** X30. Whatever calls are made on a game, every player record carries
    the id it is stored under: [reconnect], the one method that gives a
    record a new id, also moves it to the new key. Melds are filed under
    the id in the record and [hasMeld] is asked with the key; the two
    agree in every such game, so a [meld] that returns true always leaves
    the player counted as having melded. *)
Theorem ids_are_keys g :
  history g ->
  (forall k p, Obj.get (MayI.players g) k = Some p -> Player.id p = k) /\
  (forall player groups,
     (MayI.meld g player groups).1 = true ->
     MayI.hasMeld (MayI.meld g player groups).2 player = true).
Proof.
  intros Hh. assert (ids_match (MayI.players g)) as HI.
  { induction Hh as [|g g' _ IH Hc]; [constructor|].
    by apply (ids_match_call g). }
  split; [intros k p; by apply ids_match_get|].
  intros player groups Hm.
  destruct (MayI.meld g player groups) as [b g'] eqn:E.
  cbn [fst snd] in *. subst b.
  destruct (meld_owner g player groups g' E) as (p & Hp & [Hhas|Hnew] & Hkeep).
  - by apply Hkeep.
  - unfold MayI.hasMeld. by rewrite <- (ids_match_get _ _ _ HI Hp).
Qed.

Lemma ids_are_keys_witness :
  (forall k p,
     Obj.get
       (MayI.players
          (MayI.reconnect (MayI.addPlayer MayI.new "p0" None "guest")
             "p0" "p9" (Some "s9"%string)).2) k = Some p ->
     Player.id p = k) /\
  (forall player groups,
     (MayI.meld
        (MayI.reconnect (MayI.addPlayer MayI.new "p0" None "guest")
           "p0" "p9" (Some "s9"%string)).2 player groups).1 = true ->
     MayI.hasMeld
       (MayI.meld
          (MayI.reconnect (MayI.addPlayer MayI.new "p0" None "guest")
             "p0" "p9" (Some "s9"%string)).2 player groups).2 player
     = true).
Proof.
  apply (ids_are_keys
           (MayI.reconnect (MayI.addPlayer MayI.new "p0" None "guest")
              "p0" "p9" (Some "s9"%string)).2).
  apply (history_call (MayI.addPlayer MayI.new "p0" None "guest")).
  - apply (history_call MayI.new); [apply history_new|apply call_addPlayer].
  - apply call_move, move_reconnect.
Defined.
